(** * Bubble shooter: a shallow embedding of src/script.js

    Coordinates, velocities and angles of the game are JavaScript numbers;
    they are modelled as exact real numbers ([R]).  [Math.round] is
    [floor (v + 1/2)], [%] on integers is [Z.rem] (the sign follows the
    dividend, as in JavaScript).  [Math.random] is a stream of rational draws
    carried in the game state.  Objects (bubbles) are modelled by identity: a
    heap maps object ids to bubble records, and the arrays [bubbles] and
    [gridBubbles] hold ids, so that the aliasing of the source is kept. *)

From Stdlib Require Import ZArith Reals Lra Lia QArith Qround String Bool List.
From Stdlib Require Import Relations.Relation_Operators Relations.Operators_Properties.
Import ListNotations.

Local Open Scope R_scope.

(** ** Game configuration (lines 1-15) *)

Definition CANVAS_WIDTH : R := 400.
Definition CANVAS_HEIGHT : R := 600.
Definition BUBBLE_RADIUS : R := 20.
Definition BUBBLE_DIAMETER : R := BUBBLE_RADIUS * 2.
Definition SHOOT_SPEED : R := 10.
Definition INITIAL_GRID_ROWS : nat := 5.
Definition GRID_COLS : nat := 10.
Definition CANNON_HEIGHT : R := 40.
Definition CANNON_WIDTH : R := 60.
Definition POP_SCORE : Z := 10.

Definition BUBBLE_COLORS : list string :=
  ["red"; "green"; "blue"; "yellow"; "purple"]%string.

(** The value read out of an array out of its range. *)
Definition js_undefined : string := "undefined"%string.

(** ** Numeric helpers *)

Definition Rltb (a b : R) : bool := if Rlt_dec a b then true else false.
Definition Rleb (a b : R) : bool := if Rle_dec a b then true else false.

(** [Math.round v] is [Math.floor(v + 0.5)]. *)
Definition js_round (v : R) : Z := Int_part (v + / 2).

(** [Math.floor(r * n)] for a draw [r] of [Math.random()], as an index. *)
Definition random_index (r : Q) (n : nat) : nat :=
  Z.to_nat (Qfloor (r * inject_Z (Z.of_nat n))).

(** [Math.atan2(y, x)]. *)
Definition atan2 (y x : R) : R :=
  if Rlt_dec 0 x then atan (y / x)
  else if Rlt_dec x 0 then
    (if Rle_dec 0 y then atan (y / x) + PI else atan (y / x) - PI)
  else if Rlt_dec 0 y then PI / 2
  else if Rlt_dec y 0 then - (PI / 2)
  else 0.

(** ** Utility functions (lines 43-66) *)

Definition toRadians (angle : R) : R := angle * (PI / 180).

Record gridPosition := mkGridPosition {
  gp_x : R; gp_y : R; gp_row : Z; gp_col : Z
}.

Definition rowHeight : R := BUBBLE_DIAMETER * sqrt 3 / 2.

Definition getGridPosition (x y : R) : gridPosition :=
  let colWidth := BUBBLE_DIAMETER in
  let row := js_round ((y - BUBBLE_RADIUS) / rowHeight) in
  let col := js_round ((x - BUBBLE_RADIUS - IZR (Z.rem row 2) * BUBBLE_RADIUS)
                       / colWidth) in
  let snappedY := BUBBLE_RADIUS + IZR row * rowHeight in
  let snappedX := BUBBLE_RADIUS + IZR col * colWidth
                  + IZR (Z.rem row 2) * BUBBLE_RADIUS in
  mkGridPosition snappedX snappedY row col.

(** ** The [Bubble] class (lines 69-126) *)

Record bubble := mkBubble {
  x : R; y : R; color : string; radius : R; isGrid : bool;
  vx : R; vy : R; isPopping : bool; popFrame : nat
}.

Definition newBubble (x0 y0 : R) (c : string) (g : bool) : bubble :=
  mkBubble x0 y0 c BUBBLE_RADIUS g 0 0 false 0.

Definition set_x (b : bubble) v := mkBubble v b.(y) b.(color) b.(radius) b.(isGrid) b.(vx) b.(vy) b.(isPopping) b.(popFrame).
Definition set_y (b : bubble) v := mkBubble b.(x) v b.(color) b.(radius) b.(isGrid) b.(vx) b.(vy) b.(isPopping) b.(popFrame).
Definition set_isGrid (b : bubble) v := mkBubble b.(x) b.(y) b.(color) b.(radius) v b.(vx) b.(vy) b.(isPopping) b.(popFrame).
Definition set_vx (b : bubble) v := mkBubble b.(x) b.(y) b.(color) b.(radius) b.(isGrid) v b.(vy) b.(isPopping) b.(popFrame).
Definition set_vy (b : bubble) v := mkBubble b.(x) b.(y) b.(color) b.(radius) b.(isGrid) b.(vx) v b.(isPopping) b.(popFrame).
Definition set_isPopping (b : bubble) v := mkBubble b.(x) b.(y) b.(color) b.(radius) b.(isGrid) b.(vx) b.(vy) v b.(popFrame).
Definition set_popFrame (b : bubble) v := mkBubble b.(x) b.(y) b.(color) b.(radius) b.(isGrid) b.(vx) b.(vy) b.(isPopping) v.

Definition dist (p1 p2 : bubble) : R :=
  sqrt ((p2.(x) - p1.(x)) ^ 2 + (p2.(y) - p1.(y)) ^ 2).

Definition isCollidingWith (b other : bubble) : bool :=
  Rltb (dist b other) (b.(radius) + other.(radius) - 2).

(** ** Game state (lines 17-25) and the host's frame scheduler *)

(** What [alert] shows at the end of a game. *)
Inductive alert := GameOverAlert (s : Z) | YouWinAlert (s : Z).

Record game := mkGame {
  heap : nat -> bubble;          (* the bubble objects, by identity *)
  next_obj : nat;                (* the next fresh object identity *)
  score : Z;
  cannonAngle : R;
  bubbles : list nat;
  gridBubbles : list nat;
  flyingBubble : option nat;
  animationFrameId : nat;
  pending_frame : option nat;    (* the gameLoop request the host will run *)
  next_frame : nat;              (* the next id requestAnimationFrame returns *)
  rnd : nat -> Q;                (* the successive results of Math.random() *)
  rnd_pos : nat;
  alerts : list alert
}.

Definition set_heap g v := mkGame v g.(next_obj) g.(score) g.(cannonAngle) g.(bubbles) g.(gridBubbles) g.(flyingBubble) g.(animationFrameId) g.(pending_frame) g.(next_frame) g.(rnd) g.(rnd_pos) g.(alerts).
Definition set_next_obj g v := mkGame g.(heap) v g.(score) g.(cannonAngle) g.(bubbles) g.(gridBubbles) g.(flyingBubble) g.(animationFrameId) g.(pending_frame) g.(next_frame) g.(rnd) g.(rnd_pos) g.(alerts).
Definition set_score g v := mkGame g.(heap) g.(next_obj) v g.(cannonAngle) g.(bubbles) g.(gridBubbles) g.(flyingBubble) g.(animationFrameId) g.(pending_frame) g.(next_frame) g.(rnd) g.(rnd_pos) g.(alerts).
Definition set_cannonAngle g v := mkGame g.(heap) g.(next_obj) g.(score) v g.(bubbles) g.(gridBubbles) g.(flyingBubble) g.(animationFrameId) g.(pending_frame) g.(next_frame) g.(rnd) g.(rnd_pos) g.(alerts).
Definition set_bubbles g v := mkGame g.(heap) g.(next_obj) g.(score) g.(cannonAngle) v g.(gridBubbles) g.(flyingBubble) g.(animationFrameId) g.(pending_frame) g.(next_frame) g.(rnd) g.(rnd_pos) g.(alerts).
Definition set_gridBubbles g v := mkGame g.(heap) g.(next_obj) g.(score) g.(cannonAngle) g.(bubbles) v g.(flyingBubble) g.(animationFrameId) g.(pending_frame) g.(next_frame) g.(rnd) g.(rnd_pos) g.(alerts).
Definition set_flyingBubble g v := mkGame g.(heap) g.(next_obj) g.(score) g.(cannonAngle) g.(bubbles) g.(gridBubbles) v g.(animationFrameId) g.(pending_frame) g.(next_frame) g.(rnd) g.(rnd_pos) g.(alerts).
Definition set_animationFrameId g v := mkGame g.(heap) g.(next_obj) g.(score) g.(cannonAngle) g.(bubbles) g.(gridBubbles) g.(flyingBubble) v g.(pending_frame) g.(next_frame) g.(rnd) g.(rnd_pos) g.(alerts).
Definition set_pending_frame g v := mkGame g.(heap) g.(next_obj) g.(score) g.(cannonAngle) g.(bubbles) g.(gridBubbles) g.(flyingBubble) g.(animationFrameId) v g.(next_frame) g.(rnd) g.(rnd_pos) g.(alerts).
Definition set_next_frame g v := mkGame g.(heap) g.(next_obj) g.(score) g.(cannonAngle) g.(bubbles) g.(gridBubbles) g.(flyingBubble) g.(animationFrameId) g.(pending_frame) v g.(rnd) g.(rnd_pos) g.(alerts).
Definition set_rnd g v := mkGame g.(heap) g.(next_obj) g.(score) g.(cannonAngle) g.(bubbles) g.(gridBubbles) g.(flyingBubble) g.(animationFrameId) g.(pending_frame) g.(next_frame) v g.(rnd_pos) g.(alerts).
Definition set_rnd_pos g v := mkGame g.(heap) g.(next_obj) g.(score) g.(cannonAngle) g.(bubbles) g.(gridBubbles) g.(flyingBubble) g.(animationFrameId) g.(pending_frame) g.(next_frame) g.(rnd) v g.(alerts).
Definition set_alerts g v := mkGame g.(heap) g.(next_obj) g.(score) g.(cannonAngle) g.(bubbles) g.(gridBubbles) g.(flyingBubble) g.(animationFrameId) g.(pending_frame) g.(next_frame) g.(rnd) g.(rnd_pos) v.

(** Writing a field of an object: every alias sees the new value. *)
Definition write (g : game) (id : nat) (f : bubble -> bubble) : game :=
  set_heap g (fun j => if Nat.eqb j id then f (g.(heap) id) else g.(heap) j).

(** [new Bubble(...)]: a fresh object identity. *)
Definition alloc (g : game) (b : bubble) : nat * game :=
  let id := g.(next_obj) in
  (id, set_next_obj (set_heap g (fun j => if Nat.eqb j id then b else g.(heap) j)) (S id)).

Definition get (g : game) (id : nat) : bubble := g.(heap) id.

Definition Math_random (g : game) : Q * game :=
  (g.(rnd) g.(rnd_pos), set_rnd_pos g (S g.(rnd_pos))).

(** What [Math.random()] guarantees of each draw: [0 <= r < 1]. *)
Definition valid_draw (r : Q) : bool := Qle_bool 0 r && negb (Qle_bool 1 r).

Definition requestAnimationFrame (g : game) : nat * game :=
  let id := g.(next_frame) in
  (id, set_next_frame (set_pending_frame g (Some id)) (S id)).

Definition cancelAnimationFrame (id : nat) (g : game) : game :=
  match g.(pending_frame) with
  | Some p => if Nat.eqb p id then set_pending_frame g None else g
  | None => g
  end.

(** ** Array helpers *)

Definition mem (b : nat) (l : list nat) : bool := existsb (Nat.eqb b) l.

(** [arr.splice(arr.indexOf(b), 1)] when the index is > -1. *)
Fixpoint remove_first (b : nat) (l : list nat) : list nat :=
  match l with
  | [] => []
  | h :: t => if Nat.eqb h b then t else h :: remove_first b t
  end.

(** [arr.splice(i, 1)]. *)
Definition splice_at (i : nat) (l : list nat) : list nat :=
  firstn i l ++ skipn (S i) l.

(** ** Colors (lines 34-41, 429-435) *)

Definition getAvailableColorsInGrid (g : game) : list string :=
  fold_left (fun colors b =>
               if existsb (String.eqb (get g b).(color)) colors then colors
               else colors ++ [(get g b).(color)])
            g.(gridBubbles) [].

Definition getRandomBubbleColor (g : game) : string * game :=
  let availableColors := getAvailableColorsInGrid g in
  if Nat.ltb 0 (length availableColors) then
    let '(r, g1) := Math_random g in
    (nth (random_index r (length availableColors)) availableColors js_undefined, g1)
  else
    let '(r, g1) := Math_random g in
    (nth (random_index r (length BUBBLE_COLORS)) BUBBLE_COLORS js_undefined, g1).

(** ** Initial grid (lines 183-203) *)

Definition pushBoth (g : game) (id : nat) : game :=
  set_gridBubbles (set_bubbles g (g.(bubbles) ++ [id])) (g.(gridBubbles) ++ [id]).

(** One iteration of the inner loop, for row [r] and column [c]. *)
Definition generateCell (r c : nat) (g : game) : game :=
  let colOffset := BUBBLE_RADIUS in
  let isEvenRow := Nat.even r in
  let startX := if isEvenRow then BUBBLE_RADIUS else BUBBLE_RADIUS + colOffset in
  let x0 := startX + INR c * BUBBLE_DIAMETER in
  let y0 := BUBBLE_RADIUS + INR r * (BUBBLE_DIAMETER * sqrt 3 / 2) in
  if Rltb x0 (CANVAS_WIDTH - BUBBLE_RADIUS) && Rltb y0 (CANVAS_HEIGHT / 2) then
    let '(c0, g1) := getRandomBubbleColor g in
    let '(id, g2) := alloc g1 (newBubble x0 y0 c0 true) in
    pushBoth g2 id
  else g.

Definition generateRow (r : nat) (g : game) : game :=
  fold_left (fun g c => generateCell r c g)
            (seq 0 (GRID_COLS - (if Nat.even r then 0 else 1))) g.

Definition generateInitialGrid (g : game) : game :=
  fold_left (fun g r => generateRow r g) (seq 0 INITIAL_GRID_ROWS) g.

(** ** Input handlers (lines 229-267).  Event coordinates are already in
    the logical 400x600 space. *)

Definition cannonCenterX : R := CANVAS_WIDTH / 2.
Definition cannonCenterY : R := CANVAS_HEIGHT - CANNON_HEIGHT / 2.

Definition handleAim (g : game) (ex ey : R) : game :=
  match g.(flyingBubble) with
  | Some _ => g
  | None =>
      let dx := ex - cannonCenterX in
      let dy := ey - cannonCenterY in
      if Rltb 0 dy then g
      else set_cannonAngle g (atan2 dy dx)
  end.

Definition handleShoot (g : game) : game :=
  match g.(flyingBubble) with
  | Some _ => g
  | None =>
      let a := g.(cannonAngle) in
      let spx := cannonCenterX + cos a * (CANNON_HEIGHT / 2) in
      let spy := cannonCenterY + sin a * (CANNON_HEIGHT / 2) in
      let '(c0, g1) := getRandomBubbleColor g in
      let '(id, g2) := alloc g1 (newBubble spx spy c0 false) in
      let g3 := set_flyingBubble g2 (Some id) in
      let g4 := write g3 id (fun b => set_vx b (cos a * SHOOT_SPEED)) in
      let g5 := write g4 id (fun b => set_vy b (sin a * SHOOT_SPEED)) in
      set_bubbles g5 (g5.(bubbles) ++ [id])
  end.

(** ** Breadth-first traversal (lines 321-342 and 366-386)

    Both traversals of the source keep a queue [q] that is read from index
    [head] and extended at its end; the visited set always holds exactly the
    elements of [q].  They differ only in the test a neighbour must pass. *)

Section BFS.
Variable neighbors : nat -> list nat.
Variable accept : nat -> bool.

(** The inner [for] loop over the neighbours of [current]. *)
Definition bfs_visit (q : list nat) (current : nat) : list nat :=
  fold_left (fun q nb => if negb (mem nb q) && accept nb then q ++ [nb] else q)
            (neighbors current) q.

(** The [while (head < q.length)] loop; [fuel] bounds its iterations. *)
Fixpoint bfs (fuel head : nat) (q : list nat) : list nat :=
  match fuel with
  | O => q
  | S f =>
      match nth_error q head with
      | None => q
      | Some current => bfs f (S head) (bfs_visit q current)
      end
  end.
End BFS.

(** [current.getNeighbors()]: the grid bubbles other than [b] it collides with. *)
Definition getNeighbors (g : game) (b : nat) : list nat :=
  filter (fun gb => negb (Nat.eqb gb b) && isCollidingWith (get g b) (get g gb))
         g.(gridBubbles).

Definition getConnectedSameColorBubbles (g : game) (startBubble : nat) : list nat :=
  bfs (getNeighbors g)
      (fun nb => String.eqb (get g nb).(color) (get g startBubble).(color))
      (S (length g.(gridBubbles))) 0 [startBubble].

(** One iteration of the loop of lines 354-360. *)
Definition popOne (g : game) (b : nat) : game :=
  let g' := write g b (fun bb => set_isPopping bb true) in
  set_gridBubbles g' (remove_first b g'.(gridBubbles)).

Definition popBubbles (g : game) (bubblesToPop : list nat) : game :=
  let g1 := set_score g (g.(score) + Z.of_nat (length bubblesToPop) * POP_SCORE)%Z in
  fold_left popOne bubblesToPop g1.

Definition checkMatches (g : game) (startBubble : nat) : game :=
  let matchingBubbles := getConnectedSameColorBubbles g startBubble in
  if Nat.leb 3 (length matchingBubbles) then popBubbles g matchingBubbles else g.

(** Lines 388-404: the loop [for (i = gridBubbles.length - 1; i >= 0; i--)];
    [i] counts the iterations left, the index read is [i - 1]. *)
Fixpoint dropFloating (connectedToCeiling : list nat) (i : nat) (g : game)
         (fallingBubbles : list nat) : game * list nat :=
  match i with
  | O => (g, fallingBubbles)
  | S i' =>
      match nth_error g.(gridBubbles) i' with
      | None => dropFloating connectedToCeiling i' g fallingBubbles
      | Some b =>
          if mem b connectedToCeiling then
            dropFloating connectedToCeiling i' g fallingBubbles
          else
            let g1 := set_gridBubbles g (splice_at i' g.(gridBubbles)) in
            let g2 := set_bubbles g1 (remove_first b g1.(bubbles)) in
            let g3 := write g2 b (fun bb => set_isGrid bb false) in
            let g4 := write g3 b (fun bb => set_vy bb 5) in
            let g5 := set_score g4 (g4.(score) + 5)%Z in
            dropFloating connectedToCeiling i' g5 (fallingBubbles ++ [b])
      end
  end.

(** Lines 370-375: the bubbles the ceiling traversal starts from. *)
Definition ceilingSeeds (g : game) : list nat :=
  filter (fun b => Rleb (get g b).(y) (BUBBLE_RADIUS * 2)) g.(gridBubbles).

Definition checkFloatingBubbles (g : game) : game :=
  let q := ceilingSeeds g in
  let connectedToCeiling :=
    bfs (getNeighbors g) (fun _ => true)
        (length q + length g.(gridBubbles)) 0 q in
  let '(g1, fallingBubbles) :=
    dropFloating connectedToCeiling (length g.(gridBubbles)) g [] in
  set_bubbles g1 (g1.(bubbles) ++ fallingBubbles).

Definition checkGameOver (g : game) : game :=
  if existsb (fun b => Rltb (CANVAS_HEIGHT - CANNON_HEIGHT - BUBBLE_RADIUS * 2)
                            ((get g b).(y) + (get g b).(radius)))
             g.(gridBubbles)
  then cancelAnimationFrame g.(animationFrameId)
         (set_alerts g (g.(alerts) ++ [GameOverAlert g.(score)]))
  else if match g.(gridBubbles), g.(flyingBubble) with [], None => true | _, _ => false end
  then cancelAnimationFrame g.(animationFrameId)
         (set_alerts g (g.(alerts) ++ [YouWinAlert g.(score)]))
  else g.

(** ** Game logic (lines 271-311) *)

(** Lines 274-275. *)
Definition moveStep (b : bubble) : bubble :=
  set_y (set_x b (b.(x) + b.(vx))) (b.(y) + b.(vy)).

(** Lines 277-283. *)
Definition wallStep (b : bubble) : bubble :=
  if Rltb (b.(x) - b.(radius)) 0 || Rltb CANVAS_WIDTH (b.(x) + b.(radius)) then
    let b1 := set_vx b (b.(vx) * -1) in
    let b2 := if Rltb (b1.(x) - b1.(radius)) 0 then set_x b1 b1.(radius) else b1 in
    if Rltb CANVAS_WIDTH (b2.(x) + b2.(radius))
    then set_x b2 (CANVAS_WIDTH - b2.(radius)) else b2
  else b.

Definition collisionWithGrid (g : game) (f : nat) : bool :=
  existsb (fun gb => isCollidingWith (get g f) (get g gb)) g.(gridBubbles).

Definition snapBubbleToGrid (g : game) (b : nat) : game :=
  let snapped := getGridPosition (get g b).(x) (get g b).(y) in
  write (write g b (fun bb => set_x bb snapped.(gp_x))) b
        (fun bb => set_y bb snapped.(gp_y)).

(** Lines 287-293: the settle of the flying bubble [f]. *)
Definition settle (g : game) (f : nat) : game :=
  let g1 := write g f (fun bb => set_isGrid bb true) in
  let g2 := snapBubbleToGrid g1 f in
  let g3 := set_gridBubbles g2 (g2.(gridBubbles) ++ [f]) in
  let g4 := checkMatches g3 f in
  let g5 := set_flyingBubble g4 None in
  let g6 := checkFloatingBubbles g5 in
  checkGameOver g6.

Definition updateGame (g : game) : game :=
  match g.(flyingBubble) with
  | None => g
  | Some f =>
      let g1 := write g f (fun bb => wallStep (moveStep bb)) in
      if Rltb ((get g1 f).(y) - (get g1 f).(radius)) 0 || collisionWithGrid g1 f
      then settle g1 f
      else g1
  end.

(** ** Drawing (lines 465-487): only [drawBubbles] changes the state, through
    [Bubble.draw] advancing the pop animation and the [filter]. *)
Fixpoint drawFilter (l : list nat) (g : game) : list nat * game :=
  match l with
  | [] => ([], g)
  | b :: t =>
      if (get g b).(isPopping) then
        let g1 := write g b (fun bb => set_popFrame bb (S bb.(popFrame))) in
        let keep := negb (Nat.leb 10 (get g1 b).(popFrame)) in
        let '(rest, g2) := drawFilter t g1 in
        (if keep then b :: rest else rest, g2)
      else
        let '(rest, g2) := drawFilter t g in
        (b :: rest, g2)
  end.

Definition drawBubbles (g : game) : game :=
  let '(l, g1) := drawFilter g.(bubbles) g in set_bubbles g1 l.

Definition drawGame (g : game) : game := drawBubbles g.

(** ** Game loop (lines 129-154, 490-494) *)

Definition gameLoop (g : game) : game :=
  let g1 := updateGame g in
  let g2 := drawGame g1 in
  let '(id, g3) := requestAnimationFrame g2 in
  set_animationFrameId g3 id.

(** The host runs the pending [requestAnimationFrame] callback, if any. *)
Definition runFrame (g : game) : game :=
  match g.(pending_frame) with
  | Some _ => gameLoop (set_pending_frame g None)
  | None => g
  end.

Definition emptyBubble : bubble := newBubble 0 0 js_undefined false.

Definition initGame (draws : nat -> Q) : game :=
  let g0 := mkGame (fun _ => emptyBubble) 0 0%Z 0 [] [] None 0 None 0 draws 0 [] in
  let g1 := generateInitialGrid g0 in
  let '(id, g2) := requestAnimationFrame g1 in
  set_animationFrameId g2 id.

(** ** Sample inputs *)

Definition sample_bubble : bubble :=
  mkBubble 25 300 "red"%string BUBBLE_RADIUS false (-10) (-8) false 0.

Definition half_draws : nat -> Q := fun _ => (1 # 2)%Q.

Definition sample_game : game :=
  mkGame (fun _ => emptyBubble) 2 0%Z 0 [0; 1]%nat [0; 1]%nat None 0 None 0
         half_draws 0 [].

(** A grid holding one bubble, at the center of cell (row 1, col 0). *)
Definition row1_game : game :=
  mkGame (fun j => if Nat.eqb j 0 then
                     newBubble (BUBBLE_RADIUS + BUBBLE_RADIUS) (BUBBLE_RADIUS + rowHeight)
                               "blue"%string true
                   else emptyBubble)
         1 0%Z 0 [0]%nat [0]%nat None 0 None 0 half_draws 0 [].

(** A grid bubble whose lower edge is below the loss line. *)
Definition lost_game : game :=
  mkGame (fun j => if Nat.eqb j 0 then newBubble 200 510 "red"%string true
                   else emptyBubble)
         1 0%Z 0 [0]%nat [0]%nat None 0 None 0 half_draws 0 [].




(** ** Predicates and states the proofs refer to *)




(** The same-color adjacency the match pass follows from the seed [s]. *)
Definition sameColorEdge (g : game) (s u v : nat) : Prop :=
  In v (getNeighbors g u) /\ (get g v).(color) = (get g s).(color).

(** The invariant of the initial-grid loop. *)
Definition initGridInv (g : game) : Prop :=
  (forall k, valid_draw (g.(rnd) k) = true) /\
  (forall b, In b g.(gridBubbles) -> (b < g.(next_obj))%nat) /\
  (forall b1 b2, In b1 g.(gridBubbles) -> In b2 g.(gridBubbles) ->
                 (get g b1).(color) = (get g b2).(color)).

(** [g'] moves no bubble of [g] and its grid is a part of the grid of [g]. *)
Definition keepsPlaces (g g' : game) : Prop :=
  (forall b, (get g' b).(x) = (get g b).(x) /\ (get g' b).(y) = (get g b).(y)) /\
  incl g'.(gridBubbles) g.(gridBubbles).

(** ** Runs of the game

    The host delivers animation frames, mouse moves and clicks; a run starts
    at [initGame] and handles a list of these events in order. *)

Inductive event := Tick | Aim (ex ey : R) | Shoot.

Definition step (g : game) (e : event) : game :=
  match e with
  | Tick => runFrame g
  | Aim ex ey => handleAim g ex ey
  | Shoot => handleShoot g
  end.

Definition run (draws : nat -> Q) (es : list event) : game :=
  fold_left step es (initGame draws).

(** A bubble sits at the center its own position snaps to. *)
Definition centred (b : bubble) : Prop :=
  let p := getGridPosition b.(x) b.(y) in p.(gp_x) = b.(x) /\ p.(gp_y) = b.(y).

(** Grid members are allocated and centred; the flying bubble is allocated
    and is not a grid member. *)
Definition gridInv (g : game) : Prop :=
  (forall b, In b g.(gridBubbles) -> (b < g.(next_obj))%nat /\ centred (get g b)) /\
  (forall f, g.(flyingBubble) = Some f -> (f < g.(next_obj))%nat /\ ~ In f g.(gridBubbles)).

(** [g'] keeps the allocation counter and the flying bubble of [g]. *)
Definition keepsMeta (g g' : game) : Prop :=
  g'.(next_obj) = g.(next_obj) /\ g'.(flyingBubble) = g.(flyingBubble).

(** ** Canvas size, pointer coordinates and aiming (lines 11, 156-179,
    206-226, 439-463) *)

Definition AIM_LINE_LENGTH : R := 150.

(** [resizeCanvas]: the CSS size [(width, height)] given to the canvas for a
    window of [innerWidth] x [innerHeight]; the drawing buffer is always
    [CANVAS_WIDTH] x [CANVAS_HEIGHT] (lines 173-174). *)
Definition resizeCanvas (innerWidth innerHeight : R) : R * R :=
  let aspectRatio := CANVAS_WIDTH / CANVAS_HEIGHT in
  if Rltb aspectRatio (innerWidth / innerHeight)
  then (innerHeight * aspectRatio, innerHeight)
  else (innerWidth, innerWidth / aspectRatio).

Record touchPoint := mkTouch { touch_clientX : R; touch_clientY : R }.

(** A mouse or touch event; [touches] is absent on mouse events. *)
Record inputEvent := mkInputEvent {
  touches : option (list touchPoint); clientX : R; clientY : R
}.

(** What [canvas.getBoundingClientRect()] returns. *)
Record domRect := mkDomRect {
  rect_left : R; rect_top : R; rect_width : R; rect_height : R
}.

(** [getEventCoords], with [canvas.width] and [canvas.height] as
    [resizeCanvas] sets them. *)
Definition getEventCoords (event : inputEvent) (rect : domRect) : R * R :=
  let '(cX, cY) :=
    match event.(touches) with
    | Some (t :: _) => (t.(touch_clientX), t.(touch_clientY))
    | _ => (event.(clientX), event.(clientY))
    end in
  let scaleX := CANVAS_WIDTH / rect.(rect_width) in
  let scaleY := CANVAS_HEIGHT / rect.(rect_height) in
  ((cX - rect.(rect_left)) * scaleX, (cY - rect.(rect_top)) * scaleY).

(** [ctx.rotate(t)]: the image of a point of the rotated drawing space. *)
Definition canvas_rotate (t : R) (p : R * R) : R * R :=
  (fst p * cos t - snd p * sin t, fst p * sin t + snd p * cos t).

(** [drawCannon]: the translation and the rotation applied before the barrel
    rectangle is filled at [(-CANNON_WIDTH / 2, -CANNON_HEIGHT / 2)]. *)
Definition drawCannon (g : game) : (R * R) * R :=
  ((cannonCenterX, cannonCenterY), g.(cannonAngle) + PI / 2).

(** [drawAimLine]: the segment it strokes, from its [moveTo] point to its
    [lineTo] point, if it draws one. *)
Definition drawAimLine (g : game) : option ((R * R) * (R * R)) :=
  match g.(flyingBubble) with
  | Some _ => None
  | None =>
      let aimEndX := cannonCenterX + cos g.(cannonAngle) * AIM_LINE_LENGTH in
      let aimEndY := cannonCenterY + sin g.(cannonAngle) * AIM_LINE_LENGTH in
      Some ((cannonCenterX, cannonCenterY), (aimEndX, aimEndY))
  end.

(** ** More invariants *)

(** [g'] keeps the aim and the radius of every bubble of [g], and does not
    lower the score. *)
Definition keepsShape (g g' : game) : Prop :=
  g'.(cannonAngle) = g.(cannonAngle) /\ Z.le g.(score) g'.(score) /\
  (forall b, (get g' b).(radius) = (get g b).(radius)).

(** What every state of a run keeps besides [gridInv]. *)
Definition runInv (g : game) : Prop :=
  gridInv g /\ NoDup g.(gridBubbles) /\
  (forall b, (get g b).(radius) = BUBBLE_RADIUS) /\
  sin g.(cannonAngle) <= 0 /\
  (forall f, g.(flyingBubble) = Some f -> (get g f).(vy) <= 0).

(** Lines 400-401: what the gravity pass writes to a dropped bubble. *)
Definition dropBubble (bb : bubble) : bubble := set_vy (set_isGrid bb false) 5.

(** A grid whose members all sit at their cell centres and have radius 20. *)
Definition centredGrid (g : game) : Prop :=
  forall b, In b g.(gridBubbles) -> centred (get g b) /\ (get g b).(radius) = BUBBLE_RADIUS.

(** No two grid members share a position. *)
Definition distinctPos (g : game) : Prop :=
  forall b o, In b g.(gridBubbles) -> In o g.(gridBubbles) -> b <> o ->
  (get g b).(x) <> (get g o).(x) \/ (get g b).(y) <> (get g o).(y).

(** What a flight keeps: the speed of the shot, its [x] between the walls, and
    no collision with a grid member (else it would have settled). *)
Definition flightInv (g : game) : Prop :=
  match g.(flyingBubble) with
  | Some f =>
      let b := get g f in
      b.(vx) ^ 2 + b.(vy) ^ 2 = SHOOT_SPEED ^ 2 /\
      BUBBLE_RADIUS <= b.(x) <= CANVAS_WIDTH - BUBBLE_RADIUS /\
      Forall (fun o => isCollidingWith b (get g o) = false) g.(gridBubbles)
  | None => True
  end.

(** Every grid member lies in the upper half of the canvas. *)
Definition gridLow (g : game) : Prop :=
  Forall (fun b => (get g b).(y) <= CANVAS_HEIGHT / 2) g.(gridBubbles).

(** What every state of a run keeps about where grid members and the shot are. *)
Definition occInv (g : game) : Prop :=
  runInv g /\ distinctPos g /\ gridLow g /\ flightInv g.

(** Some grid member lies within the top row band, at most 40 px down. *)
Definition anchored (g : game) : Prop :=
  exists b, In b g.(gridBubbles) /\ (get g b).(y) <= BUBBLE_RADIUS * 2.

(** No alert has been raised and some grid member lies in the top row band. *)
Definition quietInv (g : game) : Prop := occInv g /\ anchored g /\ g.(alerts) = [].

(** The cell centre [generateCell r c] computes. *)
Definition cellX (r c : nat) : R :=
  (if Nat.even r then BUBBLE_RADIUS else BUBBLE_RADIUS + BUBBLE_RADIUS)
  + INR c * BUBBLE_DIAMETER.
Definition cellY (r : nat) : R :=
  BUBBLE_RADIUS + INR r * (BUBBLE_DIAMETER * sqrt 3 / 2).

(** Every grid member comes before cell [(r, c)] in the order of generation. *)
Definition genBefore (r c : nat) (g : game) : Prop :=
  forall b, In b g.(gridBubbles) ->
  (get g b).(y) < cellY r \/ ((get g b).(y) = cellY r /\ (get g b).(x) < cellX r c).

(** Three red bubbles at the centres of cells (0, 0), (0, 1) and (0, 2). *)
Definition row0_game : game :=
  mkGame (fun j => if Nat.eqb j 0 then newBubble 20 20 "red"%string true
                   else if Nat.eqb j 1 then newBubble 60 20 "red"%string true
                   else if Nat.eqb j 2 then newBubble 100 20 "red"%string true
                   else emptyBubble)
         3 0%Z 0 [0; 1; 2]%nat [0; 1; 2]%nat None 0 None 0 half_draws 0 [].

(** Bubble 0 pops at frame 9, bubble 1 at frame 3, bubble 2 is not popping. *)
Definition pop_game : game :=
  mkGame (fun j => if Nat.eqb j 0 then set_popFrame (set_isPopping emptyBubble true) 9
                   else if Nat.eqb j 1 then set_popFrame (set_isPopping emptyBubble true) 3
                   else emptyBubble)
         3 0%Z 0 [0; 1; 2]%nat [] None 0 None 0 half_draws 0 [].

(** * Proofs *)

Ltac unfold_setters :=
  unfold set_heap, set_next_obj, set_score, set_cannonAngle, set_bubbles,
    set_gridBubbles, set_flyingBubble, set_animationFrameId, set_pending_frame,
    set_next_frame, set_rnd, set_rnd_pos, set_alerts; simpl.

(** ** Geometry *)

Lemma js_round_IZR (z : Z) : js_round (IZR z) = z.
Proof.
  unfold js_round, Int_part.
  rewrite <- (up_tech (IZR z + / 2) z); [lia | lra |].
  rewrite plus_IZR; lra.
Qed.

Lemma sqrt3_pos : 0 < sqrt 3.
Proof. apply sqrt_lt_R0; lra. Qed.

Lemma rowHeight_pos : 0 < rowHeight.
Proof.
  unfold rowHeight, BUBBLE_DIAMETER, BUBBLE_RADIUS.
  pose proof sqrt3_pos; lra.
Qed.

(** A cell center snaps to itself. *)
Lemma getGridPosition_center (r c : Z) :
  getGridPosition
    (BUBBLE_RADIUS + IZR c * BUBBLE_DIAMETER + IZR (Z.rem r 2) * BUBBLE_RADIUS)
    (BUBBLE_RADIUS + IZR r * rowHeight)
  = mkGridPosition
      (BUBBLE_RADIUS + IZR c * BUBBLE_DIAMETER + IZR (Z.rem r 2) * BUBBLE_RADIUS)
      (BUBBLE_RADIUS + IZR r * rowHeight) r c.
Proof.
  pose proof rowHeight_pos as Hh.
  unfold getGridPosition; cbv zeta.
  replace ((BUBBLE_RADIUS + IZR r * rowHeight - BUBBLE_RADIUS) / rowHeight)
    with (IZR r) by (field; lra).
  rewrite js_round_IZR.
  replace ((BUBBLE_RADIUS + IZR c * BUBBLE_DIAMETER + IZR (Z.rem r 2) * BUBBLE_RADIUS
            - BUBBLE_RADIUS - IZR (Z.rem r 2) * BUBBLE_RADIUS) / BUBBLE_DIAMETER)
    with (IZR c) by (unfold BUBBLE_DIAMETER, BUBBLE_RADIUS; field).
  rewrite js_round_IZR.
  reflexivity.
Qed.

(** The center returned by a snap is a cell center. *)
Lemma getGridPosition_shape (x0 y0 : R) :
  let p := getGridPosition x0 y0 in
  p = mkGridPosition
        (BUBBLE_RADIUS + IZR p.(gp_col) * BUBBLE_DIAMETER
         + IZR (Z.rem p.(gp_row) 2) * BUBBLE_RADIUS)
        (BUBBLE_RADIUS + IZR p.(gp_row) * rowHeight) p.(gp_row) p.(gp_col).
Proof. reflexivity. Qed.

(** Claim C8: the hex-grid snap is idempotent, for every point: snapping the
    returned center gives back the same (row, col) and the same center. *)
Theorem getGridPosition_idempotent (x0 y0 : R) :
  let p := getGridPosition x0 y0 in
  let p' := getGridPosition p.(gp_x) p.(gp_y) in
  p'.(gp_row) = p.(gp_row) /\ p'.(gp_col) = p.(gp_col) /\
  p'.(gp_x) = p.(gp_x) /\ p'.(gp_y) = p.(gp_y).
Proof.
  cbv zeta.
  rewrite (getGridPosition_shape x0 y0); cbn [gp_x gp_y gp_row gp_col].
  rewrite getGridPosition_center; cbn [gp_x gp_y gp_row gp_col].
  repeat split.
Qed.

(** ** Wall reflection *)

(** Claim C7: when the flying bubble, advanced by its velocity, sticks out of
    [0, CANVAS_WIDTH], the wall step negates vx (same magnitude) and clamps x
    into [radius, CANVAS_WIDTH - radius]. *)
Theorem wallStep_reflects (b : bubble) (Hr : b.(radius) = BUBBLE_RADIUS) :
  let a := moveStep b in
  (a.(x) - a.(radius) < 0 \/ CANVAS_WIDTH < a.(x) + a.(radius)) ->
  let w := wallStep a in
  w.(vx) = - b.(vx) /\ Rabs w.(vx) = Rabs b.(vx) /\
  w.(radius) <= w.(x) <= CANVAS_WIDTH - w.(radius).
Proof.
  cbv zeta; intros Hout.
  destruct b as [bx0 by0 c r g bvx bvy p f]; simpl in Hr; subst r.
  unfold wallStep, moveStep, Rltb in *; cbn in *.
  unfold CANVAS_WIDTH, BUBBLE_RADIUS in *.
  repeat (destruct (Rlt_dec _ _); cbn in *); try lra;
    (split; [lra | split; [rewrite <- Rabs_Ropp; f_equal; lra | lra]]).
Qed.

(** ** Breadth-first traversal *)

Lemma mem_In (b : nat) (l : list nat) : mem b l = true <-> In b l.
Proof.
  unfold mem; rewrite existsb_exists; split.
  - intros (z & Hz & E); apply Nat.eqb_eq in E; subst; exact Hz.
  - intros H; exists b; split; [exact H | apply Nat.eqb_refl].
Qed.

Section BFSProofs.
Variable neighbors : nat -> list nat.
Variable accept : nat -> bool.
Local Open Scope nat_scope.

Let edge (u v : nat) : Prop := In v (neighbors u) /\ accept v = true.

Let visit_step (q : list nat) (nb : nat) : list nat :=
  if negb (mem nb q) && accept nb then q ++ [nb] else q.

Lemma visit_fold_prefix (l q : list nat) :
  exists ext, fold_left visit_step l q = q ++ ext.
Proof.
  revert q; induction l as [|a l IH]; intros q; simpl.
  - exists []; now rewrite app_nil_r.
  - destruct (IH (visit_step q a)) as [e He]; rewrite He.
    unfold visit_step; destruct (negb (mem a q) && accept a).
    + exists (a :: e); now rewrite <- app_assoc.
    + now exists e.
Qed.

Lemma visit_fold_In (l q : list nat) (z : nat) :
  In z (fold_left visit_step l q) <-> In z q \/ (In z l /\ accept z = true).
Proof.
  revert q; induction l as [|a l IH]; intros q; simpl.
  - tauto.
  - rewrite IH; unfold visit_step.
    destruct (mem a q) eqn:Em; destruct (accept a) eqn:Ea; simpl;
      try rewrite in_app_iff; simpl.
    + apply mem_In in Em. split; [tauto|].
      intros [H | [[<- | H] Hz]]; tauto.
    + split; [tauto|]. intros [H | [[<- | H] Hz]]; [tauto | congruence | tauto].
    + split; [intros [[H | [<- | []]] | H]; tauto|].
      intros [H | [[<- | H] Hz]]; tauto.
    + split; [tauto|]. intros [H | [[<- | H] Hz]]; [tauto | congruence | tauto].
Qed.

Lemma visit_fold_NoDup (l q : list nat) :
  NoDup q -> NoDup (fold_left visit_step l q).
Proof.
  revert q; induction l as [|a l IH]; intros q Hq; simpl; [exact Hq|].
  apply IH; unfold visit_step.
  destruct (mem a q) eqn:Em; simpl; [exact Hq|].
  destruct (accept a); [|exact Hq].
  apply NoDup_app; [exact Hq | repeat constructor; simpl; tauto |].
  intros z Hz [Heq | []]; subst z. apply (proj2 (mem_In a q)) in Hz. congruence.
Qed.

Lemma bfs_visit_In (q : list nat) (cur z : nat) :
  In z (bfs_visit neighbors accept q cur) <-> In z q \/ edge cur z.
Proof. apply visit_fold_In. Qed.

Lemma bfs_visit_prefix (q : list nat) (cur : nat) :
  exists ext, bfs_visit neighbors accept q cur = q ++ ext.
Proof. apply visit_fold_prefix. Qed.

Lemma bfs_NoDup (fuel head : nat) (q : list nat) :
  NoDup q -> NoDup (bfs neighbors accept fuel head q).
Proof.
  revert head q; induction fuel as [|f IH]; intros head q Hq; simpl; [exact Hq|].
  destruct (nth_error q head); [|exact Hq].
  apply IH, visit_fold_NoDup, Hq.
Qed.

(** Everything the traversal collects satisfies any property that holds on
    the start queue and is carried along accepted edges. *)
Lemma bfs_sound (P : nat -> Prop) (fuel head : nat) (q : list nat) :
  (forall z, In z q -> P z) ->
  (forall u v, P u -> edge u v -> P v) ->
  forall z, In z (bfs neighbors accept fuel head q) -> P z.
Proof.
  intros Hq Hstep; revert head q Hq.
  induction fuel as [|f IH]; intros head q Hq; simpl; [exact Hq|].
  destruct (nth_error q head) as [cur|] eqn:E; [|exact Hq].
  apply IH. intros z Hz. apply bfs_visit_In in Hz as [Hz | Hz]; [now apply Hq|].
  apply (Hstep cur); [apply Hq; eapply nth_error_In; eauto | exact Hz].
Qed.

Definition processed (q : list nat) (head : nat) : Prop :=
  forall i u v, i < head -> nth_error q i = Some u -> edge u v -> In v q.

Definition closed (r : list nat) : Prop :=
  forall u v, In u r -> edge u v -> In v r.

Lemma processed_closed (q : list nat) (head : nat) :
  length q <= head -> processed q head -> closed q.
Proof.
  intros Hl Hp u v Hu He.
  destruct (In_nth_error _ _ Hu) as [i Hi].
  apply (Hp i u v); [|exact Hi|exact He].
  assert (i < length q) by (apply nth_error_Some; congruence). lia.
Qed.

(** With enough fuel the traversal stops on a queue closed under the
    accepted edges. *)
Lemma bfs_closed (W : list nat) :
  (forall u, incl (neighbors u) W) ->
  forall fuel head q,
    incl q W -> NoDup q -> head <= length q -> processed q head ->
    length W <= fuel + head ->
    closed (bfs neighbors accept fuel head q) /\
    incl q (bfs neighbors accept fuel head q).
Proof.
  intros HW fuel; induction fuel as [|f IH]; intros head q Hinc Hnd Hh Hp Hf; simpl.
  - split; [|apply incl_refl].
    apply (processed_closed q head); [|exact Hp].
    pose proof (NoDup_incl_length Hnd Hinc); lia.
  - destruct (nth_error q head) as [cur|] eqn:E.
    + destruct (bfs_visit_prefix q cur) as [ext Hext].
      assert (Hlt : head < length q) by (apply nth_error_Some; congruence).
      destruct (IH (S head) (bfs_visit neighbors accept q cur)) as [Hc Hi].
      * intros z Hz; apply bfs_visit_In in Hz as [Hz | [Hz _]];
          [now apply Hinc | now apply (HW cur)].
      * apply visit_fold_NoDup, Hnd.
      * rewrite Hext, length_app; lia.
      * intros i u v Hi Hu Hv. rewrite Hext in Hu.
        rewrite nth_error_app1 in Hu by lia.
        apply bfs_visit_In.
        destruct (Nat.eq_dec i head) as [-> | Hne].
        -- rewrite E in Hu; injection Hu as <-; now right.
        -- left; apply (Hp i u v); [lia | exact Hu | exact Hv].
      * lia.
      * split; [exact Hc|].
        intros z Hz; apply Hi, bfs_visit_In; now left.
    + split; [|apply incl_refl].
      apply (processed_closed q head); [|exact Hp].
      now apply nth_error_None.
Qed.

Lemma closed_reach (r : list nat) (u v : nat) :
  closed r -> In u r -> clos_refl_trans_1n nat edge u v -> In v r.
Proof.
  intros Hc Hu Hr; induction Hr as [|a b c Hab _ IH]; [exact Hu|].
  apply IH, (Hc a b Hu Hab).
Qed.

(** The traversal from [q0] with enough fuel collects exactly the nodes
    reachable from [q0] along accepted edges. *)
Lemma bfs_reach (W q0 : list nat) (fuel : nat) :
  (forall u, incl (neighbors u) W) -> incl q0 W -> NoDup q0 ->
  length W <= fuel ->
  forall z, In z (bfs neighbors accept fuel 0 q0) <->
            exists s, In s q0 /\ clos_refl_trans_1n nat edge s z.
Proof.
  intros HW Hq0 Hnd Hf z; split.
  - intros Hz.
    apply (bfs_sound (fun z => exists s, In s q0 /\ clos_refl_trans_1n nat edge s z)
                     fuel 0 q0); [| | exact Hz].
    + intros w Hw; exists w; split; [exact Hw | constructor].
    + intros u v (s & Hs & Hsu) Huv; exists s; split; [exact Hs|].
      apply clos_rt_rt1n, rt_trans with u; [now apply clos_rt1n_rt|].
      now apply rt_step.
  - intros (s & Hs & Hsz).
    destruct (bfs_closed W HW fuel 0 q0 Hq0 Hnd) as [Hc Hi];
      [lia | intros i; lia | lia |].
    apply (closed_reach _ s z Hc (Hi s Hs) Hsz).
Qed.
End BFSProofs.

(** ** Match pass *)

Lemma remove_first_In (b z : nat) (l : list nat) :
  NoDup l -> In z (remove_first b l) <-> In z l /\ z <> b.
Proof.
  induction l as [|h t IH]; intros Hnd; simpl; [tauto|].
  inversion Hnd as [|h' t' Hh Ht]; subst.
  destruct (Nat.eqb h b) eqn:E.
  - apply Nat.eqb_eq in E; subst h. split.
    + intros Hz; split; [now right | intros ->; contradiction].
    + intros [[-> | Hz] Hne]; [congruence | exact Hz].
  - apply Nat.eqb_neq in E. simpl; rewrite IH by exact Ht.
    split; [intros [-> | [Hz Hne]]; [split; [now left | exact E] | tauto] | tauto].
Qed.

Lemma remove_first_NoDup (b : nat) (l : list nat) :
  NoDup l -> NoDup (remove_first b l).
Proof.
  induction l as [|h t IH]; intros Hnd; simpl; [constructor|].
  inversion Hnd as [|h' t' Hh Ht]; subst.
  destruct (Nat.eqb h b); [exact Ht|].
  constructor; [|now apply IH].
  intros Hin; apply Hh, (proj1 (remove_first_In b h t Ht) Hin).
Qed.

Lemma write_get (g : game) (id j : nat) (f : bubble -> bubble) :
  get (write g id f) j = if Nat.eqb j id then f (get g id) else get g j.
Proof. reflexivity. Qed.

Lemma popLoop_grid (l : list nat) (g : game) :
  NoDup g.(gridBubbles) ->
  NoDup (fold_left popOne l g).(gridBubbles) /\
  forall z, In z (fold_left popOne l g).(gridBubbles) <->
            In z g.(gridBubbles) /\ ~ In z l.
Proof.
  revert g; induction l as [|b l IH]; intros g Hnd; simpl.
  - split; [exact Hnd | tauto].
  - destruct (IH (popOne g b)) as [H1 H2].
    { apply remove_first_NoDup, Hnd. }
    split; [exact H1|]. intros z; rewrite H2.
    unfold popOne; cbn. rewrite remove_first_In by exact Hnd.
    split; [intros [[Hz Hne] Hl]; split; [exact Hz | intros [-> | H]; tauto]|].
    intros [Hz Hn]; repeat split; [exact Hz | intros ->; apply Hn; now left |].
    intros H; apply Hn; now right.
Qed.

Lemma popLoop_isPopping (l : list nat) (g : game) (z : nat) :
  In z l \/ (get g z).(isPopping) = true ->
  (get (fold_left popOne l g) z).(isPopping) = true.
Proof.
  revert g; induction l as [|b l IH]; intros g Hz; simpl.
  - destruct Hz as [[] | Hz]; exact Hz.
  - apply IH. unfold popOne, get; cbn.
    destruct (Nat.eqb z b) eqn:E; [right; reflexivity|].
    apply Nat.eqb_neq in E. destruct Hz as [[-> | Hz] | Hz]; tauto.
Qed.

Lemma popLoop_score (l : list nat) (g : game) :
  (fold_left popOne l g).(score) = g.(score).
Proof.
  revert g; induction l as [|b l IH]; intros g; simpl; [reflexivity|].
  rewrite IH; reflexivity.
Qed.

Lemma getNeighbors_incl (g : game) (u : nat) :
  incl (getNeighbors g u) g.(gridBubbles).
Proof. intros z Hz; unfold getNeighbors in Hz; now apply filter_In in Hz. Qed.

Lemma crt_iff (A : Type) (R1 R2 : A -> A -> Prop) (a b : A) :
  (forall u v, R1 u v <-> R2 u v) ->
  clos_refl_trans_1n A R1 a b <-> clos_refl_trans_1n A R2 a b.
Proof.
  intros H; split; intros Hr; induction Hr as [|u v w Huv _ IH].
  all: try apply rt1n_refl.
  all: eapply Relation_Operators.rt1n_trans; [apply H; exact Huv | exact IH].
Qed.

Lemma getConnectedSameColorBubbles_component (g : game) (s : nat) :
  (forall b, In b (getConnectedSameColorBubbles g s) <->
             clos_refl_trans_1n nat (sameColorEdge g s) s b) /\
  NoDup (getConnectedSameColorBubbles g s).
Proof.
  split.
  - intros b. unfold getConnectedSameColorBubbles.
    rewrite (bfs_reach _ _ (s :: g.(gridBubbles)) [s]).
    + split.
      * intros (s' & [<- | []] & Hr). revert Hr; apply crt_iff.
        intros u v; unfold sameColorEdge; now rewrite String.eqb_eq.
      * intros Hr; exists s; split; [now left|]. revert Hr; apply crt_iff.
        intros u v; unfold sameColorEdge; now rewrite String.eqb_eq.
    + intros u z Hz; right; now apply (getNeighbors_incl g u).
    + intros z [<- | []]; now left.
    + repeat constructor; simpl; tauto.
    + simpl; lia.
  - apply bfs_NoDup; repeat constructor; simpl; tauto.
Qed.

(** Claim C1: the match pass computes the same-color component of the seed
    over the neighbour relation of the grid; if it has at least 3 members
    they all leave the grid, are marked popping, and the score grows by
    exactly size * POP_SCORE; otherwise the state is unchanged. *)
Theorem checkMatches_spec (g : game) (s : nat) (Hnd : NoDup g.(gridBubbles)) :
  let comp := getConnectedSameColorBubbles g s in
  let g' := checkMatches g s in
  (forall b, In b comp <-> clos_refl_trans_1n nat (sameColorEdge g s) s b) /\
  NoDup comp /\
  ((3 <= length comp)%nat ->
     g'.(score) = (g.(score) + Z.of_nat (length comp) * POP_SCORE)%Z /\
     (forall b, In b g'.(gridBubbles) <-> In b g.(gridBubbles) /\ ~ In b comp) /\
     (forall b, In b comp -> (get g' b).(isPopping) = true)) /\
  ((length comp < 3)%nat -> g' = g).
Proof.
  cbv zeta.
  destruct (getConnectedSameColorBubbles_component g s) as [Hc Hn].
  split; [exact Hc|]. split; [exact Hn|].
  unfold checkMatches. split; intros Hlen.
  - apply Nat.leb_le in Hlen as Hb; rewrite Hb. unfold popBubbles.
    set (comp := getConnectedSameColorBubbles g s) in *.
    set (g1 := set_score g _).
    destruct (popLoop_grid comp g1) as [_ Hg]; [exact Hnd|].
    split; [rewrite popLoop_score; reflexivity|].
    split; [exact Hg|].
    intros b Hb'; apply popLoop_isPopping; now left.
  - assert (Hb : Nat.leb 3 (length (getConnectedSameColorBubbles g s)) = false)
      by (apply Nat.leb_gt; lia).
    now rewrite Hb.
Qed.

(** ** Color selection *)

Lemma valid_draw_iff (r : Q) : valid_draw r = true <-> (0 <= r /\ r < 1)%Q.
Proof.
  unfold valid_draw; rewrite andb_true_iff, negb_true_iff, Qle_bool_iff.
  split; intros [H1 H2]; split; try exact H1.
  - apply Qnot_le_lt; intros H; rewrite <- Qle_bool_iff in H; congruence.
  - destruct (Qle_bool 1 r) eqn:E; [|reflexivity].
    apply Qle_bool_iff in E; exfalso; apply (Qlt_not_le _ _ H2 E).
Qed.

Lemma random_index_lt (r : Q) (n : nat) :
  valid_draw r = true -> (0 < n)%nat -> (random_index r n < n)%nat.
Proof.
  intros Hr Hn; apply valid_draw_iff in Hr as [H0 H1].
  unfold random_index.
  set (m := inject_Z (Z.of_nat n)).
  assert (Hm : (0 < m)%Q) by (unfold m, Qlt; simpl; lia).
  assert (Hlt : (r * m < m)%Q).
  { rewrite <- (Qmult_1_l m) at 2; apply Qmult_lt_compat_r; assumption. }
  pose proof (Qfloor_le (r * m)) as Hf.
  assert (Hz : (Qfloor (r * m) < Z.of_nat n)%Z).
  { rewrite Zlt_Qlt; apply Qle_lt_trans with (r * m)%Q; assumption. }
  lia.
Qed.

Lemma random_index_hit (i n : nat) :
  (i < n)%nat ->
  valid_draw (Z.of_nat i # Pos.of_nat n) = true /\
  random_index (Z.of_nat i # Pos.of_nat n) n = i.
Proof.
  intros Hi.
  assert (Hp : Zpos (Pos.of_nat n) = Z.of_nat n)
    by (rewrite <- positive_nat_Z, Nat2Pos.id by lia; reflexivity).
  split.
  - apply valid_draw_iff; unfold Qle, Qlt; simpl; rewrite Hp; lia.
  - unfold random_index, Qfloor, inject_Z, Qmult; simpl.
    rewrite Pos.mul_1_r, Hp, Z.div_mul by lia. apply Nat2Z.id.
Qed.

Lemma available_fold (g : game) (l : list nat) (acc : list string) :
  NoDup acc ->
  NoDup (fold_left (fun colors b =>
           if existsb (String.eqb (get g b).(color)) colors then colors
           else colors ++ [(get g b).(color)]) l acc) /\
  forall c, In c (fold_left (fun colors b =>
           if existsb (String.eqb (get g b).(color)) colors then colors
           else colors ++ [(get g b).(color)]) l acc) <->
       In c acc \/ exists b, In b l /\ (get g b).(color) = c.
Proof.
  revert acc; induction l as [|b l IH]; intros acc Hacc; simpl.
  - split; [exact Hacc|]. intros c; split; [tauto|].
    intros [H | (b & [] & _)]; exact H.
  - destruct (existsb (String.eqb (get g b).(color)) acc) eqn:E.
    + destruct (IH acc Hacc) as [H1 H2]; split; [exact H1|].
      intros c; rewrite H2; split.
      * intros [H | (b' & Hb' & Hc)]; [now left | right; exists b'; tauto].
      * intros [H | (b' & [<- | Hb'] & Hc)]; [now left | | right; exists b'; tauto].
        left; apply existsb_exists in E as (c' & Hc' & Ec).
        apply String.eqb_eq in Ec; congruence.
    + destruct (IH (acc ++ [(get g b).(color)])) as [H1 H2].
      { apply NoDup_app; [exact Hacc | repeat constructor; simpl; tauto |].
        intros c Hc [Hc' | []]; subst c.
        assert (existsb (String.eqb (get g b).(color)) acc = true)
          by (apply existsb_exists; exists (get g b).(color);
              split; [exact Hc | apply String.eqb_refl]).
        congruence. }
      split; [exact H1|]. intros c; rewrite H2, in_app_iff; simpl; split.
      * intros [[H | [<- | []]] | (b' & Hb' & Hc)];
          [now left | right; exists b; tauto | right; exists b'; tauto].
      * intros [H | (b' & [<- | Hb'] & Hc)];
          [now left; left | left; right; now left | right; exists b'; tauto].
Qed.

Lemma getAvailableColorsInGrid_spec (g : game) :
  NoDup (getAvailableColorsInGrid g) /\
  forall c, In c (getAvailableColorsInGrid g) <->
            exists b, In b g.(gridBubbles) /\ (get g b).(color) = c.
Proof.
  destruct (available_fold g g.(gridBubbles) [] (NoDup_nil _)) as [H1 H2].
  split; [exact H1|]. intros c; unfold getAvailableColorsInGrid; rewrite H2.
  simpl; tauto.
Qed.

Lemma getRandomBubbleColor_state (g : game) :
  snd (getRandomBubbleColor g) = set_rnd_pos g (S g.(rnd_pos)).
Proof. unfold getRandomBubbleColor; destruct (Nat.ltb _ _); reflexivity. Qed.

Lemma getAvailableColorsInGrid_length (g : game) :
  g.(gridBubbles) <> [] -> (0 < length (getAvailableColorsInGrid g))%nat.
Proof.
  intros Hne. destruct g.(gridBubbles) as [|b l] eqn:E; [congruence|].
  destruct (getAvailableColorsInGrid_spec g) as [_ H].
  destruct (getAvailableColorsInGrid g) as [|c cs] eqn:Ea; simpl; [|lia].
  exfalso; apply (proj2 (H (get g b).(color))). exists b; rewrite E; split; [now left | reflexivity].
Qed.

Lemma getAvailableColorsInGrid_set_rnd (g : game) (r : nat -> Q) :
  getAvailableColorsInGrid (set_rnd g r) = getAvailableColorsInGrid g.
Proof. reflexivity. Qed.

(** Claim C10: the projectile color chooser.  With a non-empty grid it
    returns one of the distinct colors present in the grid, and each of them
    is returned for some draw; with an empty grid it returns a color of the
    five-color palette, and each of them is returned for some draw. *)
Theorem getRandomBubbleColor_spec (g : game) :
  let availableColors := getAvailableColorsInGrid g in
  NoDup availableColors /\
  (forall c, In c availableColors <->
             exists b, In b g.(gridBubbles) /\ (get g b).(color) = c) /\
  (g.(gridBubbles) <> [] ->
     (valid_draw (g.(rnd) g.(rnd_pos)) = true ->
        In (fst (getRandomBubbleColor g)) availableColors) /\
     (forall c, In c availableColors ->
        exists r, valid_draw r = true /\
                  fst (getRandomBubbleColor (set_rnd g (fun _ => r))) = c)) /\
  (g.(gridBubbles) = [] ->
     (valid_draw (g.(rnd) g.(rnd_pos)) = true ->
        In (fst (getRandomBubbleColor g)) BUBBLE_COLORS) /\
     (forall c, In c BUBBLE_COLORS ->
        exists r, valid_draw r = true /\
                  fst (getRandomBubbleColor (set_rnd g (fun _ => r))) = c)).
Proof.
  cbv zeta. destruct (getAvailableColorsInGrid_spec g) as [Hnd Hin].
  split; [exact Hnd|]. split; [exact Hin|]. split.
  - intros Hne. pose proof (getAvailableColorsInGrid_length g Hne) as Hl.
    split.
    + intros Hr. unfold getRandomBubbleColor.
      apply Nat.ltb_lt in Hl as Hb; rewrite Hb; simpl.
      apply nth_In, random_index_lt; [exact Hr | now apply Nat.ltb_lt].
    + intros c Hc. destruct (In_nth _ _ js_undefined Hc) as (i & Hi & Hn).
      destruct (random_index_hit i _ Hi) as [Hv Hx].
      eexists; split; [exact Hv|].
      unfold getRandomBubbleColor; rewrite getAvailableColorsInGrid_set_rnd.
      apply Nat.ltb_lt in Hl as Hb; rewrite Hb; simpl.
      rewrite Hx; exact Hn.
  - intros He.
    assert (Hz : getAvailableColorsInGrid g = []) by (unfold getAvailableColorsInGrid; rewrite He; reflexivity).
    split.
    + intros Hr. unfold getRandomBubbleColor; rewrite Hz; cbn -[BUBBLE_COLORS nth].
      apply nth_In, random_index_lt; [exact Hr | unfold BUBBLE_COLORS; simpl; lia].
    + intros c Hc. destruct (In_nth _ _ js_undefined Hc) as (i & Hi & Hn).
      destruct (random_index_hit i _ Hi) as [Hv Hx].
      eexists; split; [exact Hv|].
      unfold getRandomBubbleColor; rewrite getAvailableColorsInGrid_set_rnd, Hz.
      cbn -[BUBBLE_COLORS nth]. rewrite Hx; exact Hn.
Qed.

(** ** Initial grid *)

(** With a non-empty grid, the chosen color is the color of a grid bubble. *)
Lemma getRandomBubbleColor_from_grid (g : game) :
  g.(gridBubbles) <> [] -> valid_draw (g.(rnd) g.(rnd_pos)) = true ->
  exists b, In b g.(gridBubbles) /\ (get g b).(color) = fst (getRandomBubbleColor g).
Proof.
  intros Hne Hr. pose proof (getAvailableColorsInGrid_length g Hne) as Hl.
  apply (getAvailableColorsInGrid_spec g).
  unfold getRandomBubbleColor.
  apply Nat.ltb_lt in Hl as Hb; rewrite Hb; simpl.
  apply nth_In, random_index_lt; [exact Hr | exact Hl].
Qed.

Lemma generateCell_inv (r c : nat) (g : game) :
  initGridInv g -> initGridInv (generateCell r c g).
Proof.
  intros Hinv; unfold generateCell; cbv zeta.
  destruct (_ && _); [|exact Hinv].
  destruct Hinv as (Hd & Hlt & Hmono).
  destruct (getRandomBubbleColor g) as [c0 g1] eqn:E.
  assert (Hg1 : g1 = set_rnd_pos g (S g.(rnd_pos))).
  { pose proof (getRandomBubbleColor_state g) as Hs; rewrite E in Hs; exact Hs. }
  assert (Hc0 : g.(gridBubbles) <> [] ->
                exists b, In b g.(gridBubbles) /\ (get g b).(color) = c0).
  { intros Hne; destruct (getRandomBubbleColor_from_grid g Hne (Hd _)) as (b & Hb & Hc).
    exists b; rewrite E in Hc; exact (conj Hb Hc). }
  subst g1. unfold alloc, pushBoth, get; unfold_setters.
  set (id := g.(next_obj)) in *.
  assert (Hold : forall b, In b g.(gridBubbles) -> Nat.eqb b id = false)
    by (intros b Hb; apply Nat.eqb_neq; specialize (Hlt b Hb); lia).
  cbn [next_obj gridBubbles heap rnd].
  split; [exact Hd|]. split.
  - intros b Hb; cbn [next_obj gridBubbles] in *.
    apply in_app_iff in Hb as [Hb | [<- | []]];
      [specialize (Hlt b Hb); lia | lia].
  - intros b1 b2 Hb1 Hb2; unfold get in *; cbn [next_obj gridBubbles heap] in *.
    apply in_app_iff in Hb1 as [Hb1 | [<- | []]];
    apply in_app_iff in Hb2 as [Hb2 | [<- | []]].
    + rewrite (Hold b1 Hb1), (Hold b2 Hb2). apply Hmono; assumption.
    + rewrite (Hold b1 Hb1), Nat.eqb_refl; simpl.
      destruct (Hc0 ltac:(intros Hn; rewrite Hn in Hb1; exact Hb1)) as (b & Hb & Hc).
      rewrite <- Hc; apply Hmono; assumption.
    + rewrite (Hold b2 Hb2), Nat.eqb_refl; simpl.
      destruct (Hc0 ltac:(intros Hn; rewrite Hn in Hb2; exact Hb2)) as (b & Hb & Hc).
      rewrite <- Hc; apply Hmono; assumption.
    + reflexivity.
Qed.

Lemma generateInitialGrid_inv (g : game) :
  initGridInv g -> initGridInv (generateInitialGrid g).
Proof.
  unfold generateInitialGrid.
  generalize (seq 0 INITIAL_GRID_ROWS) as rows; intros rows; revert g.
  induction rows as [|r rows IH]; intros g Hg; simpl; [exact Hg|].
  apply IH. unfold generateRow.
  generalize (seq 0 (GRID_COLS - (if Nat.even r then 0 else 1))) as cols.
  intros cols; revert g Hg; induction cols as [|c cols IHc]; intros g Hg; simpl;
    [exact Hg|].
  apply IHc, generateCell_inv, Hg.
Qed.

(** Claim C5: since the color chooser only draws from colors already in a
    non-empty grid, the initial grid is monochrome, for every sequence of
    draws [Math.random()] can return. *)
Theorem initGame_monochrome (draws : nat -> Q)
  (Hd : forall k, valid_draw (draws k) = true) :
  let g := initGame draws in
  forall b1 b2, In b1 g.(gridBubbles) -> In b2 g.(gridBubbles) ->
                (get g b1).(color) = (get g b2).(color).
Proof.
  cbv zeta. unfold initGame.
  set (g0 := mkGame _ _ _ _ _ _ _ _ _ _ _ _ _).
  assert (H0 : initGridInv g0).
  { split; [exact Hd|]. split; intros b; simpl; tauto. }
  destruct (generateInitialGrid_inv g0 H0) as (_ & _ & Hm).
  exact Hm.
Qed.

(** ** Witnesses *)

Lemma wallStep_reflects_witness :
  (moveStep sample_bubble).(x) - (moveStep sample_bubble).(radius) < 0 /\
  (wallStep (moveStep sample_bubble)).(vx) = - sample_bubble.(vx).
Proof.
  assert (H : (moveStep sample_bubble).(x) - (moveStep sample_bubble).(radius) < 0)
    by (unfold moveStep, sample_bubble, BUBBLE_RADIUS; simpl; lra).
  split; [exact H|].
  apply (wallStep_reflects sample_bubble eq_refl (or_introl H)).
Defined.

Lemma checkMatches_spec_witness :
  NoDup sample_game.(gridBubbles) /\
  NoDup (getConnectedSameColorBubbles sample_game 0).
Proof.
  assert (H : NoDup sample_game.(gridBubbles))
    by (simpl; repeat constructor; simpl; intuition discriminate).
  split; [exact H|].
  apply (checkMatches_spec sample_game 0 H).
Defined.

Lemma initGame_monochrome_witness :
  (forall k, valid_draw (half_draws k) = true) /\
  (forall b1 b2, In b1 (initGame half_draws).(gridBubbles) ->
                 In b2 (initGame half_draws).(gridBubbles) ->
                 (get (initGame half_draws) b1).(color) =
                 (get (initGame half_draws) b2).(color)).
Proof.
  assert (H : forall k, valid_draw (half_draws k) = true) by (intros k; reflexivity).
  split; [exact H|].
  apply (initGame_monochrome half_draws H).
Defined.

(** ** Frame lemmas: which passes move bubbles or add grid members *)

Lemma keepsPlaces_refl (g : game) : keepsPlaces g g.
Proof. split; [intros; split; reflexivity | apply incl_refl]. Qed.

Lemma keepsPlaces_trans (g1 g2 g3 : game) :
  keepsPlaces g1 g2 -> keepsPlaces g2 g3 -> keepsPlaces g1 g3.
Proof.
  intros [H1 I1] [H2 I2]; split; [|eapply incl_tran; eassumption].
  intros b; destruct (H1 b), (H2 b); split; congruence.
Qed.

Lemma write_keeps (g : game) (id : nat) (f : bubble -> bubble) :
  (forall bb, (f bb).(x) = bb.(x) /\ (f bb).(y) = bb.(y)) ->
  keepsPlaces g (write g id f).
Proof.
  intros Hf; split; [|apply incl_refl]. intros b; rewrite write_get.
  destruct (Nat.eqb b id) eqn:E; [apply Nat.eqb_eq in E; subst; apply Hf|].
  split; reflexivity.
Qed.

Lemma remove_first_incl (b : nat) (l : list nat) : incl (remove_first b l) l.
Proof.
  induction l as [|h t IH]; simpl; [apply incl_refl|].
  destruct (Nat.eqb h b); [apply incl_tl, incl_refl|].
  apply incl_cons; [now left | apply incl_tl, IH].
Qed.

Lemma splice_at_incl (i : nat) (l : list nat) : incl (splice_at i l) l.
Proof.
  unfold splice_at; revert l; induction i as [|i IH]; intros [|h t]; simpl;
    try apply incl_refl.
  - apply incl_tl, incl_refl.
  - apply incl_cons; [now left | apply incl_tl, IH].
Qed.

Lemma popBubbles_keeps (g : game) (l : list nat) : keepsPlaces g (popBubbles g l).
Proof.
  unfold popBubbles.
  assert (H : forall l g, keepsPlaces g (fold_left popOne l g)).
  { induction l0 as [|b l0 IH]; intros g0; simpl; [apply keepsPlaces_refl|].
    eapply keepsPlaces_trans; [|apply IH].
    unfold popOne. eapply keepsPlaces_trans.
    - apply (write_keeps g0 b (fun bb => set_isPopping bb true)); intros; split; reflexivity.
    - split; [intros; split; reflexivity | apply remove_first_incl]. }
  eapply keepsPlaces_trans; [|apply H].
  split; [intros; split; reflexivity | apply incl_refl].
Qed.

Lemma checkMatches_keeps (g : game) (s : nat) : keepsPlaces g (checkMatches g s).
Proof.
  unfold checkMatches; destruct (Nat.leb _ _); [apply popBubbles_keeps | apply keepsPlaces_refl].
Qed.

Lemma dropFloating_keeps (conn : list nat) (i : nat) (g : game) (fl : list nat) :
  keepsPlaces g (fst (dropFloating conn i g fl)).
Proof.
  revert g fl; induction i as [|i IH]; intros g fl; simpl; [apply keepsPlaces_refl|].
  destruct (nth_error _ i) as [b|]; [|apply IH].
  destruct (mem b conn); [apply IH|].
  eapply keepsPlaces_trans; [|apply IH].
  eapply keepsPlaces_trans; [| eapply keepsPlaces_trans;
    [apply (write_keeps _ b (fun bb => set_isGrid bb false)); intros; split; reflexivity
    | eapply keepsPlaces_trans;
      [apply (write_keeps _ b (fun bb => set_vy bb 5)); intros; split; reflexivity
      | split; [intros; split; reflexivity | apply incl_refl]]]].
  split; [intros; split; reflexivity|]. apply splice_at_incl.
Qed.

Lemma checkFloatingBubbles_keeps (g : game) : keepsPlaces g (checkFloatingBubbles g).
Proof.
  unfold checkFloatingBubbles.
  pose proof (dropFloating_keeps
                (bfs (getNeighbors g) (fun _ => true)
                   (length (ceilingSeeds g) + length g.(gridBubbles)) 0 (ceilingSeeds g))
                (length g.(gridBubbles)) g []) as H.
  destruct (dropFloating _ _ g []) as [g1 fl]; simpl in H.
  eapply keepsPlaces_trans; [exact H|].
  split; [intros; split; reflexivity | apply incl_refl].
Qed.

Lemma cancelAnimationFrame_keeps (id : nat) (g : game) :
  keepsPlaces g (cancelAnimationFrame id g).
Proof.
  unfold cancelAnimationFrame; destruct (pending_frame g) as [p|];
    [destruct (Nat.eqb p id)|];
    (split; [intros; split; reflexivity | apply incl_refl]).
Qed.

Lemma checkGameOver_keeps (g : game) : keepsPlaces g (checkGameOver g).
Proof.
  unfold checkGameOver.
  destruct (existsb _ _); [apply (cancelAnimationFrame_keeps _ (set_alerts g _))|].
  destruct (match gridBubbles g, flyingBubble g with [], None => true | _, _ => false end);
    [apply (cancelAnimationFrame_keeps _ (set_alerts g _)) | apply keepsPlaces_refl].
Qed.

Lemma drawFilter_keeps (l : list nat) (g : game) : keepsPlaces g (snd (drawFilter l g)).
Proof.
  revert g; induction l as [|b l IH]; intros g; simpl; [apply keepsPlaces_refl|].
  destruct (isPopping (get g b)).
  - pose proof (IH (write g b (fun bb => set_popFrame bb (S (popFrame bb))))) as H.
    destruct (drawFilter l _) as [rest g2]; simpl in *.
    eapply keepsPlaces_trans; [|exact H].
    apply write_keeps; intros; split; reflexivity.
  - pose proof (IH g) as H; destruct (drawFilter l g) as [rest g2]; exact H.
Qed.

Lemma drawGame_keeps (g : game) : keepsPlaces g (drawGame g).
Proof.
  unfold drawGame, drawBubbles. pose proof (drawFilter_keeps (bubbles g) g) as H.
  destruct (drawFilter _ g) as [l g1]; exact H.
Qed.

(** The passes after the snap, in [settle]. *)
Lemma settle_rest_keeps (g : game) (f : nat) :
  keepsPlaces g (checkGameOver (checkFloatingBubbles
                   (set_flyingBubble (checkMatches g f) None))).
Proof.
  eapply keepsPlaces_trans; [apply checkMatches_keeps|].
  eapply keepsPlaces_trans; [|eapply keepsPlaces_trans;
    [apply checkFloatingBubbles_keeps | apply checkGameOver_keeps]].
  split; [intros; split; reflexivity | apply incl_refl].
Qed.

Lemma get_set_gridBubbles (g : game) (v : list nat) (b : nat) :
  get (set_gridBubbles g v) b = get g b.
Proof. reflexivity. Qed.

Lemma get_set_bubbles (g : game) (v : list nat) (b : nat) :
  get (set_bubbles g v) b = get g b.
Proof. reflexivity. Qed.

Lemma write_other (g : game) (id b : nat) (f : bubble -> bubble) :
  b <> id -> get (write g id f) b = get g b.
Proof. intros H; rewrite write_get; apply Nat.eqb_neq in H; rewrite H; reflexivity. Qed.

(** [settle g f] moves no bubble other than [f]. *)
Lemma settle_other (g : game) (f b : nat) :
  b <> f ->
  (get (settle g f) b).(x) = (get g b).(x) /\ (get (settle g f) b).(y) = (get g b).(y).
Proof.
  intros Hb; unfold settle; cbv zeta.
  match goal with
  | |- context [checkGameOver (checkFloatingBubbles
                  (set_flyingBubble (checkMatches ?g3 f) None))] =>
      destruct (proj1 (settle_rest_keeps g3 f) b) as [Hx Hy]
  end.
  rewrite Hx, Hy, get_set_gridBubbles; unfold snapBubbleToGrid; cbv zeta.
  rewrite !write_other by exact Hb. split; reflexivity.
Qed.

Lemma updateGame_other (g : game) (b : nat) :
  g.(flyingBubble) <> Some b ->
  (get (updateGame g) b).(x) = (get g b).(x) /\ (get (updateGame g) b).(y) = (get g b).(y).
Proof.
  intros Hb; unfold updateGame.
  destruct (flyingBubble g) as [f|]; [|split; reflexivity].
  assert (Hbf : b <> f) by (intros ->; apply Hb; reflexivity).
  destruct (_ || _).
  - destruct (settle_other (write g f (fun bb => wallStep (moveStep bb))) f b Hbf) as [Hx Hy].
    rewrite Hx, Hy, write_other by exact Hbf; split; reflexivity.
  - rewrite write_other by exact Hbf; split; reflexivity.
Qed.

Lemma gameLoop_get (g : game) (b : nat) :
  get (gameLoop g) b = get (drawGame (updateGame g)) b.
Proof. reflexivity. Qed.

(** A tick with no flying bubble, whose only bubble is a non-popping [b0],
    changes nothing of it. *)
Lemma gameLoop_idle (g : game) (b0 : nat) :
  g.(flyingBubble) = None -> g.(bubbles) = [b0] -> (get g b0).(isPopping) = false ->
  (gameLoop g).(flyingBubble) = None /\ (gameLoop g).(bubbles) = [b0] /\
  get (gameLoop g) b0 = get g b0.
Proof.
  intros Hf Hbs Hp.
  unfold gameLoop, updateGame; rewrite Hf.
  unfold drawGame, drawBubbles; rewrite Hbs; simpl; rewrite Hp.
  unfold requestAnimationFrame; unfold_setters.
  split; [exact Hf|]. split; reflexivity.
Qed.

Lemma sqrt3_bounds : 1 < sqrt 3 < 2.
Proof.
  split.
  - rewrite <- sqrt_1 at 1; apply sqrt_lt_1_alt; lra.
  - replace 2 with (sqrt (2 * 2)) by (apply sqrt_square; lra).
    apply sqrt_lt_1_alt; lra.
Qed.

Lemma row1_ceilingSeeds : ceilingSeeds row1_game = [].
Proof.
  unfold ceilingSeeds, Rleb; simpl.
  destruct (Rle_dec _ _) as [H|H]; [|reflexivity].
  exfalso; pose proof sqrt3_bounds.
  unfold rowHeight, BUBBLE_DIAMETER, BUBBLE_RADIUS in H; lra.
Qed.

(** The gravity pass on [row1_game]: its bubble is not a seed, so it falls. *)
Lemma row1_gravity :
  let g' := checkFloatingBubbles row1_game in
  g'.(gridBubbles) = [] /\ g'.(bubbles) = [0]%nat /\ g'.(flyingBubble) = None /\
  get g' 0 = set_vy (set_isGrid (get row1_game 0) false) 5.
Proof.
  cbv zeta; unfold checkFloatingBubbles; rewrite row1_ceilingSeeds.
  simpl. repeat split; reflexivity.
Qed.

(** ** Falling bubbles *)

(** Claim C4: a tick advances only the flying bubble; every other bubble,
    falling ones included, keeps its place.  The bubble of [row1_game],
    dropped by the gravity pass with [vy = 5], stays in [bubbles] at the
    same place for every number of ticks. *)
Theorem falling_bubbles_never_move :
  (forall g b, g.(flyingBubble) <> Some b ->
     (get (gameLoop g) b).(x) = (get g b).(x) /\
     (get (gameLoop g) b).(y) = (get g b).(y)) /\
  (let g0 := checkFloatingBubbles row1_game in
   (get g0 0).(isGrid) = false /\ (get g0 0).(vy) = 5 /\
   forall n, let gn := Nat.iter n gameLoop g0 in
             In 0%nat gn.(bubbles) /\ get gn 0 = get g0 0).
Proof.
  split.
  - intros g b Hb; rewrite gameLoop_get.
    destruct (proj1 (drawGame_keeps (updateGame g)) b) as [Hx Hy].
    destruct (updateGame_other g b Hb) as [Ux Uy].
    split; congruence.
  - cbv zeta. destruct row1_gravity as (_ & Hbs & Hf & Hg).
    rewrite Hg; split; [reflexivity|]. split; [reflexivity|].
    intros n.
    assert (Inv : forall n, let gn := Nat.iter n gameLoop (checkFloatingBubbles row1_game) in
                  gn.(flyingBubble) = None /\ gn.(bubbles) = [0]%nat /\
                  get gn 0 = get (checkFloatingBubbles row1_game) 0).
    { induction n0 as [|n0 IH]; cbv zeta; [repeat split; assumption|].
      simpl Nat.iter. destruct IH as (F & B & G).
      destruct (gameLoop_idle _ 0 F B) as (F' & B' & G').
      { rewrite G, Hg; reflexivity. }
      repeat split; [exact F' | exact B' | rewrite G'; exact G]. }
    destruct (Inv n) as (_ & B & G); cbv zeta in B, G.
    rewrite B, G, Hg; split; [now left | reflexivity].
Qed.

(** ** Ceiling connectivity *)

(** Claim C2: the gravity pass seeds only the bubbles with [y <= 40], one
    bubble diameter.  The bubble of [row1_game] sits at the center of cell
    (1, 0), within two diameters of the top, and the pass drops it. *)
Theorem checkFloatingBubbles_drops_second_row :
  let b := get row1_game 0 in
  let g' := checkFloatingBubbles row1_game in
  row1_game.(gridBubbles) = [0]%nat /\ b.(isGrid) = true /\
  getGridPosition b.(x) b.(y) = mkGridPosition b.(x) b.(y) 1 0 /\
  BUBBLE_DIAMETER < b.(y) <= 2 * BUBBLE_DIAMETER /\
  ceilingSeeds row1_game = [] /\
  g'.(gridBubbles) = [] /\ (get g' 0).(isGrid) = false /\ (get g' 0).(vy) = 5.
Proof.
  cbv zeta. destruct row1_gravity as (Hgr & _ & _ & Hg).
  split; [reflexivity|]. split; [reflexivity|]. split.
  - pose proof (getGridPosition_center 1 0) as H.
    change (Z.rem 1 2) with 1%Z in H.
    replace (BUBBLE_RADIUS + IZR 0 * BUBBLE_DIAMETER + IZR 1 * BUBBLE_RADIUS)
      with (BUBBLE_RADIUS + BUBBLE_RADIUS) in H by ring.
    replace (IZR 1 * rowHeight) with rowHeight in H by ring.
    exact H.
  - split.
    + pose proof sqrt3_bounds; simpl.
      unfold rowHeight, BUBBLE_DIAMETER, BUBBLE_RADIUS; lra.
    + split; [exact row1_ceilingSeeds|]. rewrite Hg; repeat split; assumption.
Qed.

Lemma handleShoot_vy (g : game) :
  g.(flyingBubble) = None ->
  (handleShoot g).(flyingBubble) = Some g.(next_obj) /\
  (get (handleShoot g) g.(next_obj)).(vy) = sin g.(cannonAngle) * SHOOT_SPEED.
Proof.
  intros Hf; unfold handleShoot; rewrite Hf.
  destruct (getRandomBubbleColor g) as [c0 g1] eqn:E.
  pose proof (getRandomBubbleColor_state g) as Hs; rewrite E in Hs; simpl in Hs; subst g1.
  unfold alloc; cbv beta iota zeta.
  split; [reflexivity|].
  rewrite get_set_bubbles, write_get, Nat.eqb_refl; reflexivity.
Qed.

(** ** Game over *)

Lemma gameLoop_pending (g : game) :
  (gameLoop g).(pending_frame) = Some (gameLoop g).(animationFrameId).
Proof. reflexivity. Qed.

Lemma lost_game_over :
  checkGameOver lost_game =
  cancelAnimationFrame 0 (set_alerts lost_game [GameOverAlert 0%Z]).
Proof.
  unfold checkGameOver, Rltb; simpl.
  destruct (Rlt_dec _ _) as [H|H]; [reflexivity|].
  exfalso; apply H; unfold CANVAS_HEIGHT, CANNON_HEIGHT, BUBBLE_RADIUS; lra.
Qed.

(** Called directly, outside any run, the cancellation of the game-over
    check names the frame that is running, and [gameLoop] requests the next
    frame after it; the lost state [lost_game], which is built by hand,
    records its alert and still accepts a shot. *)
Theorem checkGameOver_does_not_stop_loop :
  (forall g, (gameLoop g).(pending_frame) = Some (gameLoop g).(animationFrameId)) /\
  (checkGameOver lost_game).(alerts) = [GameOverAlert 0%Z] /\
  (handleShoot (checkGameOver lost_game)).(flyingBubble) = Some 1%nat.
Proof.
  split; [exact gameLoop_pending|].
  rewrite lost_game_over. split; [reflexivity|].
  apply (handleShoot_vy (cancelAnimationFrame 0 (set_alerts lost_game [GameOverAlert 0%Z]))).
  reflexivity.
Qed.

(** ** Aiming *)

Lemma generateCell_aim (r c : nat) (g : game) :
  (generateCell r c g).(flyingBubble) = g.(flyingBubble) /\
  (generateCell r c g).(cannonAngle) = g.(cannonAngle).
Proof.
  unfold generateCell; cbv zeta.
  destruct (_ && _); [|split; reflexivity].
  destruct (getRandomBubbleColor g) as [c0 g1] eqn:E.
  pose proof (getRandomBubbleColor_state g) as Hs; rewrite E in Hs; simpl in Hs; subst g1.
  split; reflexivity.
Qed.

Lemma generateRow_aim (r : nat) (g : game) :
  (generateRow r g).(flyingBubble) = g.(flyingBubble) /\
  (generateRow r g).(cannonAngle) = g.(cannonAngle).
Proof.
  unfold generateRow.
  generalize (seq 0 (GRID_COLS - (if Nat.even r then 0 else 1))) as cols.
  intros cols; revert g; induction cols as [|c cols IHc]; intros g; simpl;
    [split; reflexivity|].
  destruct (IHc (generateCell r c g)) as [F A]; rewrite F, A.
  apply generateCell_aim.
Qed.

Lemma generateInitialGrid_aim (g : game) :
  (generateInitialGrid g).(flyingBubble) = g.(flyingBubble) /\
  (generateInitialGrid g).(cannonAngle) = g.(cannonAngle).
Proof.
  unfold generateInitialGrid.
  generalize (seq 0 INITIAL_GRID_ROWS) as rows; intros rows; revert g.
  induction rows as [|r rows IH]; intros g; simpl; [split; reflexivity|].
  destruct (IH (generateRow r g)) as [F A]; rewrite F, A.
  apply generateRow_aim.
Qed.

Lemma initGame_aim (draws : nat -> Q) :
  (initGame draws).(flyingBubble) = None /\ (initGame draws).(cannonAngle) = 0.
Proof.
  unfold initGame; cbv zeta.
  destruct (generateInitialGrid_aim
              (mkGame (fun _ => emptyBubble) 0 0%Z 0 [] [] None 0 None 0 draws 0 []))
    as [F A].
  exact (conj F A).
Qed.

(** Claim C9: aiming ignores only [dy > 0]: an aim on the horizontal through
    the cannon, to its right, sets the angle to 0; and the initial angle is
    0, so a first shot fired without aiming has [vy = 0], for every
    sequence of draws. *)
Theorem horizontal_shot_accepted :
  (forall g ex, g.(flyingBubble) = None -> cannonCenterX < ex ->
     (handleAim g ex cannonCenterY).(cannonAngle) = 0) /\
  (forall draws : nat -> Q,
     let g := handleShoot (initGame draws) in
     exists id, g.(flyingBubble) = Some id /\ (get g id).(vy) = 0).
Proof.
  split.
  - intros g ex Hf Hx; unfold handleAim; rewrite Hf; cbv zeta.
    unfold Rltb; destruct (Rlt_dec 0 _) as [H|_]; [lra|].
    unfold set_cannonAngle, atan2; cbn [cannonAngle].
    destruct (Rlt_dec 0 _) as [_|H]; [|lra].
    replace (cannonCenterY - cannonCenterY) with 0 by ring.
    unfold Rdiv; rewrite Rmult_0_l; apply atan_0.
  - intros draws; cbv zeta.
    destruct (initGame_aim draws) as [F A].
    destruct (handleShoot_vy _ F) as (Hid & Hv).
    exists (initGame draws).(next_obj); split; [exact Hid|]. rewrite Hv, A, sin_0; ring.
Qed.

(** ** Grid occupancy *)


Lemma isCollidingWith_same_place (b o : bubble) :
  b.(x) = o.(x) -> b.(y) = o.(y) -> b.(radius) = BUBBLE_RADIUS -> o.(radius) = BUBBLE_RADIUS ->
  isCollidingWith b o = true.
Proof.
  intros Hx Hy Hb Ho; unfold isCollidingWith, dist, Rltb.
  rewrite Hx, Hy, Hb, Ho, !Rminus_diag; simpl.
  replace (0 * (0 * 1) + 0 * (0 * 1)) with 0 by ring. rewrite sqrt_0.
  destruct (Rlt_dec _ _) as [_|H]; [reflexivity|].
  exfalso; apply H; unfold BUBBLE_RADIUS; lra.
Qed.










Lemma keepsMeta_refl (g : game) : keepsMeta g g.
Proof. split; reflexivity. Qed.

Lemma keepsMeta_trans (g1 g2 g3 : game) :
  keepsMeta g1 g2 -> keepsMeta g2 g3 -> keepsMeta g1 g3.
Proof. intros [A B] [C D]; split; congruence. Qed.

Lemma popBubbles_meta (g : game) (l : list nat) : keepsMeta g (popBubbles g l).
Proof.
  unfold popBubbles.
  assert (H : forall l g, keepsMeta g (fold_left popOne l g)).
  { induction l0 as [|b l0 IH]; intros g0; simpl; [apply keepsMeta_refl|].
    eapply keepsMeta_trans; [|apply IH]. split; reflexivity. }
  eapply keepsMeta_trans; [|apply H]. split; reflexivity.
Qed.

Lemma checkMatches_meta (g : game) (s : nat) : keepsMeta g (checkMatches g s).
Proof.
  unfold checkMatches; destruct (Nat.leb _ _); [apply popBubbles_meta | apply keepsMeta_refl].
Qed.

Lemma dropFloating_meta (conn : list nat) (i : nat) (g : game) (fl : list nat) :
  keepsMeta g (fst (dropFloating conn i g fl)).
Proof.
  revert g fl; induction i as [|i IH]; intros g fl; simpl; [apply keepsMeta_refl|].
  destruct (nth_error _ i) as [b|]; [|apply IH].
  destruct (mem b conn); [apply IH|].
  eapply keepsMeta_trans; [|apply IH]. split; reflexivity.
Qed.

Lemma checkFloatingBubbles_meta (g : game) : keepsMeta g (checkFloatingBubbles g).
Proof.
  unfold checkFloatingBubbles.
  pose proof (dropFloating_meta
                (bfs (getNeighbors g) (fun _ => true)
                   (length (ceilingSeeds g) + length g.(gridBubbles)) 0 (ceilingSeeds g))
                (length g.(gridBubbles)) g []) as H.
  destruct (dropFloating _ _ g []) as [g1 fl]; simpl in H.
  eapply keepsMeta_trans; [exact H|]. split; reflexivity.
Qed.

Lemma checkGameOver_meta (g : game) : keepsMeta g (checkGameOver g).
Proof.
  unfold checkGameOver, cancelAnimationFrame.
  destruct (existsb _ _); [|destruct (match gridBubbles g, flyingBubble g with
                                      | [], None => true | _, _ => false end)];
    cbn [pending_frame set_alerts];
    try (destruct (pending_frame g) as [p|]; [destruct (Nat.eqb p _)|]);
    split; reflexivity.
Qed.

Lemma drawFilter_meta (l : list nat) (g : game) : keepsMeta g (snd (drawFilter l g)).
Proof.
  revert g; induction l as [|b l IH]; intros g; simpl; [apply keepsMeta_refl|].
  destruct (isPopping (get g b)).
  - pose proof (IH (write g b (fun bb => set_popFrame bb (S (popFrame bb))))) as H.
    destruct (drawFilter l _) as [rest g2]; simpl in *. exact H.
  - pose proof (IH g) as H; destruct (drawFilter l g) as [rest g2]; exact H.
Qed.

Lemma drawGame_meta (g : game) : keepsMeta g (drawGame g).
Proof.
  unfold drawGame, drawBubbles. pose proof (drawFilter_meta (bubbles g) g) as H.
  destruct (drawFilter _ g) as [l g1]; exact H.
Qed.

Lemma gridInv_keeps (g g' : game) :
  keepsPlaces g g' -> keepsMeta g g' -> gridInv g -> gridInv g'.
Proof.
  intros [Hp Hi] [Hn Hf] [Hg Hfl]; split.
  - intros b Hb; destruct (Hg b (Hi b Hb)) as [Hlt Hc]; rewrite Hn; split; [exact Hlt|].
    unfold centred in *; destruct (Hp b) as [Hx Hy]; rewrite Hx, Hy; exact Hc.
  - intros f Hf'; rewrite Hf in Hf'; destruct (Hfl f Hf') as [Hlt Hni].
    rewrite Hn; split; [exact Hlt|]. intros Hin; exact (Hni (Hi f Hin)).
Qed.

Lemma centred_center (r c : Z) (bb : bubble) :
  bb.(x) = BUBBLE_RADIUS + IZR c * BUBBLE_DIAMETER + IZR (Z.rem r 2) * BUBBLE_RADIUS ->
  bb.(y) = BUBBLE_RADIUS + IZR r * rowHeight ->
  centred bb.
Proof.
  intros Hx Hy; unfold centred; rewrite Hx, Hy, getGridPosition_center; split; reflexivity.
Qed.

Lemma centred_snap (bb : bubble) (x0 y0 : R) :
  centred (set_y (set_x bb (getGridPosition x0 y0).(gp_x)) (getGridPosition x0 y0).(gp_y)).
Proof.
  apply (centred_center (getGridPosition x0 y0).(gp_row) (getGridPosition x0 y0).(gp_col));
    reflexivity.
Qed.

Lemma rem2_even (r : nat) :
  IZR (Z.rem (Z.of_nat r) 2) = if Nat.even r then 0 else 1.
Proof.
  destruct (Nat.Even_or_Odd r) as [[k Hk]|[k Hk]]; subst r.
  - assert (He : Nat.even (2 * k) = true) by (apply Nat.even_spec; exists k; reflexivity).
    rewrite He, Z.rem_mod_nonneg by lia.
    replace (Z.of_nat (2 * k)) with (Z.of_nat k * 2)%Z by lia.
    rewrite Z.mod_mul by lia; reflexivity.
  - assert (Ho : Nat.odd (2 * k + 1) = true) by (apply Nat.odd_spec; exists k; reflexivity).
    rewrite <- Nat.negb_odd, Ho, Z.rem_mod_nonneg by lia; simpl negb.
    replace (Z.of_nat (2 * k + 1)) with (1 + Z.of_nat k * 2)%Z by lia.
    rewrite Z.mod_add by lia; reflexivity.
Qed.

Lemma generateCell_centred (r c : nat) (col : string) :
  centred (newBubble
             ((if Nat.even r then BUBBLE_RADIUS else BUBBLE_RADIUS + BUBBLE_RADIUS)
              + INR c * BUBBLE_DIAMETER)
             (BUBBLE_RADIUS + INR r * (BUBBLE_DIAMETER * sqrt 3 / 2)) col true).
Proof.
  apply (centred_center (Z.of_nat r) (Z.of_nat c)); cbn [x y newBubble].
  - rewrite rem2_even, <- INR_IZR_INZ.
    destruct (Nat.even r); ring.
  - rewrite <- INR_IZR_INZ; reflexivity.
Qed.

Lemma alloc_spec (g : game) (bb : bubble) (id : nat) (g2 : game) :
  alloc g bb = (id, g2) ->
  id = g.(next_obj) /\ g2.(next_obj) = S id /\ g2.(gridBubbles) = g.(gridBubbles) /\
  g2.(flyingBubble) = g.(flyingBubble) /\ get g2 id = bb /\
  (forall b, b <> id -> get g2 b = get g b).
Proof.
  unfold alloc; intros H; inversion H; subst; clear H.
  split; [reflexivity|]. split; [reflexivity|]. split; [reflexivity|].
  split; [reflexivity|]. split.
  - unfold get; cbn [heap set_next_obj set_heap]; rewrite Nat.eqb_refl; reflexivity.
  - intros b Hb; unfold get; cbn [heap set_next_obj set_heap].
    apply Nat.eqb_neq in Hb; rewrite Hb; reflexivity.
Qed.

(** A new bubble [id], allocated and pushed to the grid. *)
Lemma gridInv_add (g g' : game) (id : nat) :
  gridInv g -> id = g.(next_obj) -> g'.(next_obj) = S id ->
  g'.(gridBubbles) = g.(gridBubbles) ++ [id] -> g'.(flyingBubble) = g.(flyingBubble) ->
  (forall b, b <> id -> get g' b = get g b) -> centred (get g' id) -> gridInv g'.
Proof.
  intros [Hg Hfl] Hid Hn Hgr Hf Hget Hc; split.
  - intros b Hb; rewrite Hgr in Hb; rewrite Hn.
    apply in_app_iff in Hb as [Hb | [<- | []]]; [|split; [lia | exact Hc]].
    destruct (Hg b Hb) as [Hlt Hcb].
    rewrite Hget by lia. split; [lia | exact Hcb].
  - intros f Hf'; rewrite Hf in Hf'; destruct (Hfl f Hf') as [Hlt Hni].
    rewrite Hn, Hgr; split; [lia|].
    intros Hin; apply in_app_iff in Hin as [Hin | [Heq | []]]; [exact (Hni Hin) | lia].
Qed.

Lemma generateCell_gridInv (r c : nat) (g : game) :
  gridInv g -> gridInv (generateCell r c g).
Proof.
  intros Hinv; unfold generateCell; cbv zeta.
  destruct (_ && _); [|exact Hinv].
  destruct (getRandomBubbleColor g) as [c0 g1] eqn:E.
  pose proof (getRandomBubbleColor_state g) as Hs; rewrite E in Hs; simpl in Hs; subst g1.
  match goal with |- context [alloc ?g1 ?bb] => destruct (alloc g1 bb) as [id g2] eqn:Ea end.
  destruct (alloc_spec _ _ _ _ Ea) as (Hid & Hn & Hgr & Hf & Hnew & Hold).
  apply (gridInv_add g (pushBoth g2 id) id Hinv Hid Hn).
  - unfold pushBoth; cbn [gridBubbles set_gridBubbles]. rewrite Hgr; reflexivity.
  - exact Hf.
  - intros b Hb; exact (Hold b Hb).
  - change (get (pushBoth g2 id) id) with (get g2 id); rewrite Hnew.
    apply generateCell_centred.
Qed.

Lemma generateInitialGrid_gridInv (g : game) :
  gridInv g -> gridInv (generateInitialGrid g).
Proof.
  unfold generateInitialGrid.
  generalize (seq 0 INITIAL_GRID_ROWS) as rows; intros rows; revert g.
  induction rows as [|r rows IH]; intros g Hg; simpl; [exact Hg|].
  apply IH. unfold generateRow.
  generalize (seq 0 (GRID_COLS - (if Nat.even r then 0 else 1))) as cols.
  intros cols; revert g Hg; induction cols as [|c cols IHc]; intros g Hg; simpl;
    [exact Hg|].
  apply IHc, generateCell_gridInv, Hg.
Qed.

Lemma initGame_gridInv (draws : nat -> Q) : gridInv (initGame draws).
Proof.
  unfold initGame; cbv zeta.
  apply generateInitialGrid_gridInv.
  split; [intros b [] | intros f Hf; discriminate Hf].
Qed.

Lemma handleShoot_gridInv (g : game) : gridInv g -> gridInv (handleShoot g).
Proof.
  intros Hinv; unfold handleShoot.
  destruct (flyingBubble g) as [f|] eqn:Ef; [exact Hinv|].
  destruct (getRandomBubbleColor g) as [c0 g1] eqn:E.
  pose proof (getRandomBubbleColor_state g) as Hs; rewrite E in Hs; simpl in Hs; subst g1.
  match goal with |- context [alloc ?g1 ?bb] => destruct (alloc g1 bb) as [id g2] eqn:Ea end.
  destruct (alloc_spec _ _ _ _ Ea) as (Hid & Hn & Hgr & Hf & Hnew & Hold).
  change (next_obj (set_rnd_pos g _)) with (next_obj g) in Hid.
  destruct Hinv as [Hg Hfl]; split.
  - intros b Hb; cbn [gridBubbles set_bubbles write set_heap set_flyingBubble] in Hb.
    rewrite Hgr in Hb. destruct (Hg b Hb) as [Hlt Hc].
    assert (Hb' : b <> id) by lia.
    change (next_obj (set_bubbles _ _)) with (next_obj g2). rewrite Hn.
    rewrite get_set_bubbles, !write_other by exact Hb'.
    change (get (set_flyingBubble g2 (Some id)) b) with (get g2 b).
    rewrite Hold by exact Hb'. split; [lia | exact Hc].
  - intros f' Hf'; cbn [flyingBubble set_bubbles write set_heap set_flyingBubble] in Hf'.
    injection Hf' as <-.
    change (next_obj (set_bubbles _ _)) with (next_obj g2).
    change (gridBubbles (set_bubbles _ _)) with (gridBubbles g2).
    rewrite Hn, Hgr; split; [lia|].
    intros Hin; destruct (Hg id Hin) as [Hlt _]; lia.
Qed.

Lemma handleAim_gridInv (g : game) (ex ey : R) : gridInv g -> gridInv (handleAim g ex ey).
Proof.
  intros Hinv; unfold handleAim; destruct (flyingBubble g) as [f|] eqn:Ef; [exact Hinv|].
  cbv zeta; destruct (Rltb _ _); exact Hinv.
Qed.

Lemma updateGame_gridInv (g : game) : gridInv g -> gridInv (updateGame g).
Proof.
  intros Hinv; unfold updateGame.
  destruct (flyingBubble g) as [f|] eqn:Ef; [|exact Hinv].
  destruct Hinv as [Hg Hfl]. destruct (Hfl f Ef) as [Hflt Hni].
  set (g1 := write g f _).
  assert (Hg1 : forall b, In b g.(gridBubbles) -> get g1 b = get g b).
  { intros b Hb; apply write_other; intros ->; exact (Hni Hb). }
  destruct (_ || _).
  - unfold settle; cbv zeta.
    set (g3 := set_gridBubbles _ _).
    assert (I3 : gridInv (set_flyingBubble g3 None)).
    { split; [|intros f' Hf'; discriminate Hf'].
      intros b Hb; cbn [gridBubbles set_flyingBubble set_gridBubbles] in Hb.
      change (gridBubbles (snapBubbleToGrid (write g1 f (fun bb => set_isGrid bb true)) f))
        with (gridBubbles g) in Hb.
      change (next_obj (set_flyingBubble g3 None)) with (next_obj g).
      change (get (set_flyingBubble g3 None) b) with (get g3 b).
      apply in_app_iff in Hb as [Hb | [<- | []]].
      - destruct (Hg b Hb) as [Hlt Hc]; split; [exact Hlt|].
        assert (Hbf : b <> f) by (intros ->; exact (Hni Hb)).
        unfold g3; rewrite get_set_gridBubbles; unfold snapBubbleToGrid; cbv zeta.
        rewrite !write_other by exact Hbf. fold g1; rewrite (Hg1 b Hb); exact Hc.
      - split; [exact Hflt|].
        unfold g3; rewrite get_set_gridBubbles; unfold snapBubbleToGrid; cbv zeta.
        rewrite !write_get, Nat.eqb_refl. apply centred_snap. }
    refine (gridInv_keeps _ _ _ _ I3).
    + eapply keepsPlaces_trans; [|eapply keepsPlaces_trans;
        [apply checkFloatingBubbles_keeps | apply checkGameOver_keeps]].
      destruct (checkMatches_keeps g3 f) as [Hp Hi].
      split; [exact Hp | exact Hi].
    + eapply keepsMeta_trans; [|eapply keepsMeta_trans;
        [apply checkFloatingBubbles_meta | apply checkGameOver_meta]].
      destruct (checkMatches_meta g3 f) as [Hn _]. split; [exact Hn | reflexivity].
  - split.
    + intros b Hb; rewrite (Hg1 b Hb); exact (Hg b Hb).
    + intros f' Hf'; exact (Hfl f' Hf').
Qed.

Lemma gameLoop_gridInv (g : game) : gridInv g -> gridInv (gameLoop g).
Proof.
  intros Hinv; pose proof (updateGame_gridInv g Hinv) as H1.
  exact (gridInv_keeps _ _ (drawGame_keeps _) (drawGame_meta _) H1).
Qed.

Lemma step_gridInv (g : game) (e : event) : gridInv g -> gridInv (step g e).
Proof.
  intros Hinv; destruct e as [|ex ey|]; simpl.
  - unfold runFrame; destruct (pending_frame g); [|exact Hinv].
    apply gameLoop_gridInv; exact Hinv.
  - apply handleAim_gridInv, Hinv.
  - apply handleShoot_gridInv, Hinv.
Qed.

(** ** Further properties of the code *)

Lemma dist_sym (b o : bubble) : dist b o = dist o b.
Proof. unfold dist; f_equal; ring. Qed.

Lemma isCollidingWith_sym (b o : bubble) : isCollidingWith b o = isCollidingWith o b.
Proof. unfold isCollidingWith; rewrite dist_sym, (Rplus_comm (radius b)); reflexivity. Qed.

(** X1 (getNeighbors): v is a neighbour of u and u is in the grid exactly when u is a neighbour of v and v is in the grid; the neighbour relation on grid bubbles is symmetric. *)
Theorem getNeighbors_symmetric (g : game) (u v : nat) :
  In v (getNeighbors g u) /\ In u g.(gridBubbles) <->
  In u (getNeighbors g v) /\ In v g.(gridBubbles).
Proof.
  unfold getNeighbors; rewrite !filter_In, !andb_true_iff, !negb_true_iff,
    !Nat.eqb_neq, isCollidingWith_sym.
  split; intros [[Hv [Hne Hc]] Hu]; repeat split; auto.
Qed.

(** Cell centres. *)
Lemma js_round_near (v : R) : - / 2 < IZR (js_round v) - v <= / 2.
Proof.
  unfold js_round; destruct (base_Int_part (v + / 2)) as [H1 H2]; lra.
Qed.

Lemma rem2_bound (r : Z) : (-1 <= Z.rem r 2 <= 1)%Z.
Proof.
  pose proof (Z.rem_bound_abs r 2 ltac:(lia)). lia.
Qed.

Lemma cells_apart_Z (r1 c1 r2 c2 : Z) :
  ~ (r1 = r2 /\ c1 = c2) ->
  (1600 <= 400 * (2 * (c2 - c1) + (Z.rem r2 2 - Z.rem r1 2)) ^ 2
           + 1200 * (r2 - r1) ^ 2)%Z.
Proof.
  intros Hne.
  destruct (Z.eq_dec r1 r2) as [Er | Er].
  - subst r2. assert (c1 <> c2) by tauto.
    replace (Z.rem r1 2 - Z.rem r1 2)%Z with 0%Z by lia.
    destruct (Z.le_gt_cases 1 (c2 - c1)); nia.
  - pose proof (Z.quot_rem' r1 2) as Q1; pose proof (Z.quot_rem' r2 2) as Q2.
    pose proof (rem2_bound r1); pose proof (rem2_bound r2).
    set (s1 := Z.rem r1 2) in *; set (s2 := Z.rem r2 2) in *.
    set (q1 := Z.quot r1 2) in *; set (q2 := Z.quot r2 2) in *.
    destruct (Z.le_gt_cases 2 (Z.abs (r2 - r1))).
    + assert (4 <= (r2 - r1) ^ 2)%Z by (destruct (Z.abs_spec (r2 - r1)); nia).
      nia.
    + assert (Hm : (2 * (c2 - c1) + (s2 - s1) <> 0)%Z) by lia.
      set (m := (2 * (c2 - c1) + (s2 - s1))%Z) in *.
      assert (1 <= m ^ 2)%Z by (destruct (Z.abs_spec m); nia).
      assert (1 <= (r2 - r1) ^ 2)%Z by (destruct (Z.abs_spec (r2 - r1)); nia).
      nia.
Qed.

Lemma rowHeight_sq : rowHeight ^ 2 = 1200.
Proof.
  unfold rowHeight, BUBBLE_DIAMETER, BUBBLE_RADIUS.
  replace ((20 * 2 * sqrt 3 / 2) ^ 2) with (400 * (sqrt 3 * sqrt 3)) by field.
  rewrite sqrt_sqrt by lra; lra.
Qed.

Lemma centred_cell (b : bubble) :
  centred b -> exists r c,
    b.(x) = BUBBLE_RADIUS + IZR c * BUBBLE_DIAMETER + IZR (Z.rem r 2) * BUBBLE_RADIUS /\
    b.(y) = BUBBLE_RADIUS + IZR r * rowHeight.
Proof.
  unfold centred; rewrite getGridPosition_shape; cbn [gp_x gp_y]; intros [Hx Hy].
  eexists; eexists; split; [symmetry; exact Hx | symmetry; exact Hy].
Qed.

Lemma centred_apart (b o : bubble) :
  centred b -> centred o -> (b.(x) <> o.(x) \/ b.(y) <> o.(y)) ->
  BUBBLE_DIAMETER <= dist b o.
Proof.
  intros Hb Ho Hne.
  destruct (centred_cell b Hb) as (r1 & c1 & Hx1 & Hy1).
  destruct (centred_cell o Ho) as (r2 & c2 & Hx2 & Hy2).
  assert (Hrc : ~ (r1 = r2 /\ c1 = c2)).
  { intros [-> ->]; destruct Hne as [H | H]; apply H; congruence. }
  pose proof (cells_apart_Z r1 c1 r2 c2 Hrc) as HZ.
  rewrite !Z.pow_2_r in HZ. apply IZR_le in HZ.
  repeat rewrite ?plus_IZR, ?mult_IZR, ?minus_IZR in HZ.
  unfold dist; rewrite Hx1, Hy1, Hx2, Hy2.
  replace ((BUBBLE_RADIUS + IZR c2 * BUBBLE_DIAMETER + IZR (Z.rem r2 2) * BUBBLE_RADIUS -
            (BUBBLE_RADIUS + IZR c1 * BUBBLE_DIAMETER + IZR (Z.rem r1 2) * BUBBLE_RADIUS)) ^ 2 +
           (BUBBLE_RADIUS + IZR r2 * rowHeight - (BUBBLE_RADIUS + IZR r1 * rowHeight)) ^ 2)
    with (400 * (2 * (IZR c2 - IZR c1) + (IZR (Z.rem r2 2) - IZR (Z.rem r1 2))) ^ 2
          + rowHeight ^ 2 * (IZR r2 - IZR r1) ^ 2)
    by (unfold BUBBLE_DIAMETER, BUBBLE_RADIUS; ring).
  rewrite rowHeight_sq.
  replace BUBBLE_DIAMETER with (sqrt (BUBBLE_DIAMETER ^ 2))
    by (apply sqrt_pow2; unfold BUBBLE_DIAMETER, BUBBLE_RADIUS; lra).
  apply sqrt_le_1_alt. unfold BUBBLE_DIAMETER, BUBBLE_RADIUS.
  lra.
Qed.

(** X2 (isCollidingWith): two radius-20 bubbles sitting at the centres of different hex cells are at least one diameter (40) apart, so they never collide. *)
Theorem isCollidingWith_distinct_cells (b o : bubble)
  (Hb : centred b) (Ho : centred o)
  (Hrb : b.(radius) = BUBBLE_RADIUS) (Hro : o.(radius) = BUBBLE_RADIUS)
  (Hne : b.(x) <> o.(x) \/ b.(y) <> o.(y)) :
  BUBBLE_DIAMETER <= dist b o /\ isCollidingWith b o = false.
Proof.
  pose proof (centred_apart b o Hb Ho Hne) as H.
  split; [exact H|].
  unfold isCollidingWith, Rltb; rewrite Hrb, Hro.
  destruct (Rlt_dec _ _) as [Hl|]; [|reflexivity].
  unfold BUBBLE_DIAMETER, BUBBLE_RADIUS in *; lra.
Qed.

Lemma isCollidingWith_distinct_cells_witness :
  let b := newBubble 20 20 "red"%string true in
  let o := newBubble 60 20 "red"%string true in
  (centred b /\ centred o /\ b.(radius) = BUBBLE_RADIUS /\ o.(radius) = BUBBLE_RADIUS /\
   (b.(x) <> o.(x) \/ b.(y) <> o.(y))) /\
  BUBBLE_DIAMETER <= dist b o /\ isCollidingWith b o = false.
Proof.
  cbv zeta.
  assert (Hb : centred (newBubble 20 20 "red"%string true)).
  { apply (centred_center 0 0); cbn [x y newBubble]; change (Z.rem 0 2) with 0%Z; unfold BUBBLE_DIAMETER, BUBBLE_RADIUS; lra. }
  assert (Ho : centred (newBubble 60 20 "red"%string true)).
  { apply (centred_center 0 1); cbn [x y newBubble]; change (Z.rem 0 2) with 0%Z; unfold BUBBLE_DIAMETER, BUBBLE_RADIUS; lra. }
  assert (Hne : (newBubble 20 20 "red"%string true).(x) <> (newBubble 60 20 "red"%string true).(x)
                \/ (newBubble 20 20 "red"%string true).(y) <> (newBubble 60 20 "red"%string true).(y)).
  { left; simpl; lra. }
  split; [exact (conj Hb (conj Ho (conj eq_refl (conj eq_refl Hne))))|].
  apply isCollidingWith_distinct_cells; auto.
Defined.

(** Snap distance. *)
Lemma snap_near (x0 y0 : R) :
  let p := getGridPosition x0 y0 in
  Rabs (p.(gp_x) - x0) <= BUBBLE_RADIUS /\ Rabs (p.(gp_y) - y0) <= rowHeight / 2.
Proof.
  cbv zeta. pose proof rowHeight_pos as Hh.
  unfold getGridPosition; cbv zeta; cbn [gp_x gp_y].
  set (row := js_round ((y0 - BUBBLE_RADIUS) / rowHeight)).
  set (col := js_round _).
  pose proof (js_round_near ((y0 - BUBBLE_RADIUS) / rowHeight)) as Hr; fold row in Hr.
  pose proof (js_round_near ((x0 - BUBBLE_RADIUS - IZR (Z.rem row 2) * BUBBLE_RADIUS)
                              / BUBBLE_DIAMETER)) as Hc; fold col in Hc.
  split.
  - replace (BUBBLE_RADIUS + IZR col * BUBBLE_DIAMETER + IZR (Z.rem row 2) * BUBBLE_RADIUS - x0)
      with (BUBBLE_DIAMETER * (IZR col - (x0 - BUBBLE_RADIUS - IZR (Z.rem row 2) * BUBBLE_RADIUS)
                                          / BUBBLE_DIAMETER))
      by (unfold BUBBLE_DIAMETER, BUBBLE_RADIUS; field).
    rewrite Rabs_mult, Rabs_right by (unfold BUBBLE_DIAMETER, BUBBLE_RADIUS; lra).
    assert (Rabs (IZR col - (x0 - BUBBLE_RADIUS - IZR (Z.rem row 2) * BUBBLE_RADIUS)
                            / BUBBLE_DIAMETER) <= / 2) by (apply Rabs_le; lra).
    unfold BUBBLE_DIAMETER, BUBBLE_RADIUS in *; lra.
  - replace (BUBBLE_RADIUS + IZR row * rowHeight - y0)
      with (rowHeight * (IZR row - (y0 - BUBBLE_RADIUS) / rowHeight)) by (field; lra).
    rewrite Rabs_mult, (Rabs_right rowHeight) by lra.
    assert (Rabs (IZR row - (y0 - BUBBLE_RADIUS) / rowHeight) <= / 2) by (apply Rabs_le; lra).
    nra.
Qed.

(** X3 (getGridPosition): the snapped cell centre is within one radius of the point horizontally and within half a row height vertically. *)
Theorem getGridPosition_near (x0 y0 : R) :
  let p := getGridPosition x0 y0 in
  Rabs (p.(gp_x) - x0) <= BUBBLE_RADIUS /\ Rabs (p.(gp_y) - y0) <= rowHeight / 2.
Proof. exact (snap_near x0 y0). Qed.

(** Canvas size. *)
Lemma resize_spec (innerWidth innerHeight : R) :
  0 < innerWidth -> 0 < innerHeight ->
  let '(width, height) := resizeCanvas innerWidth innerHeight in
  width * CANVAS_HEIGHT = height * CANVAS_WIDTH /\
  0 < width <= innerWidth /\ 0 < height <= innerHeight /\
  (width = innerWidth \/ height = innerHeight).
Proof.
  intros Hw Hh.
  unfold resizeCanvas, Rltb, CANVAS_WIDTH, CANVAS_HEIGHT; cbv zeta.
  destruct (Rlt_dec _ _) as [Hl | Hl].
  - assert (Hl' : 400 / 600 * innerHeight < innerWidth).
    { apply (Rmult_lt_compat_r innerHeight) in Hl; [|exact Hh].
      replace (innerWidth / innerHeight * innerHeight) with innerWidth in Hl
        by (field; lra). exact Hl. }
    repeat split; try lra.
  - apply Rnot_lt_le in Hl.
    assert (Hl' : innerWidth <= 400 / 600 * innerHeight).
    { apply (Rmult_le_compat_r innerHeight) in Hl; [|lra].
      replace (innerWidth / innerHeight * innerHeight) with innerWidth in Hl
        by (field; lra). exact Hl. }
    repeat split; try (field_simplify; lra); try lra.
Qed.

(** X4 (resizeCanvas): for a positive window the canvas keeps the 400:600 aspect ratio, fits inside the window, and fills its width or its height. *)
Theorem resizeCanvas_fits (innerWidth innerHeight : R)
  (Hw : 0 < innerWidth) (Hh : 0 < innerHeight) :
  let '(width, height) := resizeCanvas innerWidth innerHeight in
  width * CANVAS_HEIGHT = height * CANVAS_WIDTH /\
  0 < width <= innerWidth /\ 0 < height <= innerHeight /\
  (width = innerWidth \/ height = innerHeight).
Proof. exact (resize_spec innerWidth innerHeight Hw Hh). Qed.

(** X5 (getEventCoords): with the canvas sized by resizeCanvas, the scale is the same on both axes, a mouse event at the canvas top-left maps to (0, 0), and a touch at its bottom-right maps to (CANVAS_WIDTH, CANVAS_HEIGHT), whatever the other touches and mouse fields. *)
Theorem getEventCoords_corners (innerWidth innerHeight left top : R)
  (Hw : 0 < innerWidth) (Hh : 0 < innerHeight) :
  let '(width, height) := resizeCanvas innerWidth innerHeight in
  let rect := mkDomRect left top width height in
  CANVAS_WIDTH / width = CANVAS_HEIGHT / height /\
  getEventCoords (mkInputEvent None left top) rect = (0, 0) /\
  (forall ts cX cY,
     getEventCoords (mkInputEvent (Some (mkTouch (left + width) (top + height) :: ts)) cX cY)
       rect = (CANVAS_WIDTH, CANVAS_HEIGHT)).
Proof.
  pose proof (resize_spec innerWidth innerHeight Hw Hh) as H.
  destruct (resizeCanvas innerWidth innerHeight) as [w h].
  destruct H as (Hr & Hw' & Hh' & _).
  unfold getEventCoords; cbn.
  split; [|split; [f_equal; ring | intros ts cX cY; f_equal; field; lra]].
  unfold CANVAS_WIDTH, CANVAS_HEIGHT in *.
  replace (400 / w) with (400 * h / (w * h)) by (field; lra).
  replace (600 / h) with (600 * w / (w * h)) by (field; lra).
  replace (400 * h) with (600 * w) by lra. reflexivity.
Qed.

(** Shooting. *)
Lemma handleShoot_spec (g : game) :
  g.(flyingBubble) = None ->
  let a := g.(cannonAngle) in
  let id := g.(next_obj) in
  let g' := handleShoot g in
  g'.(flyingBubble) = Some id /\ g'.(next_obj) = S id /\
  get g' id = set_vy (set_vx (newBubble (cannonCenterX + cos a * (CANNON_HEIGHT / 2))
                                        (cannonCenterY + sin a * (CANNON_HEIGHT / 2))
                                        (fst (getRandomBubbleColor g)) false)
                             (cos a * SHOOT_SPEED)) (sin a * SHOOT_SPEED) /\
  (forall b, b <> id -> get g' b = get g b) /\
  g'.(gridBubbles) = g.(gridBubbles) /\ g'.(bubbles) = g.(bubbles) ++ [id] /\
  g'.(cannonAngle) = a /\ g'.(score) = g.(score).
Proof.
  intros Hf; unfold handleShoot; rewrite Hf.
  destruct (getRandomBubbleColor g) as [c0 g1] eqn:E.
  pose proof (getRandomBubbleColor_state g) as Hs; rewrite E in Hs; simpl in Hs; subst g1.
  unfold alloc; cbv beta iota zeta.
  split; [reflexivity|]. split; [reflexivity|].
  split.
  { rewrite get_set_bubbles, write_get, Nat.eqb_refl, write_get, Nat.eqb_refl.
    unfold get at 1; cbn [heap set_flyingBubble set_next_obj set_heap next_obj set_rnd_pos].
    rewrite Nat.eqb_refl; reflexivity. }
  split.
  - intros b Hb. rewrite get_set_bubbles, !write_other by exact Hb.
    unfold get; cbn [heap set_flyingBubble set_next_obj set_heap next_obj set_rnd_pos].
    apply Nat.eqb_neq in Hb; rewrite Hb; reflexivity.
  - repeat split; reflexivity.
Qed.

(** X6 (handleShoot, drawAimLine): with no bubble in flight, the aim line drawn has length AIM_LINE_LENGTH, and the shot fired starts on it at half the cannon height and moves along it at speed SHOOT_SPEED. *)
Lemma shot_aim_line (g : game) (Hf : g.(flyingBubble) = None) :
  let a := g.(cannonAngle) in
  let g' := handleShoot g in
  let f := g.(next_obj) in
  exists aimEndX aimEndY,
    drawAimLine g = Some ((cannonCenterX, cannonCenterY), (aimEndX, aimEndY)) /\
    (aimEndX - cannonCenterX) ^ 2 + (aimEndY - cannonCenterY) ^ 2 = AIM_LINE_LENGTH ^ 2 /\
    g'.(flyingBubble) = Some f /\
    (get g' f).(x) = cannonCenterX + CANNON_HEIGHT / 2 / AIM_LINE_LENGTH * (aimEndX - cannonCenterX) /\
    (get g' f).(y) = cannonCenterY + CANNON_HEIGHT / 2 / AIM_LINE_LENGTH * (aimEndY - cannonCenterY) /\
    (get g' f).(vx) = SHOOT_SPEED / AIM_LINE_LENGTH * (aimEndX - cannonCenterX) /\
    (get g' f).(vy) = SHOOT_SPEED / AIM_LINE_LENGTH * (aimEndY - cannonCenterY) /\
    (get g' f).(vx) ^ 2 + (get g' f).(vy) ^ 2 = SHOOT_SPEED ^ 2.
Proof.
  cbv zeta.
  destruct (handleShoot_spec g Hf) as (H1 & _ & H3 & _).
  eexists; eexists; split; [unfold drawAimLine; rewrite Hf; reflexivity|].
  pose proof (sin2_cos2 (cannonAngle g)) as Hsc; unfold Rsqr in Hsc.
  rewrite H3; cbn [x y vx vy set_vx set_vy newBubble].
  unfold AIM_LINE_LENGTH, CANNON_HEIGHT, SHOOT_SPEED.
  split; [nra|]. split; [exact H1|].
  repeat split; try field; nra.
Qed.

(** X7 (drawCannon): the canvas rotation drawCannon applies turns the barrel, drawn along (0, -1), into the aim direction (cos cannonAngle, sin cannonAngle). *)
Lemma drawCannon_direction (g : game) :
  canvas_rotate (snd (drawCannon g)) (0, -1) = (cos g.(cannonAngle), sin g.(cannonAngle)).
Proof.
  unfold canvas_rotate, drawCannon; cbn [fst snd].
  rewrite sin_plus, cos_plus, sin_PI2, cos_PI2. f_equal; ring.
Qed.

(** Aiming. *)
Lemma atan2_upper (dy dx : R) :
  dy <= 0 -> let a := atan2 dy dx in (- PI <= a <= 0 \/ a = PI) /\ sin a <= 0.
Proof.
  intros Hy; cbv zeta.
  assert (Hs : forall a, - PI <= a <= 0 -> sin a <= 0).
  { intros a Ha. replace a with (- - a) by ring. rewrite sin_neg.
    assert (0 <= sin (- a)) by (apply sin_ge_0; lra). lra. }
  pose proof PI_RGT_0 as Hpi.
  assert (Hb : forall v, - (PI / 2) < atan v < PI / 2)
    by (intros v; pose proof (atan_bound v); lra).
  assert (Hmono : forall u v, u <= v -> atan u <= atan v).
  { intros u v [Huv | ->]; [left; apply atan_increasing, Huv | right; reflexivity]. }
  unfold atan2.
  destruct (Rlt_dec 0 dx) as [Hx|Hx].
  - assert (Hq : dy / dx <= 0).
    { unfold Rdiv. pose proof (Rinv_0_lt_compat dx Hx). nra. }
    apply Hmono in Hq; rewrite atan_0 in Hq. pose proof (Hb (dy / dx)).
    split; [left; lra | apply Hs; lra].
  - destruct (Rlt_dec dx 0) as [Hx'|Hx'].
    + destruct (Rle_dec 0 dy) as [Hy'|Hy'].
      * replace dy with 0 by lra. unfold Rdiv; rewrite Rmult_0_l, atan_0, Rplus_0_l.
        split; [right; reflexivity | rewrite sin_PI; lra].
      * assert (Hq : 0 <= dy / dx).
        { unfold Rdiv. pose proof (Rinv_lt_0_compat dx Hx'). nra. }
        apply Hmono in Hq; rewrite atan_0 in Hq. pose proof (Hb (dy / dx)).
        split; [left; lra | apply Hs; lra].
    + destruct (Rlt_dec 0 dy) as [Hy'|Hy']; [lra|].
      destruct (Rlt_dec dy 0) as [Hy''|Hy''].
      * split; [left; lra | apply Hs; lra].
      * split; [left; lra | rewrite sin_0; lra].
Qed.

(** X8 (handleAim): with no bubble in flight and the pointer not below the cannon, the new angle is atan2 of the pointer offset, lies in [-PI, 0] or is PI, and has a non-positive sine. *)
Theorem handleAim_aims_up (g : game) (ex ey : R)
  (Hf : g.(flyingBubble) = None) (Hy : ey <= cannonCenterY) :
  let a := (handleAim g ex ey).(cannonAngle) in
  a = atan2 (ey - cannonCenterY) (ex - cannonCenterX) /\
  (- PI <= a <= 0 \/ a = PI) /\ sin a <= 0.
Proof.
  cbv zeta. unfold handleAim; rewrite Hf; cbv zeta.
  assert (Hd : Rltb 0 (ey - cannonCenterY) = false).
  { unfold Rltb; destruct (Rlt_dec _ _); [lra | reflexivity]. }
  rewrite Hd; cbn [cannonAngle set_cannonAngle].
  split; [reflexivity|]. apply atan2_upper; lra.
Qed.

Lemma handleAim_aims_up_witness :
  (sample_game.(flyingBubble) = None /\ 0 <= cannonCenterY) /\
  let a := (handleAim sample_game 100 0).(cannonAngle) in
  a = atan2 (0 - cannonCenterY) (100 - cannonCenterX) /\
  (- PI <= a <= 0 \/ a = PI) /\ sin a <= 0.
Proof.
  assert (H : 0 <= cannonCenterY)
    by (unfold cannonCenterY, CANVAS_HEIGHT, CANNON_HEIGHT; lra).
  split; [split; [reflexivity | exact H]|].
  exact (handleAim_aims_up sample_game 100 0 eq_refl H).
Defined.

(** Walls. *)
(** X9 (updateGame, wall bounce): after the wall test a radius-20 bubble lies between the walls, with y, vy and radius unchanged and the speed |vx| unchanged. *)
Theorem wallStep_in_bounds (b : bubble) (Hr : b.(radius) = BUBBLE_RADIUS) :
  let w := wallStep b in
  w.(radius) <= w.(x) <= CANVAS_WIDTH - w.(radius) /\
  w.(y) = b.(y) /\ w.(vy) = b.(vy) /\ w.(radius) = b.(radius) /\
  Rabs w.(vx) = Rabs b.(vx).
Proof.
  cbv zeta.
  destruct b as [bx0 by0 c r gr bvx bvy p f]; simpl in Hr; subst r.
  unfold wallStep, Rltb; cbn.
  unfold CANVAS_WIDTH, BUBBLE_RADIUS in *.
  repeat (destruct (Rlt_dec _ _); cbn in * ); try lra;
    repeat split; try lra; try reflexivity;
    try (rewrite <- Rabs_Ropp; f_equal; lra).
Qed.

Lemma wallStep_in_bounds_witness :
  sample_bubble.(radius) = BUBBLE_RADIUS /\
  let w := wallStep sample_bubble in
  w.(radius) <= w.(x) <= CANVAS_WIDTH - w.(radius) /\
  w.(y) = sample_bubble.(y) /\ w.(vy) = sample_bubble.(vy) /\
  w.(radius) = sample_bubble.(radius) /\ Rabs w.(vx) = Rabs sample_bubble.(vx).
Proof. split; [reflexivity | apply (wallStep_in_bounds sample_bubble eq_refl)]. Defined.


Lemma dropBubble_idem (bb : bubble) : dropBubble (dropBubble bb) = dropBubble bb.
Proof. destruct bb; reflexivity. Qed.

Lemma mem_app (z : nat) (l1 l2 : list nat) : mem z (l1 ++ l2) = mem z l1 || mem z l2.
Proof. unfold mem; apply existsb_app. Qed.

Lemma firstn_S_nth (A : Type) (l : list A) (i : nat) (b : A) :
  nth_error l i = Some b -> firstn (S i) l = firstn i l ++ [b].
Proof.
  revert l; induction i as [|i IH]; intros [|h t] H; simpl in *; try discriminate.
  - injection H as ->; reflexivity.
  - f_equal; apply IH, H.
Qed.

Lemma skipn_nth (A : Type) (l : list A) (i : nat) (b : A) :
  nth_error l i = Some b -> skipn i l = b :: skipn (S i) l.
Proof.
  revert l; induction i as [|i IH]; intros [|h t] H; simpl in *; try discriminate.
  - injection H as ->; reflexivity.
  - apply IH, H.
Qed.

Lemma dropFloating_spec (conn : list nat) (i : nat) :
  forall (g : game) (fl : list nat),
  (i <= length g.(gridBubbles))%nat ->
  let l := g.(gridBubbles) in
  let kept := filter (fun b => mem b conn) (firstn i l) in
  let dropped := filter (fun b => negb (mem b conn)) (firstn i l) in
  let '(g', fl') := dropFloating conn i g fl in
  g'.(gridBubbles) = kept ++ skipn i l /\
  fl' = fl ++ rev dropped /\
  g'.(bubbles) = fold_left (fun acc b => remove_first b acc) (rev dropped) g.(bubbles) /\
  g'.(score) = (g.(score) + 5 * Z.of_nat (length dropped))%Z /\
  g'.(cannonAngle) = g.(cannonAngle) /\
  (forall b, get g' b = if mem b dropped then dropBubble (get g b) else get g b).
Proof.
  induction i as [|i IH]; intros g fl Hi; cbv zeta.
  - simpl. repeat split; try reflexivity.
    + rewrite app_nil_r; reflexivity.
    + lia.
  - simpl dropFloating.
    destruct (nth_error (gridBubbles g) i) as [b|] eqn:E;
      [|apply nth_error_None in E; lia].
    rewrite (firstn_S_nth _ _ _ _ E), !filter_app.
    destruct (mem b conn) eqn:Eb; cbn [filter negb].
    + rewrite Eb; cbn [negb]. rewrite !app_nil_r.
      specialize (IH g fl ltac:(lia)); cbv zeta in IH.
      destruct (dropFloating conn i g fl) as [g' fl'].
      destruct IH as (H1 & H2 & H3 & H4 & H5 & H6).
      repeat split; try assumption.
      rewrite H1, (skipn_nth _ _ _ _ E), <- app_assoc; reflexivity.
    + rewrite Eb; cbn [negb].
      set (g5 := set_score _ _).
      assert (G5 : gridBubbles g5 = firstn i (gridBubbles g) ++ skipn (S i) (gridBubbles g))
        by reflexivity.
      assert (Hlt : (i < length (gridBubbles g))%nat)
        by (apply nth_error_Some; congruence).
      assert (Hlen : length (firstn i (gridBubbles g)) = i)
        by (apply firstn_length_le; lia) .
      specialize (IH g5 (fl ++ [b])); cbv zeta in IH.
      rewrite G5 in IH.
      rewrite firstn_app, Hlen, Nat.sub_diag, firstn_O, app_nil_r, firstn_firstn,
        Nat.min_id in IH.
      rewrite skipn_app, Hlen, Nat.sub_diag, skipn_O in IH.
      rewrite (skipn_all2 (firstn i (gridBubbles g))) in IH by lia.
      cbn [app] in IH.
      assert (Hl5 : (i <= length (firstn i (gridBubbles g) ++ skipn (S i) (gridBubbles g)))%nat)
        by (rewrite length_app; lia).
      specialize (IH Hl5).
      destruct (dropFloating conn i g5 (fl ++ [b])) as [g' fl'].
      destruct IH as (H1 & H2 & H3 & H4 & H5 & H6).
      split; [rewrite H1, app_nil_r; reflexivity|].
      split; [rewrite H2, rev_app_distr, <- app_assoc; reflexivity|].
      split; [rewrite H3, rev_app_distr; reflexivity|].
      split; [rewrite H4, length_app; change (score g5) with (score g + 5)%Z; simpl length; lia|].
      split; [rewrite H5; reflexivity|].
      intros z; rewrite H6, mem_app.
      assert (Gz : get g5 z = if Nat.eqb z b then dropBubble (get g b) else get g z).
      { unfold g5; cbn [get]; unfold get, write, set_score, set_heap; cbn.
        destruct (Nat.eqb z b) eqn:Ez; [|reflexivity].
        rewrite Nat.eqb_refl; reflexivity. }
      rewrite Gz. simpl mem.
      destruct (Nat.eqb z b) eqn:Ez.
      * apply Nat.eqb_eq in Ez; subst z. rewrite orb_true_r.
        destruct (mem b (filter _ _)); [apply dropBubble_idem | reflexivity].
      * rewrite orb_false_r; reflexivity.
Qed.

Lemma checkFloatingBubbles_eqn (g : game) :
  let q := ceilingSeeds g in
  let conn := bfs (getNeighbors g) (fun _ => true)
                  (length q + length g.(gridBubbles)) 0 q in
  let dropped := filter (fun b => negb (mem b conn)) g.(gridBubbles) in
  let g' := checkFloatingBubbles g in
  g'.(gridBubbles) = filter (fun b => mem b conn) g.(gridBubbles) /\
  g'.(bubbles) = fold_left (fun acc b => remove_first b acc) (rev dropped) g.(bubbles)
                 ++ rev dropped /\
  g'.(score) = (g.(score) + 5 * Z.of_nat (length dropped))%Z /\
  g'.(cannonAngle) = g.(cannonAngle) /\
  (forall b, get g' b = if mem b dropped then dropBubble (get g b) else get g b).
Proof.
  cbv zeta. unfold checkFloatingBubbles.
  set (conn := bfs _ _ _ 0 _).
  pose proof (dropFloating_spec conn (length (gridBubbles g)) g [] (le_n _)) as H.
  cbv zeta in H. rewrite firstn_all, skipn_all, app_nil_r in H.
  destruct (dropFloating conn (length (gridBubbles g)) g []) as [g1 fl].
  destruct H as (H1 & H2 & H3 & H4 & H5 & H6).
  subst fl. cbn [gridBubbles bubbles score cannonAngle set_bubbles].
  split; [exact H1|]. split; [rewrite H3; reflexivity|].
  split; [exact H4|]. split; [exact H5|].
  intros b; rewrite get_set_bubbles; apply H6.
Qed.

Lemma bfs_incl (nb : nat -> list nat) (acc : nat -> bool) (fuel head : nat) (q : list nat) :
  incl q (bfs nb acc fuel head q).
Proof.
  revert head q; induction fuel as [|f IH]; intros head q; simpl; [apply incl_refl|].
  destruct (nth_error q head) as [cur|]; [|apply incl_refl].
  destruct (bfs_visit_prefix nb acc q cur) as [ext He].
  intros z Hz; apply IH; rewrite He; apply in_or_app; left; exact Hz.
Qed.

(** X11 (checkFloatingBubbles): on a grid without duplicates, a bubble stays in the grid exactly when it is linked to a ceiling seed by a chain of colliding grid neighbours. *)
Theorem checkFloatingBubbles_reach (g : game) (Hnd : NoDup g.(gridBubbles)) :
  forall b, In b (checkFloatingBubbles g).(gridBubbles) <->
    In b g.(gridBubbles) /\
    exists s, In s (ceilingSeeds g) /\
              clos_refl_trans_1n nat (fun u v => In v (getNeighbors g u)) s b.
Proof.
  intros b. destruct (checkFloatingBubbles_eqn g) as [H1 _]. rewrite H1, filter_In, mem_In.
  rewrite (bfs_reach (getNeighbors g) (fun _ => true) g.(gridBubbles) (ceilingSeeds g)).
  - split; intros [Hb (s & Hs & Hr)]; split; try exact Hb; exists s; split; try exact Hs;
      revert Hr; apply crt_iff; intros u v; tauto.
  - apply getNeighbors_incl.
  - intros z Hz; unfold ceilingSeeds in Hz; now apply filter_In in Hz.
  - unfold ceilingSeeds; apply NoDup_filter, Hnd.
  - lia.
Qed.


Lemma colliding_same_place (b o : bubble) :
  centred b -> centred o -> b.(radius) = BUBBLE_RADIUS -> o.(radius) = BUBBLE_RADIUS ->
  isCollidingWith b o = true -> b.(x) = o.(x) /\ b.(y) = o.(y).
Proof.
  intros Hb Ho Hrb Hro Hc.
  destruct (Req_dec b.(x) o.(x)) as [Ex|Ex]; [destruct (Req_dec b.(y) o.(y)) as [Ey|Ey]|].
  - split; assumption.
  - pose proof (centred_apart b o Hb Ho (or_intror Ey)).
    unfold isCollidingWith, Rltb in Hc; rewrite Hrb, Hro in Hc.
    destruct (Rlt_dec _ _); [|discriminate]. unfold BUBBLE_DIAMETER, BUBBLE_RADIUS in *; lra.
  - pose proof (centred_apart b o Hb Ho (or_introl Ex)).
    unfold isCollidingWith, Rltb in Hc; rewrite Hrb, Hro in Hc.
    destruct (Rlt_dec _ _); [|discriminate]. unfold BUBBLE_DIAMETER, BUBBLE_RADIUS in *; lra.
Qed.

Lemma neighbor_same_place (g : game) (u v : nat) :
  centredGrid g -> In u g.(gridBubbles) -> In v (getNeighbors g u) ->
  In v g.(gridBubbles) /\ v <> u /\
  (get g v).(x) = (get g u).(x) /\ (get g v).(y) = (get g u).(y).
Proof.
  intros Hg Hu Hv. unfold getNeighbors in Hv; apply filter_In in Hv as [Hv Hc].
  apply andb_true_iff in Hc as [Hne Hc]. apply negb_true_iff, Nat.eqb_neq in Hne.
  destruct (Hg u Hu) as [Cu Ru]; destruct (Hg v Hv) as [Cv Rv].
  destruct (colliding_same_place _ _ Cu Cv Ru Rv Hc) as [Ex Ey].
  repeat split; auto.
Qed.

Lemma checkFloatingBubbles_top_eqn (g : game) (Hg : centredGrid g) :
  (checkFloatingBubbles g).(gridBubbles) =
  filter (fun b => Rleb (get g b).(y) (BUBBLE_RADIUS * 2)) g.(gridBubbles).
Proof.
  destruct (checkFloatingBubbles_eqn g) as [H1 _]; rewrite H1.
  apply filter_ext_in. intros b Hb.
  set (conn := bfs _ _ _ 0 _).
  destruct (Rleb (get g b).(y) (BUBBLE_RADIUS * 2)) eqn:Ey.
  - apply mem_In. apply bfs_incl. unfold ceilingSeeds; apply filter_In; split; assumption.
  - destruct (mem b conn) eqn:Em; [|reflexivity]. apply mem_In in Em.
    assert (P : forall z, In z conn ->
                 In z g.(gridBubbles) /\ Rleb (get g z).(y) (BUBBLE_RADIUS * 2) = true).
    { apply bfs_sound.
      - intros z Hz; unfold ceilingSeeds in Hz; now apply filter_In in Hz.
      - intros u v [Hu Hyu] [Huv _].
        destruct (neighbor_same_place g u v Hg Hu Huv) as (Hv & _ & _ & Eyv).
        split; [exact Hv|]. rewrite Eyv; exact Hyu. }
    destruct (P b Em) as [_ Hy]; congruence.
Qed.

Lemma checkMatches_distinct_eqn (g : game) (s : nat)
  (Hg : centredGrid g) (Hs : In s g.(gridBubbles)) (Hd : distinctPos g) :
  getNeighbors g s = [] /\ checkMatches g s = g.
Proof.
  assert (Hnb : forall v, ~ In v (getNeighbors g s)).
  { intros v Huv.
    destruct (neighbor_same_place g s v Hg Hs Huv) as (Hv & Hne & Ex & Ey).
    destruct (Hd v s Hv Hs Hne) as [H | H]; contradiction. }
  split; [destruct (getNeighbors g s) as [|v l]; [reflexivity | destruct (Hnb v (or_introl eq_refl))]|].
  unfold checkMatches.
  assert (Hc : forall z, In z (getConnectedSameColorBubbles g s) -> z = s).
  { unfold getConnectedSameColorBubbles. apply bfs_sound.
    - intros z [<- | []]; reflexivity.
    - intros u v -> [Huv _]. destruct (Hnb v Huv). }
  assert (Hn : NoDup (getConnectedSameColorBubbles g s)).
  { apply bfs_NoDup; repeat constructor; simpl; tauto. }
  assert (Hl : (length (getConnectedSameColorBubbles g s) <= 1)%nat).
  { apply (NoDup_incl_length Hn (l' := [s])). intros z Hz; left; symmetry; apply Hc, Hz. }
  replace (Nat.leb 3 _) with false by (symmetry; apply Nat.leb_gt; lia).
  reflexivity.
Qed.

(** X13 (checkMatches, getNeighbors): on a grid of centred radius-20 bubbles where no two share a position, a grid bubble has no neighbour, and checkMatches on it pops nothing and leaves the state unchanged, whatever the colours. *)
Theorem checkMatches_distinct_cells (g : game) (s : nat)
  (Hg : centredGrid g) (Hs : In s g.(gridBubbles))
  (Hd : forall b o, In b g.(gridBubbles) -> In o g.(gridBubbles) -> b <> o ->
        (get g b).(x) <> (get g o).(x) \/ (get g b).(y) <> (get g o).(y)) :
  getNeighbors g s = [] /\ checkMatches g s = g.
Proof. exact (checkMatches_distinct_eqn g s Hg Hs Hd). Qed.

(** keepsShape *)
Lemma keepsShape_refl (g : game) : keepsShape g g.
Proof. split; [reflexivity | split; [lia | reflexivity]]. Qed.

Lemma keepsShape_trans (g1 g2 g3 : game) :
  keepsShape g1 g2 -> keepsShape g2 g3 -> keepsShape g1 g3.
Proof.
  intros (A1 & S1 & R1) (A2 & S2 & R2); split; [congruence|]. split; [lia|].
  intros b; rewrite R2, R1; reflexivity.
Qed.

Lemma write_shape (g : game) (id : nat) (f : bubble -> bubble) :
  (forall bb, (f bb).(radius) = bb.(radius)) -> keepsShape g (write g id f).
Proof.
  intros Hf; split; [reflexivity | split; [apply Z.le_refl|]].
  intros b; rewrite write_get; destruct (Nat.eqb b id) eqn:E; [|reflexivity].
  apply Nat.eqb_eq in E; subst; apply Hf.
Qed.

Lemma popBubbles_shape (g : game) (l : list nat) : keepsShape g (popBubbles g l).
Proof.
  unfold popBubbles.
  assert (H : forall l g, keepsShape g (fold_left popOne l g)).
  { induction l0 as [|b l0 IH]; intros g0; simpl; [apply keepsShape_refl|].
    eapply keepsShape_trans; [|apply IH].
    apply (write_shape g0 b (fun bb => set_isPopping bb true)); reflexivity. }
  eapply keepsShape_trans; [|apply H].
  split; [reflexivity | split; [|reflexivity]]. cbn [score set_score].
  unfold POP_SCORE; lia.
Qed.

Lemma checkMatches_shape (g : game) (s : nat) : keepsShape g (checkMatches g s).
Proof.
  unfold checkMatches; destruct (Nat.leb _ _); [apply popBubbles_shape | apply keepsShape_refl].
Qed.

Lemma checkFloatingBubbles_shape (g : game) : keepsShape g (checkFloatingBubbles g).
Proof.
  destruct (checkFloatingBubbles_eqn g) as (_ & _ & H3 & H4 & H5); cbv zeta in *.
  split; [exact H4|]. split; [rewrite H3; lia|].
  intros b; rewrite H5; destruct (mem b _); reflexivity.
Qed.

Lemma checkGameOver_shape (g : game) : keepsShape g (checkGameOver g).
Proof.
  unfold checkGameOver, cancelAnimationFrame.
  destruct (existsb _ _); [|destruct (match gridBubbles g, flyingBubble g with
                                      | [], None => true | _, _ => false end)];
    cbn [pending_frame set_alerts];
    try (destruct (pending_frame g) as [p|]; [destruct (Nat.eqb p _)|]);
    (split; [reflexivity | split; [apply Z.le_refl | reflexivity]]).
Qed.

Lemma checkGameOver_grid (g : game) : (checkGameOver g).(gridBubbles) = g.(gridBubbles).
Proof.
  unfold checkGameOver, cancelAnimationFrame.
  destruct (existsb _ _); [|destruct (match gridBubbles g, flyingBubble g with
                                      | [], None => true | _, _ => false end)];
    cbn [pending_frame set_alerts];
    try (destruct (pending_frame g) as [p|]; [destruct (Nat.eqb p _)|]);
    reflexivity.
Qed.

Lemma checkGameOver_get (g : game) (b : nat) : get (checkGameOver g) b = get g b.
Proof.
  unfold checkGameOver, cancelAnimationFrame.
  destruct (existsb _ _); [|destruct (match gridBubbles g, flyingBubble g with
                                      | [], None => true | _, _ => false end)];
    cbn [pending_frame set_alerts];
    try (destruct (pending_frame g) as [p|]; [destruct (Nat.eqb p _)|]);
    reflexivity.
Qed.

Lemma drawFilter_frame (l : list nat) (g : game) :
  keepsShape g (snd (drawFilter l g)) /\
  (snd (drawFilter l g)).(gridBubbles) = g.(gridBubbles) /\
  forall b, (get (snd (drawFilter l g)) b).(vy) = (get g b).(vy).
Proof.
  revert g; induction l as [|b l IH]; intros g; simpl.
  - split; [apply keepsShape_refl | split; reflexivity].
  - destruct (isPopping (get g b)).
    + set (g1 := write g b _).
      destruct (IH g1) as (S1 & G1 & V1).
      destruct (drawFilter l g1) as [rest g2]; simpl in *.
      split; [apply (keepsShape_trans g g1 g2); [apply write_shape; reflexivity | exact S1]|].
      split; [exact G1|].
      intros z; rewrite V1; unfold get.
      destruct (Nat.eqb z b) eqn:E; [apply Nat.eqb_eq in E; subst z|]; reflexivity.
    + destruct (IH g) as (S1 & G1 & V1).
      destruct (drawFilter l g) as [rest g2]; exact (conj S1 (conj G1 V1)).
Qed.

Lemma drawGame_frame (g : game) :
  keepsShape g (drawGame g) /\ (drawGame g).(gridBubbles) = g.(gridBubbles) /\
  forall b, (get (drawGame g) b).(vy) = (get g b).(vy).
Proof.
  unfold drawGame, drawBubbles. pose proof (drawFilter_frame (bubbles g) g) as H.
  destruct (drawFilter _ g) as [l g1]; exact H.
Qed.

Lemma moveStep_wallStep_fields (bb : bubble) :
  (wallStep (moveStep bb)).(radius) = bb.(radius) /\
  (wallStep (moveStep bb)).(vy) = bb.(vy).
Proof.
  unfold wallStep; destruct (_ || _); [|split; reflexivity].
  destruct (Rltb _ _); destruct (Rltb _ _); split; reflexivity.
Qed.

(** The passes after the move, in [settle]. *)
Ltac shape_conv := split; [reflexivity | split; [apply Z.le_refl | reflexivity]].

Lemma settle_shape (g : game) (f : nat) : keepsShape g (settle g f).
Proof.
  unfold settle; cbv zeta.
  set (g1 := write g f _). set (g2 := snapBubbleToGrid g1 f).
  set (g3 := set_gridBubbles g2 _). set (g4 := checkMatches g3 f).
  set (g5 := set_flyingBubble g4 None). set (g6 := checkFloatingBubbles g5).
  apply (keepsShape_trans g g3);
    [|apply (keepsShape_trans g3 g4); [apply checkMatches_shape|]].
  - apply (keepsShape_trans g g1); [apply write_shape; reflexivity|].
    apply (keepsShape_trans g1 g2); [|shape_conv].
    unfold g2, snapBubbleToGrid; cbv zeta.
    apply (keepsShape_trans g1 (write g1 f (fun bb => set_x bb
             (gp_x (getGridPosition (x (get g1 f)) (y (get g1 f)))))));
      apply write_shape; reflexivity.
  - apply (keepsShape_trans g4 g5); [shape_conv|].
    apply (keepsShape_trans g5 g6); [apply checkFloatingBubbles_shape | apply checkGameOver_shape].
Qed.

Lemma updateGame_shape (g : game) : keepsShape g (updateGame g).
Proof.
  unfold updateGame; destruct (flyingBubble g) as [f|]; [|apply keepsShape_refl].
  assert (W : keepsShape g (write g f (fun bb => wallStep (moveStep bb))))
    by (apply write_shape; intros bb; apply moveStep_wallStep_fields).
  destruct (_ || _); [eapply keepsShape_trans; [exact W | apply settle_shape] | exact W].
Qed.

Lemma gameLoop_shape (g : game) : keepsShape g (gameLoop g).
Proof.
  eapply keepsShape_trans; [apply updateGame_shape|].
  destruct (drawGame_frame (updateGame g)) as [S _]. exact S.
Qed.

(** NoDup of the grid. *)
Lemma popBubbles_nodup (g : game) (l : list nat) :
  NoDup g.(gridBubbles) -> NoDup (popBubbles g l).(gridBubbles).
Proof. intros H; unfold popBubbles; apply (popLoop_grid l (set_score g _) H). Qed.

Lemma checkMatches_nodup (g : game) (s : nat) :
  NoDup g.(gridBubbles) -> NoDup (checkMatches g s).(gridBubbles).
Proof. intros H; unfold checkMatches; destruct (Nat.leb _ _); [apply popBubbles_nodup|]; exact H. Qed.

Lemma checkFloatingBubbles_nodup (g : game) :
  NoDup g.(gridBubbles) -> NoDup (checkFloatingBubbles g).(gridBubbles).
Proof.
  intros H; destruct (checkFloatingBubbles_eqn g) as [H1 _]; rewrite H1.
  apply NoDup_filter, H.
Qed.

Lemma settle_nodup (g : game) (f : nat) :
  NoDup g.(gridBubbles) -> ~ In f g.(gridBubbles) -> NoDup (settle g f).(gridBubbles).
Proof.
  intros Hnd Hf. unfold settle; cbv zeta. rewrite checkGameOver_grid.
  apply checkFloatingBubbles_nodup.
  change (gridBubbles (set_flyingBubble ?g4 None)) with (gridBubbles g4).
  apply checkMatches_nodup.
  change (NoDup (gridBubbles g ++ [f])).
  apply NoDup_app; [exact Hnd | repeat constructor; simpl; tauto|].
  intros z Hz [<- | []]; exact (Hf Hz).
Qed.

Lemma settle_flying (g : game) (f : nat) : (settle g f).(flyingBubble) = None.
Proof.
  unfold settle; cbv zeta.
  set (g5 := set_flyingBubble _ None).
  destruct (checkGameOver_meta (checkFloatingBubbles g5)) as [_ F1]; rewrite F1.
  destruct (checkFloatingBubbles_meta g5) as [_ F2]; rewrite F2. reflexivity.
Qed.

Lemma updateGame_flying (g : game) (f : nat) :
  (updateGame g).(flyingBubble) = Some f ->
  g.(flyingBubble) = Some f /\ (get (updateGame g) f).(vy) = (get g f).(vy).
Proof.
  unfold updateGame; destruct (flyingBubble g) as [f0|] eqn:Ef;
    [|intros H; rewrite Ef in H; discriminate H].
  destruct (_ || _); [rewrite settle_flying; discriminate|].
  intros H; change (flyingBubble g = Some f) in H; rewrite Ef in H.
  injection H as <-. split; [reflexivity|].
  rewrite write_get, Nat.eqb_refl. apply moveStep_wallStep_fields.
Qed.

Lemma updateGame_nodup (g : game) :
  gridInv g -> NoDup g.(gridBubbles) -> NoDup (updateGame g).(gridBubbles).
Proof.
  intros [_ Hfl] Hnd; unfold updateGame.
  destruct (flyingBubble g) as [f|] eqn:Ef; [|exact Hnd].
  destruct (_ || _); [|exact Hnd].
  apply settle_nodup; [exact Hnd|]. exact (proj2 (Hfl f eq_refl)).
Qed.

(** The run invariant. *)
Lemma runInv_updateGame (g : game) : runInv g -> runInv (updateGame g).
Proof.
  intros (Hgi & Hnd & Hr & Hs & Hv).
  destruct (updateGame_shape g) as (A & _ & R).
  split; [apply updateGame_gridInv, Hgi|].
  split; [apply updateGame_nodup; assumption|].
  split; [intros b; rewrite R; apply Hr|].
  split; [rewrite A; exact Hs|].
  intros f Hf; destruct (updateGame_flying g f Hf) as [Hf' Hvy]. rewrite Hvy; apply Hv, Hf'.
Qed.

Lemma runInv_drawGame (g : game) : runInv g -> runInv (drawGame g).
Proof.
  intros (Hgi & Hnd & Hr & Hs & Hv).
  destruct (drawGame_frame g) as ((A & _ & R) & G & V).
  destruct (drawGame_meta g) as [_ F].
  split; [exact (gridInv_keeps _ _ (drawGame_keeps g) (drawGame_meta g) Hgi)|].
  split; [rewrite G; exact Hnd|].
  split; [intros b; rewrite R; apply Hr|].
  split; [rewrite A; exact Hs|].
  intros f Hf; rewrite F in Hf; rewrite V; apply Hv, Hf.
Qed.

Lemma runInv_gameLoop (g : game) : runInv g -> runInv (gameLoop g).
Proof. intros H; exact (runInv_drawGame _ (runInv_updateGame _ H)). Qed.

Lemma runInv_handleAim (g : game) (ex ey : R) : runInv g -> runInv (handleAim g ex ey).
Proof.
  intros Hinv; unfold handleAim.
  destruct (flyingBubble g) as [f|] eqn:Ef; [exact Hinv|]. cbv zeta.
  destruct (Rltb 0 (ey - cannonCenterY)) eqn:Ed; [exact Hinv|].
  destruct Hinv as (Hgi & Hnd & Hr & Hs & Hv).
  split; [exact Hgi|]. split; [exact Hnd|]. split; [exact Hr|].
  split.
  - cbn [cannonAngle set_cannonAngle]. apply atan2_upper.
    unfold Rltb in Ed; destruct (Rlt_dec _ _); [discriminate|lra].
  - intros f Hf; cbn [flyingBubble set_cannonAngle] in Hf; congruence.
Qed.

Lemma runInv_handleShoot (g : game) : runInv g -> runInv (handleShoot g).
Proof.
  intros Hinv. pose proof (handleShoot_gridInv g (proj1 Hinv)) as GI.
  destruct (flyingBubble g) as [f|] eqn:Ef.
  { unfold handleShoot; rewrite Ef; exact Hinv. }
  destruct Hinv as (Hgi & Hnd & Hr & Hs & Hv).
  destruct (handleShoot_spec g Ef) as (F & _ & Hnew & Hold & G & _ & A & _).
  split; [exact GI|]. split; [rewrite G; exact Hnd|].
  split.
  { intros b; destruct (Nat.eq_dec b (next_obj g)) as [->|Hb];
      [rewrite Hnew; reflexivity | rewrite Hold by exact Hb; apply Hr]. }
  split; [rewrite A; exact Hs|].
  intros f' Hf'; rewrite F in Hf'; injection Hf' as <-.
  rewrite Hnew; cbn [vy set_vy set_vx newBubble]. unfold SHOOT_SPEED; lra.
Qed.

Lemma runInv_step (g : game) (e : event) : runInv g -> runInv (step g e).
Proof.
  intros H; destruct e as [|ex ey|]; simpl.
  - unfold runFrame; destruct (pending_frame g); [|exact H].
    apply runInv_gameLoop; exact H.
  - apply runInv_handleAim, H.
  - apply runInv_handleShoot, H.
Qed.

Lemma generateCell_nodup (r c : nat) (g : game) :
  gridInv g -> NoDup g.(gridBubbles) -> (forall b, (get g b).(radius) = BUBBLE_RADIUS) ->
  NoDup (generateCell r c g).(gridBubbles) /\
  (forall b, (get (generateCell r c g) b).(radius) = BUBBLE_RADIUS).
Proof.
  intros [Hg _] Hnd Hr; unfold generateCell; cbv zeta.
  destruct (_ && _); [|split; assumption].
  destruct (getRandomBubbleColor g) as [c0 g1] eqn:E.
  pose proof (getRandomBubbleColor_state g) as Hs; rewrite E in Hs; simpl in Hs; subst g1.
  match goal with |- context [alloc ?g1 ?bb] => destruct (alloc g1 bb) as [id g2] eqn:Ea end.
  destruct (alloc_spec _ _ _ _ Ea) as (Hid & Hn & Hgr & Hf & Hnew & Hold).
  change (next_obj (set_rnd_pos g _)) with (next_obj g) in Hid.
  split.
  - unfold pushBoth; cbn [gridBubbles set_gridBubbles]. rewrite Hgr.
    apply NoDup_app; [exact Hnd | repeat constructor; simpl; tauto|].
    intros z Hz [<- | []]. destruct (Hg id Hz); lia.
  - intros b; change (get (pushBoth g2 id) b) with (get g2 b).
    destruct (Nat.eq_dec b id) as [->|Hb]; [rewrite Hnew; reflexivity|].
    rewrite Hold by exact Hb; apply Hr.
Qed.

Lemma initGame_runInv (draws : nat -> Q) : runInv (initGame draws).
Proof.
  destruct (initGame_aim draws) as [F A].
  split; [apply initGame_gridInv|].
  assert (H : NoDup (initGame draws).(gridBubbles) /\
              forall b, (get (initGame draws) b).(radius) = BUBBLE_RADIUS).
  { unfold initGame; cbv zeta. unfold generateInitialGrid.
    set (g0 := mkGame _ _ _ _ _ _ _ _ _ _ _ _ _).
    assert (I0 : gridInv g0) by (split; [intros b [] | intros f Hf; discriminate Hf]).
    assert (N0 : NoDup g0.(gridBubbles) /\ forall b, (get g0 b).(radius) = BUBBLE_RADIUS)
      by (split; [constructor | intros; reflexivity]).
    change (NoDup (fold_left (fun g r => generateRow r g) (seq 0 INITIAL_GRID_ROWS) g0).(gridBubbles)
            /\ forall b, (get (fold_left (fun g r => generateRow r g)
                                  (seq 0 INITIAL_GRID_ROWS) g0) b).(radius) = BUBBLE_RADIUS).
    revert I0 N0; generalize g0; generalize (seq 0 INITIAL_GRID_ROWS) as rows.
    intros rows; induction rows as [|r rows IH]; intros g I N; simpl; [exact N|].
    apply IH.
    - unfold generateRow. generalize (seq 0 (GRID_COLS - (if Nat.even r then 0 else 1))).
      intros cols; revert g I N; induction cols as [|c cols IHc]; intros g I N; simpl; [exact I|].
      apply IHc; [apply generateCell_gridInv, I|apply generateCell_nodup; tauto].
    - unfold generateRow. generalize (seq 0 (GRID_COLS - (if Nat.even r then 0 else 1))).
      intros cols; revert g I N; induction cols as [|c cols IHc]; intros g I N; simpl; [exact N|].
      apply IHc; [apply generateCell_gridInv, I|apply generateCell_nodup; tauto]. }
  destruct H as [H1 H2].
  split; [exact H1|]. split; [exact H2|].
  split; [rewrite A, sin_0; lra|].
  intros f Hf; rewrite F in Hf; discriminate Hf.
Qed.

Lemma run_runInv (draws : nat -> Q) (es : list event) : runInv (run draws es).
Proof.
  unfold run; generalize (initGame_runInv draws); generalize (initGame draws).
  induction es as [|e es IH]; intros g Hg; simpl; [exact Hg|].
  apply IH, runInv_step, Hg.
Qed.

Lemma runInv_centredGrid (g : game) : runInv g -> centredGrid g.
Proof. intros (Hgi & _ & Hr & _); intros b Hb; split; [exact (proj2 (proj1 Hgi b Hb)) | apply Hr]. Qed.

(** The grid seen by the gravity pass of a settle is centred. *)
Lemma settle_mid_centred (h : game) (f : nat) :
  gridInv h -> h.(flyingBubble) = Some f -> (forall b, (get h b).(radius) = BUBBLE_RADIUS) ->
  let g1 := write h f (fun bb => set_isGrid bb true) in
  let g2 := snapBubbleToGrid g1 f in
  let g3 := set_gridBubbles g2 (g2.(gridBubbles) ++ [f]) in
  centredGrid (set_flyingBubble (checkMatches g3 f) None).
Proof.
  intros [Hg Hfl] Ef Hr; cbv zeta. destruct (Hfl f Ef) as [_ Hni].
  set (g3 := set_gridBubbles _ _).
  destruct (checkMatches_keeps g3 f) as [Hp Hi].
  destruct (checkMatches_shape g3 f) as (_ & _ & Hrad).
  intros b Hb. change (In b (checkMatches g3 f).(gridBubbles)) in Hb.
  change (get (set_flyingBubble (checkMatches g3 f) None) b) with (get (checkMatches g3 f) b).
  apply Hi in Hb.
  assert (C : centred (get g3 b) /\ (get g3 b).(radius) = BUBBLE_RADIUS).
  { change (In b (gridBubbles h ++ [f])) in Hb.
    apply in_app_iff in Hb as [Hb | [<- | []]].
    - assert (Hbf : b <> f) by (intros ->; exact (Hni Hb)).
      unfold g3; rewrite get_set_gridBubbles; unfold snapBubbleToGrid; cbv zeta.
      rewrite !write_other by exact Hbf. split; [exact (proj2 (Hg b Hb)) | apply Hr].
    - unfold g3; rewrite get_set_gridBubbles; unfold snapBubbleToGrid; cbv zeta.
      rewrite !write_get, Nat.eqb_refl. split; [apply centred_snap|].
      cbn [radius set_y set_x set_isGrid]; apply Hr. }
  destruct C as [C R]; destruct (Hp b) as [Ex Ey].
  split; [unfold centred; rewrite Ex, Ey; exact C | rewrite Hrad; exact R].
Qed.

Lemma updateGame_write_inv (g : game) (f : nat) :
  runInv g -> g.(flyingBubble) = Some f ->
  let g1 := write g f (fun bb => wallStep (moveStep bb)) in
  gridInv g1 /\ g1.(flyingBubble) = Some f /\ (forall b, (get g1 b).(radius) = BUBBLE_RADIUS).
Proof.
  intros (Hgi & _ & Hr & _) Ef; cbv zeta. destruct Hgi as [Hg Hfl].
  destruct (Hfl f Ef) as [Hflt Hni].
  destruct (write_shape g f (fun bb => wallStep (moveStep bb))) as (_ & _ & R);
    [intros bb; apply moveStep_wallStep_fields|].
  split; [split|split; [exact Ef|intros b; rewrite R; apply Hr]].
  - intros b Hb. assert (Hbf : b <> f) by (intros ->; exact (Hni Hb)).
    rewrite write_other by exact Hbf. exact (Hg b Hb).
  - intros f' Hf'; exact (Hfl f' Hf').
Qed.

(** X14 (runs): in every state reached from initGame, gridBubbles holds no bubble twice. *)
Theorem run_gridBubbles_NoDup (draws : nat -> Q) (es : list event) :
  NoDup (run draws es).(gridBubbles).
Proof. exact (proj1 (proj2 (run_runInv draws es))). Qed.

(** X15 (runs): in every state reached from initGame the cannon angle has a non-positive sine and the flying bubble, if any, has vy at most 0. *)
Theorem run_shots_go_up (draws : nat -> Q) (es : list event) :
  let g := run draws es in
  sin g.(cannonAngle) <= 0 /\
  match g.(flyingBubble) with Some f => (get g f).(vy) <= 0 | None => True end.
Proof.
  cbv zeta. destruct (run_runInv draws es) as (_ & _ & _ & Hs & Hv).
  split; [exact Hs|]. destruct (flyingBubble _) as [f|]; [apply Hv; reflexivity | exact I].
Qed.

(** X16 (runs): in every state reached from initGame, two grid bubbles collide exactly when they sit at the same position. *)
Theorem run_neighbors_same_place (draws : nat -> Q) (es : list event) :
  let g := run draws es in
  Forall (fun b => Forall (fun o =>
      isCollidingWith (get g b) (get g o) = true <->
      (get g b).(x) = (get g o).(x) /\ (get g b).(y) = (get g o).(y))
    g.(gridBubbles)) g.(gridBubbles).
Proof.
  cbv zeta. pose proof (run_runInv draws es) as Hinv.
  pose proof (runInv_centredGrid _ Hinv) as Hc.
  apply Forall_forall; intros b Hb; apply Forall_forall; intros o Ho.
  destruct (Hc b Hb) as [Cb Rb]; destruct (Hc o Ho) as [Co Ro].
  split.
  - apply colliding_same_place; assumption.
  - intros [Ex Ey]; apply isCollidingWith_same_place; assumption.
Qed.

(** X17 (runs): in every state reached from initGame, if the next updateGame settles the flying bubble, every bubble left in the grid has y at most 40. *)
Theorem run_settle_top_row (draws : nat -> Q) (es : list event) :
  let g := run draws es in
  match g.(flyingBubble), (updateGame g).(flyingBubble) with
  | Some _, None =>
      Forall (fun b => (get (updateGame g) b).(y) <= BUBBLE_RADIUS * 2)
             (updateGame g).(gridBubbles)
  | _, _ => True
  end.
Proof.
  cbv zeta. pose proof (run_runInv draws es) as Hinv.
  set (g := run draws es) in *. clearbody g.
  destruct (flyingBubble g) as [f|] eqn:Ef; [|exact I].
  destruct (updateGame_write_inv g f Hinv Ef) as (I1 & F1 & R1). cbv zeta in I1, F1, R1.
  unfold updateGame; rewrite Ef.
  set (g1 := write g f _) in *.
  destruct (_ || _); [|rewrite F1; exact I].
  rewrite settle_flying.
  pose proof (settle_mid_centred g1 f I1 F1 R1) as Hc; cbv zeta in Hc.
  unfold settle; cbv zeta.
  set (g5 := set_flyingBubble _ None) in *.
  rewrite checkGameOver_grid, (checkFloatingBubbles_top_eqn g5 Hc).
  apply Forall_forall; intros b Hb; apply filter_In in Hb as [_ Hy].
  destruct (keepsPlaces_trans _ _ _ (checkFloatingBubbles_keeps g5)
              (checkGameOver_keeps (checkFloatingBubbles g5))) as [Hp _].
  rewrite (proj2 (Hp b)). unfold Rleb in Hy; destruct (Rle_dec _ _); [assumption | discriminate].
Qed.

(** Score. *)
(** X18 (runs): no tick, aim or shoot event lowers the score. *)
Theorem step_score_monotone (g : game) (e : event) :
  Z.le g.(score) (step g e).(score).
Proof.
  destruct e as [|ex ey|]; simpl.
  - unfold runFrame; destruct (pending_frame g); [|apply Z.le_refl].
    exact (proj1 (proj2 (gameLoop_shape (set_pending_frame g None)))).
  - unfold handleAim; destruct (flyingBubble g); [apply Z.le_refl|]; cbv zeta.
    destruct (Rltb _ _); apply Z.le_refl.
  - destruct (flyingBubble g) eqn:Ef.
    + unfold handleShoot; rewrite Ef; apply Z.le_refl.
    + destruct (handleShoot_spec g Ef) as (_ & _ & _ & _ & _ & _ & _ & Hs).
      rewrite Hs; apply Z.le_refl.
Qed.

(** The draw pass. *)
Lemma drawFilter_spec (l : list nat) (g : game) :
  NoDup l ->
  fst (drawFilter l g) =
    filter (fun b => negb (get g b).(isPopping) || Nat.ltb (S (get g b).(popFrame)) 10) l /\
  (forall b, get (snd (drawFilter l g)) b =
     if (get g b).(isPopping) && mem b l
     then set_popFrame (get g b) (S (get g b).(popFrame)) else get g b) /\
  (snd (drawFilter l g)).(gridBubbles) = g.(gridBubbles) /\
  (snd (drawFilter l g)).(score) = g.(score).
Proof.
  revert g; induction l as [|b l IH]; intros g Hnd; cbn [drawFilter fst snd].
  - split; [reflexivity|]. split; [|split; reflexivity].
    intros z; rewrite andb_false_r; reflexivity.
  - apply NoDup_cons_iff in Hnd as [Hb Hnd].
    assert (Hmem : forall z, z <> b -> mem z (b :: l) = mem z l).
    { intros z Hz; unfold mem; simpl; apply Nat.eqb_neq in Hz; rewrite Hz; reflexivity. }
    assert (Hmb : mem b l = false).
    { destruct (mem b l) eqn:E; [apply mem_In in E; contradiction | reflexivity]. }
    destruct (isPopping (get g b)) eqn:Ep.
    + set (g1 := write g b _).
      assert (Hg1 : forall z, z <> b -> get g1 z = get g z).
      { intros z Hz; apply write_other, Hz. }
      assert (Hgb : get g1 b = set_popFrame (get g b) (S (get g b).(popFrame))).
      { unfold g1; rewrite write_get, Nat.eqb_refl; reflexivity. }
      destruct (IH g1 Hnd) as (F1 & G1 & R1 & S1).
      destruct (drawFilter l g1) as [rest g2]; cbn [fst snd] in *.
      split.
      { cbn [filter]; rewrite Ep; cbn [negb orb].
        rewrite Hgb; cbn [popFrame set_popFrame]. rewrite Nat.leb_antisym, negb_involutive.
        rewrite F1; destruct (Nat.ltb _ _); [f_equal|]; apply filter_ext_in;
          intros z Hz; rewrite Hg1 by (intros ->; contradiction); reflexivity. }
      split; [|split; [exact R1 | exact S1]].
      intros z; rewrite G1. destruct (Nat.eq_dec z b) as [->|Hz].
      * rewrite Hmb, andb_false_r, Hgb, Ep. unfold mem; cbn [existsb].
        rewrite Nat.eqb_refl; reflexivity.
      * rewrite Hg1 by exact Hz; rewrite Hmem by exact Hz; reflexivity.
    + destruct (IH g Hnd) as (F1 & G1 & R1 & S1).
      destruct (drawFilter l g) as [rest g2]; cbn [fst snd] in *.
      split; [cbn [filter]; rewrite Ep, F1; reflexivity|].
      split; [|split; [exact R1 | exact S1]].
      intros z; rewrite G1. destruct (Nat.eq_dec z b) as [->|Hz].
      * rewrite Ep; reflexivity.
      * rewrite Hmem by exact Hz; reflexivity.
Qed.

(** X19 (drawBubbles): on a bubbles list without duplicates, each popping bubble has its popFrame advanced by one, those reaching 10 leave the list, and the grid and score are unchanged. *)
Theorem drawBubbles_spec (g : game) (Hnd : NoDup g.(bubbles)) :
  let g' := drawBubbles g in
  g'.(bubbles) =
    filter (fun b => negb (get g b).(isPopping) || Nat.ltb (S (get g b).(popFrame)) 10)
           g.(bubbles) /\
  (forall b, get g' b =
     if (get g b).(isPopping) && mem b g.(bubbles)
     then set_popFrame (get g b) (S (get g b).(popFrame)) else get g b) /\
  g'.(gridBubbles) = g.(gridBubbles) /\ g'.(score) = g.(score).
Proof.
  cbv zeta; unfold drawBubbles. pose proof (drawFilter_spec (bubbles g) g Hnd) as H.
  destruct (drawFilter _ g) as [l g1]; exact H.
Qed.

Lemma drawBubbles_spec_witness :
  NoDup pop_game.(bubbles) /\
  (drawBubbles pop_game).(bubbles) = [1; 2]%nat /\
  (get (drawBubbles pop_game) 0).(popFrame) = 10%nat /\
  (get (drawBubbles pop_game) 1).(popFrame) = 4%nat /\
  (get (drawBubbles pop_game) 2).(popFrame) = 0%nat.
Proof.
  assert (H : NoDup pop_game.(bubbles)).
  { repeat constructor; simpl; intuition discriminate. }
  destruct (drawBubbles_spec pop_game H) as (B & G & _).
  split; [exact H|]. rewrite B, !G. repeat split; reflexivity.
Defined.

Lemma resizeCanvas_fits_witness :
  (0 < 800 /\ 0 < 600) /\
  let '(width, height) := resizeCanvas 800 600 in
  width * CANVAS_HEIGHT = height * CANVAS_WIDTH /\
  0 < width <= 800 /\ 0 < height <= 600 /\
  (width = 800 \/ height = 600).
Proof.
  assert (Hw : 0 < 800) by lra. assert (Hh : 0 < 600) by lra.
  split; [exact (conj Hw Hh) | exact (resizeCanvas_fits 800 600 Hw Hh)].
Defined.

Lemma getEventCoords_corners_witness :
  (0 < 800 /\ 0 < 600) /\
  let '(width, height) := resizeCanvas 800 600 in
  let rect := mkDomRect 10 20 width height in
  CANVAS_WIDTH / width = CANVAS_HEIGHT / height /\
  getEventCoords (mkInputEvent None 10 20) rect = (0, 0) /\
  (forall ts cX cY,
     getEventCoords (mkInputEvent (Some (mkTouch (10 + width) (20 + height) :: ts)) cX cY)
       rect = (CANVAS_WIDTH, CANVAS_HEIGHT)).
Proof.
  assert (Hw : 0 < 800) by lra. assert (Hh : 0 < 600) by lra.
  split; [exact (conj Hw Hh) | exact (getEventCoords_corners 800 600 10 20 Hw Hh)].
Defined.

Lemma shot_aim_line_witness :
  sample_game.(flyingBubble) = None /\
  let a := sample_game.(cannonAngle) in
  let g' := handleShoot sample_game in
  let f := sample_game.(next_obj) in
  exists aimEndX aimEndY,
    drawAimLine sample_game = Some ((cannonCenterX, cannonCenterY), (aimEndX, aimEndY)) /\
    (aimEndX - cannonCenterX) ^ 2 + (aimEndY - cannonCenterY) ^ 2 = AIM_LINE_LENGTH ^ 2 /\
    g'.(flyingBubble) = Some f /\
    (get g' f).(x) = cannonCenterX + CANNON_HEIGHT / 2 / AIM_LINE_LENGTH * (aimEndX - cannonCenterX) /\
    (get g' f).(y) = cannonCenterY + CANNON_HEIGHT / 2 / AIM_LINE_LENGTH * (aimEndY - cannonCenterY) /\
    (get g' f).(vx) = SHOOT_SPEED / AIM_LINE_LENGTH * (aimEndX - cannonCenterX) /\
    (get g' f).(vy) = SHOOT_SPEED / AIM_LINE_LENGTH * (aimEndY - cannonCenterY) /\
    (get g' f).(vx) ^ 2 + (get g' f).(vy) ^ 2 = SHOOT_SPEED ^ 2.
Proof. split; [reflexivity | exact (shot_aim_line sample_game eq_refl)]. Defined.

(** X10 (checkFloatingBubbles): the pass keeps the grid bubbles reached from the ceiling seeds, drops the others (isGrid false, vy 5), moves them to the end of bubbles and adds 5 points per dropped bubble. *)
Theorem checkFloatingBubbles_spec (g : game) :
  let q := ceilingSeeds g in
  let conn := bfs (getNeighbors g) (fun _ => true)
                  (length q + length g.(gridBubbles)) 0 q in
  let dropped := filter (fun b => negb (mem b conn)) g.(gridBubbles) in
  let g' := checkFloatingBubbles g in
  g'.(gridBubbles) = filter (fun b => mem b conn) g.(gridBubbles) /\
  g'.(bubbles) = fold_left (fun acc b => remove_first b acc) (rev dropped) g.(bubbles)
                 ++ rev dropped /\
  g'.(score) = (g.(score) + 5 * Z.of_nat (length dropped))%Z /\
  g'.(cannonAngle) = g.(cannonAngle) /\
  (forall b, get g' b = if mem b dropped then dropBubble (get g b) else get g b).
Proof. exact (checkFloatingBubbles_eqn g). Qed.

Lemma checkFloatingBubbles_reach_witness :
  NoDup sample_game.(gridBubbles) /\
  forall b, In b (checkFloatingBubbles sample_game).(gridBubbles) <->
    In b sample_game.(gridBubbles) /\
    exists s, In s (ceilingSeeds sample_game) /\
              clos_refl_trans_1n nat (fun u v => In v (getNeighbors sample_game u)) s b.
Proof.
  assert (H : NoDup sample_game.(gridBubbles)).
  { repeat constructor; simpl; intuition discriminate. }
  split; [exact H | exact (checkFloatingBubbles_reach sample_game H)].
Defined.

Lemma row1_centredGrid : centredGrid row1_game.
Proof.
  intros b [<- | []]. unfold get, row1_game; cbn [heap Nat.eqb].
  split; [|reflexivity].
  apply (centred_center 1 0); cbn [x y newBubble]; change (Z.rem 1 2) with 1%Z;
    unfold BUBBLE_DIAMETER; lra.
Qed.

(** X12 (checkFloatingBubbles): on a grid of centred radius-20 bubbles the pass keeps exactly the bubbles with y at most 40, i.e. row 0. *)
Theorem checkFloatingBubbles_top_row (g : game) (Hg : centredGrid g) :
  (checkFloatingBubbles g).(gridBubbles) =
  filter (fun b => Rleb (get g b).(y) (BUBBLE_RADIUS * 2)) g.(gridBubbles).
Proof. exact (checkFloatingBubbles_top_eqn g Hg). Qed.

Lemma checkFloatingBubbles_top_row_witness :
  centredGrid row1_game /\
  (checkFloatingBubbles row1_game).(gridBubbles) =
  filter (fun b => Rleb (get row1_game b).(y) (BUBBLE_RADIUS * 2)) row1_game.(gridBubbles).
Proof.
  split; [exact row1_centredGrid | exact (checkFloatingBubbles_top_row row1_game row1_centredGrid)].
Defined.

Lemma row0_centredGrid : centredGrid row0_game.
Proof.
  intros b Hb; unfold get, row0_game; cbn [heap gridBubbles] in *.
  destruct Hb as [<- | [<- | [<- | []]]]; cbn [Nat.eqb]; (split; [|reflexivity]).
  - apply (centred_center 0 0); cbn [x y newBubble]; change (Z.rem 0 2) with 0%Z;
      unfold BUBBLE_DIAMETER, BUBBLE_RADIUS; lra.
  - apply (centred_center 0 1); cbn [x y newBubble]; change (Z.rem 0 2) with 0%Z;
      unfold BUBBLE_DIAMETER, BUBBLE_RADIUS; lra.
  - apply (centred_center 0 2); cbn [x y newBubble]; change (Z.rem 0 2) with 0%Z;
      unfold BUBBLE_DIAMETER, BUBBLE_RADIUS; lra.
Qed.

Lemma row0_distinct :
  forall b o, In b row0_game.(gridBubbles) -> In o row0_game.(gridBubbles) -> b <> o ->
  (get row0_game b).(x) <> (get row0_game o).(x) \/ (get row0_game b).(y) <> (get row0_game o).(y).
Proof.
  intros b o Hb Ho Hne; left; unfold get, row0_game; cbn [heap gridBubbles] in *.
  destruct Hb as [<- | [<- | [<- | []]]]; destruct Ho as [<- | [<- | [<- | []]]];
    try (exfalso; apply Hne; reflexivity); cbn [Nat.eqb x newBubble]; lra.
Qed.

Lemma checkMatches_distinct_cells_witness :
  (centredGrid row0_game /\ In 1%nat row0_game.(gridBubbles) /\
   (forall b o, In b row0_game.(gridBubbles) -> In o row0_game.(gridBubbles) -> b <> o ->
      (get row0_game b).(x) <> (get row0_game o).(x) \/
      (get row0_game b).(y) <> (get row0_game o).(y))) /\
  getNeighbors row0_game 1 = [] /\ checkMatches row0_game 1 = row0_game.
Proof.
  assert (Hs : In 1%nat row0_game.(gridBubbles)) by (right; left; reflexivity).
  split; [exact (conj row0_centredGrid (conj Hs row0_distinct))|].
  exact (checkMatches_distinct_cells row0_game 1 row0_centredGrid Hs row0_distinct).
Defined.

(** ** Occupancy of the grid along runs

    A flight keeps its speed and stays between the walls; a shot that
    settles is at least 38 px from every grid member before its last move,
    moves at most 10 px, and snapping moves it at most 20 px across and
    10 sqrt 3 px down, so it never lands on an occupied centre. *)

Lemma flight_step (b : bubble) :
  b.(radius) = BUBBLE_RADIUS -> BUBBLE_RADIUS <= b.(x) <= CANVAS_WIDTH - BUBBLE_RADIUS ->
  let w := wallStep (moveStep b) in
  BUBBLE_RADIUS <= w.(x) <= CANVAS_WIDTH - BUBBLE_RADIUS /\
  (w.(x) - b.(x)) ^ 2 <= b.(vx) ^ 2 /\ w.(y) = b.(y) + b.(vy) /\
  w.(vx) ^ 2 = b.(vx) ^ 2 /\ w.(vy) = b.(vy) /\ w.(radius) = b.(radius).
Proof.
  intros Hr Hx; cbv zeta.
  destruct b as [bx0 by0 c r gr bvx bvy p f]; cbn in Hr, Hx |- *; subst r.
  unfold wallStep, moveStep, Rltb; cbn.
  unfold CANVAS_WIDTH, BUBBLE_RADIUS in *.
  repeat (destruct (Rlt_dec _ _); cbn in * ); repeat split; try lra; try nra.
Qed.

Lemma not_colliding_far (b o : bubble) :
  b.(radius) = BUBBLE_RADIUS -> o.(radius) = BUBBLE_RADIUS ->
  isCollidingWith b o = false ->
  38 ^ 2 <= (o.(x) - b.(x)) ^ 2 + (o.(y) - b.(y)) ^ 2.
Proof.
  intros Hb Ho H; unfold isCollidingWith, Rltb, dist in H; rewrite Hb, Ho in H.
  destruct (Rlt_dec _ _) as [_|Hn]; [discriminate|].
  apply Rnot_lt_le in Hn. unfold BUBBLE_RADIUS in Hn.
  destruct (Rle_or_lt (38 ^ 2) ((o.(x) - b.(x)) ^ 2 + (o.(y) - b.(y)) ^ 2)) as [L|L];
    [exact L|exfalso].
  assert (S : sqrt ((o.(x) - b.(x)) ^ 2 + (o.(y) - b.(y)) ^ 2) < sqrt (38 ^ 2))
    by (apply sqrt_lt_1_alt; split; [apply Rplus_le_le_0_compat; apply pow2_ge_0 | exact L]).
  rewrite sqrt_pow2 in S by lra. lra.
Qed.

Lemma far_not_colliding (b o : bubble) :
  b.(radius) = BUBBLE_RADIUS -> o.(radius) = BUBBLE_RADIUS ->
  38 ^ 2 <= (o.(x) - b.(x)) ^ 2 + (o.(y) - b.(y)) ^ 2 ->
  isCollidingWith b o = false.
Proof.
  intros Hb Ho H; unfold isCollidingWith, Rltb, dist; rewrite Hb, Ho.
  destruct (Rlt_dec _ _) as [L|_]; [exfalso|reflexivity].
  assert (S : sqrt (38 ^ 2) <= sqrt ((o.(x) - b.(x)) ^ 2 + (o.(y) - b.(y)) ^ 2))
    by (apply sqrt_le_1_alt; exact H).
  rewrite sqrt_pow2 in S by lra. unfold BUBBLE_RADIUS in L. lra.
Qed.

Lemma snap_apart (x0 y0 x1 y1 ox oy : R) :
  38 ^ 2 <= (ox - x0) ^ 2 + (oy - y0) ^ 2 ->
  (x1 - x0) ^ 2 + (y1 - y0) ^ 2 <= SHOOT_SPEED ^ 2 ->
  let p := getGridPosition x1 y1 in
  p.(gp_x) <> ox \/ p.(gp_y) <> oy.
Proof.
  intros Ho Hm; cbv zeta.
  destruct (snap_near x1 y1) as [Hx Hy]; cbv zeta in Hx, Hy.
  set (sx := gp_x _) in *. set (sy := gp_y _) in *.
  assert (Ux : (sx - x1) ^ 2 <= 400).
  { rewrite <- pow2_abs. pose proof (Rabs_pos (sx - x1)). unfold BUBBLE_RADIUS in Hx. nra. }
  assert (Uy : (sy - y1) ^ 2 <= 300).
  { rewrite <- pow2_abs. pose proof (Rabs_pos (sy - y1)). pose proof rowHeight_sq.
    pose proof rowHeight_pos. nra. }
  destruct (Req_dec sx ox) as [Ex|Ex]; [|left; exact Ex].
  destruct (Req_dec sy oy) as [Ey|Ey]; [|right; exact Ey].
  exfalso; subst ox oy. unfold SHOOT_SPEED in Hm.
  assert (0 <= ((sx - x1) - 5/2 * (x1 - x0)) ^ 2) by apply pow2_ge_0.
  assert (0 <= ((sy - y1) - 5/2 * (y1 - y0)) ^ 2) by apply pow2_ge_0.
  nra.
Qed.

Lemma distinctPos_keeps (g g' : game) : keepsPlaces g g' -> distinctPos g -> distinctPos g'.
Proof.
  intros [Hp Hi] D b o Hb Ho Hne.
  destruct (Hp b) as [Xb Yb]; destruct (Hp o) as [Xo Yo].
  rewrite Xb, Yb, Xo, Yo. apply D; auto.
Qed.

Lemma existsb_false_Forall {A} (p : A -> bool) (l : list A) :
  existsb p l = false -> Forall (fun a => p a = false) l.
Proof.
  induction l as [|a l IH]; intros H; [constructor|].
  simpl in H; apply orb_false_iff in H as [H1 H2]; constructor; auto.
Qed.

Lemma dropFloating_alerts (c : list nat) (i : nat) (g : game) (fb : list nat) :
  (fst (dropFloating c i g fb)).(alerts) = g.(alerts).
Proof.
  revert g fb; induction i as [|i IH]; intros g fb; simpl; [reflexivity|].
  destruct (nth_error _ _); [destruct (mem _ _)|]; rewrite IH; reflexivity.
Qed.

Lemma checkFloatingBubbles_alerts (g : game) : (checkFloatingBubbles g).(alerts) = g.(alerts).
Proof.
  unfold checkFloatingBubbles; cbv zeta.
  match goal with |- context [dropFloating ?c ?i ?g0 ?fb] =>
    pose proof (dropFloating_alerts c i g0 fb) as H; destruct (dropFloating c i g0 fb) end.
  exact H.
Qed.

(** The settle of a flying bubble whose snapped position is free. *)
Lemma settle_free (h : game) (f : nat) :
  gridInv h -> h.(flyingBubble) = Some f -> (forall b, (get h b).(radius) = BUBBLE_RADIUS) ->
  distinctPos h ->
  (forall o, In o h.(gridBubbles) ->
     let p := getGridPosition (get h f).(x) (get h f).(y) in
     p.(gp_x) <> (get h o).(x) \/ p.(gp_y) <> (get h o).(y)) ->
  distinctPos (settle h f) /\
  Forall (fun b => (get (settle h f) b).(y) <= BUBBLE_RADIUS * 2) (settle h f).(gridBubbles) /\
  (anchored h -> (settle h f).(alerts) = h.(alerts) /\ anchored (settle h f)).
Proof.
  intros Hinv Ef Hr D A.
  pose proof (settle_mid_centred h f Hinv Ef Hr) as Hc5; cbv zeta in Hc5.
  destruct Hinv as [Hg Hfl]. destruct (Hfl f Ef) as [_ Hni].
  unfold settle; cbv zeta.
  set (g3 := set_gridBubbles _ _) in *.
  assert (O3 : forall o, o <> f -> get g3 o = get h o).
  { intros o Ho; unfold g3; rewrite get_set_gridBubbles; unfold snapBubbleToGrid; cbv zeta.
    rewrite !write_other by exact Ho; reflexivity. }
  assert (F3 : (get g3 f).(x) = (getGridPosition (get h f).(x) (get h f).(y)).(gp_x) /\
               (get g3 f).(y) = (getGridPosition (get h f).(x) (get h f).(y)).(gp_y)).
  { unfold g3; rewrite get_set_gridBubbles; unfold snapBubbleToGrid; cbv zeta.
    rewrite !write_get, Nat.eqb_refl; split; reflexivity. }
  assert (G3 : g3.(gridBubbles) = h.(gridBubbles) ++ [f]) by reflexivity.
  assert (C3 : centredGrid g3).
  { intros b Hb; rewrite G3 in Hb.
    apply in_app_iff in Hb as [Hb | [<- | []]].
    - assert (Hbf : b <> f) by (intros ->; exact (Hni Hb)).
      rewrite O3 by exact Hbf. split; [exact (proj2 (Hg b Hb)) | apply Hr].
    - unfold g3; rewrite get_set_gridBubbles; unfold snapBubbleToGrid; cbv zeta.
      rewrite !write_get, Nat.eqb_refl. split; [apply centred_snap|].
      cbn [radius set_y set_x set_isGrid]; apply Hr. }
  assert (D3 : distinctPos g3).
  { intros b o Hb Ho Hne; rewrite G3 in Hb, Ho.
    apply in_app_iff in Hb as [Hb | [<- | []]]; apply in_app_iff in Ho as [Ho | [<- | []]].
    - assert (b <> f) by (intros ->; exact (Hni Hb)).
      assert (o <> f) by (intros ->; exact (Hni Ho)).
      rewrite !O3 by assumption. exact (D b o Hb Ho Hne).
    - assert (b <> f) by (intros ->; exact (Hni Hb)).
      rewrite O3 by assumption. destruct F3 as [-> ->].
      destruct (A b Hb) as [N|N]; [left|right]; intros E; apply N; symmetry; exact E.
    - assert (o <> f) by (intros ->; exact (Hni Ho)).
      rewrite (O3 o) by assumption. destruct F3 as [-> ->]. exact (A o Ho).
    - contradiction. }
  assert (Hf3 : In f g3.(gridBubbles)) by (rewrite G3; apply in_or_app; right; left; reflexivity).
  rewrite (proj2 (checkMatches_distinct_eqn g3 f C3 Hf3 D3)) in Hc5 |- *.
  set (g5 := set_flyingBubble g3 None) in *.
  pose proof (keepsPlaces_trans _ _ _ (checkFloatingBubbles_keeps g5)
                (checkGameOver_keeps (checkFloatingBubbles g5))) as K.
  split; [exact (distinctPos_keeps g5 _ K D3)|]. split.
  { rewrite checkGameOver_grid, (checkFloatingBubbles_top_eqn g5 Hc5).
    apply Forall_forall; intros b Hb; apply filter_In in Hb as [_ Hy].
    rewrite (proj2 (proj1 K b)). unfold Rleb in Hy; destruct (Rle_dec _ _); [assumption | discriminate]. }
  intros (a & Ha & Ya).
  set (g6 := checkFloatingBubbles g5).
  pose proof (checkFloatingBubbles_top_eqn g5 Hc5) as T6; fold g6 in T6.
  destruct (checkFloatingBubbles_keeps g5) as [K1 _]; fold g6 in K1.
  destruct (checkFloatingBubbles_shape g5) as (_ & _ & R6); fold g6 in R6.
  assert (Haf : a <> f) by (intros ->; exact (Hni Ha)).
  assert (Y5 : (get g5 a).(y) = (get h a).(y))
    by (change (get g5 a) with (get g3 a); rewrite O3 by exact Haf; reflexivity).
  assert (Hin : In a g6.(gridBubbles)).
  { rewrite T6; apply filter_In; split.
    - change (In a (h.(gridBubbles) ++ [f])); apply in_or_app; left; exact Ha.
    - rewrite Y5; unfold Rleb; destruct (Rle_dec _ _); [reflexivity | contradiction]. }
  assert (Q : checkGameOver g6 = g6).
  { unfold checkGameOver. destruct (existsb _ _) eqn:E.
    - exfalso; apply existsb_exists in E as (b & Hb & Hl).
      rewrite T6 in Hb; apply filter_In in Hb as [Hb Hy].
      rewrite (proj2 (K1 b)), R6 in Hl.
      change (In b g3.(gridBubbles)) in Hb. destruct (C3 b Hb) as [_ Rb].
      change (get g5 b) with (get g3 b) in Hl, Hy. rewrite Rb in Hl.
      unfold Rleb in Hy; destruct (Rle_dec _ _) as [Hy'|]; [|discriminate].
      unfold Rltb in Hl; destruct (Rlt_dec _ _) as [Hl'|]; [|discriminate].
      unfold CANVAS_HEIGHT, CANNON_HEIGHT, BUBBLE_RADIUS in *; lra.
    - destruct (gridBubbles g6) eqn:Eg; [destruct Hin | reflexivity]. }
  rewrite Q. split.
  - unfold g6; rewrite checkFloatingBubbles_alerts; reflexivity.
  - exists a; split; [exact Hin|]. rewrite (proj2 (K1 a)), Y5; exact Ya.
Qed.

Lemma move_free (g : game) (f : nat) :
  occInv g -> g.(flyingBubble) = Some f ->
  let g1 := write g f (fun bb => wallStep (moveStep bb)) in
  distinctPos g1 /\
  (forall o, In o g1.(gridBubbles) ->
     let p := getGridPosition (get g1 f).(x) (get g1 f).(y) in
     p.(gp_x) <> (get g1 o).(x) \/ p.(gp_y) <> (get g1 o).(y)).
Proof.
  intros (([Hg Hfl] & _ & Hr & _) & D & _ & Fl) Ef; cbv zeta.
  destruct (Hfl f Ef) as [_ Hni].
  unfold flightInv in Fl; rewrite Ef in Fl; cbv zeta in Fl. destruct Fl as (Sp & Hx & Nc).
  destruct (flight_step (get g f) (Hr f) Hx) as (Wx & Dx & Wy & Wvx & Wvy & Wr); cbv zeta in *.
  set (g1 := write g f _) in *.
  assert (E1 : get g1 f = wallStep (moveStep (get g f)))
    by (unfold g1; rewrite write_get, Nat.eqb_refl; reflexivity).
  assert (O1 : forall o, In o g.(gridBubbles) -> get g1 o = get g o).
  { intros o Ho; apply write_other; intros ->; exact (Hni Ho). }
  assert (G1 : g1.(gridBubbles) = g.(gridBubbles)) by reflexivity.
  split.
  - intros b o Hb Ho Hne; rewrite G1 in Hb, Ho; rewrite !O1 by assumption; exact (D b o Hb Ho Hne).
  - intros o Ho; rewrite G1 in Ho; rewrite (O1 o Ho), E1.
    apply (snap_apart (get g f).(x) (get g f).(y)).
    + apply not_colliding_far; [apply Hr | apply Hr |].
      rewrite Forall_forall in Nc; exact (Nc o Ho).
    + rewrite Wy. rewrite <- Sp. nra.
Qed.

Lemma occ_updateGame (g : game) : occInv g -> occInv (updateGame g).
Proof.
  intros H0; pose proof H0 as (Hrun & D & L & Fl).
  split; [exact (runInv_updateGame g Hrun)|].
  destruct (flyingBubble g) as [f|] eqn:Ef;
    [|unfold updateGame; rewrite Ef; exact (conj D (conj L Fl))].
  destruct (updateGame_write_inv g f Hrun Ef) as (I1 & F1 & R1). cbv zeta in I1, F1, R1.
  destruct Hrun as ([Hg Hfl] & _ & Hr & _).
  destruct (Hfl f Ef) as [_ Hni].
  unfold flightInv in Fl; rewrite Ef in Fl; cbv zeta in Fl. destruct Fl as (Sp & Hx & Nc).
  destruct (flight_step (get g f) (Hr f) Hx) as (Wx & Dx & Wy & Wvx & Wvy & Wr); cbv zeta in *.
  unfold updateGame; rewrite Ef.
  set (g1 := write g f _) in *.
  assert (E1 : get g1 f = wallStep (moveStep (get g f)))
    by (unfold g1; rewrite write_get, Nat.eqb_refl; reflexivity).
  assert (O1 : forall o, In o g.(gridBubbles) -> get g1 o = get g o).
  { intros o Ho; apply write_other; intros ->; exact (Hni Ho). }
  assert (G1 : g1.(gridBubbles) = g.(gridBubbles)) by reflexivity.
  destruct (_ || _) eqn:Ec.
  - destruct (move_free g f H0 Ef) as [D1 A1].
    destruct (settle_free g1 f I1 F1 R1 D1 A1) as (Ds & Ls & _).
    + split; [exact Ds|]. split.
      * eapply Forall_impl; [|exact Ls]. intros b Hb; simpl in Hb.
        unfold BUBBLE_RADIUS, CANVAS_HEIGHT in *; lra.
      * unfold flightInv; rewrite settle_flying; exact I.
  - apply orb_false_iff in Ec as [_ Ec].
    split; [|split].
    + intros b o Hb Ho Hne; rewrite G1 in Hb, Ho; rewrite !O1 by assumption; exact (D b o Hb Ho Hne).
    + unfold gridLow in *; rewrite G1; rewrite Forall_forall in L |- *.
      intros b Hb; rewrite O1 by exact Hb; exact (L b Hb).
    + unfold flightInv; rewrite F1; cbv zeta. rewrite E1.
      split; [rewrite Wvy; nra|]. split; [exact Wx|].
      rewrite <- E1. exact (existsb_false_Forall _ _ Ec).
Qed.

Lemma drawFilter_body (l : list nat) (g : game) (b : nat) :
  get (snd (drawFilter l g)) b =
  set_popFrame (get g b) (get (snd (drawFilter l g)) b).(popFrame).
Proof.
  revert g; induction l as [|z l IH]; intros g; simpl.
  - destruct (get g b); reflexivity.
  - destruct (isPopping (get g z)).
    + set (g1 := write g z _).
      pose proof (IH g1) as H1.
      destruct (drawFilter l g1) as [rest g2]; simpl in *.
      rewrite H1 at 1. unfold get at 1; cbn [heap write].
      destruct (Nat.eqb b z) eqn:E; [|reflexivity].
      apply Nat.eqb_eq in E; subst z. unfold get; destruct (heap g b); reflexivity.
    + pose proof (IH g) as H1. destruct (drawFilter l g) as [rest g2]; exact H1.
Qed.

Lemma drawGame_body (g : game) (b : nat) :
  get (drawGame g) b = set_popFrame (get g b) (get (drawGame g) b).(popFrame).
Proof.
  unfold drawGame, drawBubbles. pose proof (drawFilter_body (bubbles g) g b) as H.
  destruct (drawFilter _ g) as [l g1]; exact H.
Qed.

Lemma occ_drawGame (g : game) : occInv g -> occInv (drawGame g).
Proof.
  intros (Hrun & D & L & Fl).
  split; [exact (runInv_drawGame g Hrun)|].
  destruct (drawGame_frame g) as (_ & G & _).
  split; [exact (distinctPos_keeps g _ (drawGame_keeps g) D)|].
  split.
  - unfold gridLow in *; rewrite G; rewrite Forall_forall in L |- *.
    intros b Hb; rewrite drawGame_body; exact (L b Hb).
  - unfold flightInv in *; rewrite (proj2 (drawGame_meta g)).
    destruct (flyingBubble g) as [f|]; [|exact I]. cbv zeta in *.
    rewrite G, (drawGame_body g f).
    destruct Fl as (Sp & Hx & Nc). split; [exact Sp|]. split; [exact Hx|].
    eapply Forall_impl; [|exact Nc]. intros o Ho; simpl in Ho.
    rewrite (drawGame_body g o). exact Ho.
Qed.


Lemma occ_handleAim (g : game) (ex ey : R) : occInv g -> occInv (handleAim g ex ey).
Proof.
  intros H. pose proof (runInv_handleAim g ex ey (proj1 H)) as R.
  revert R; unfold handleAim.
  destruct (flyingBubble g) as [f|] eqn:Ef; [intros _; exact H|]. cbv zeta.
  destruct (Rltb 0 (ey - cannonCenterY)); [intros _; exact H|].
  intros R; destruct H as (_ & D & L & Fl).
  split; [exact R|]. split; [exact D|]. split; [exact L|].
  unfold flightInv; cbn [flyingBubble set_cannonAngle]; rewrite Ef; exact I.
Qed.

Lemma occ_handleShoot (g : game) : occInv g -> occInv (handleShoot g).
Proof.
  intros H. pose proof (runInv_handleShoot g (proj1 H)) as R.
  destruct (flyingBubble g) as [f|] eqn:Ef.
  { unfold handleShoot; rewrite Ef; exact H. }
  destruct H as (([Hg _] & _ & Hr & _) & D & L & _).
  destruct (handleShoot_spec g Ef) as (F & _ & Hnew & Hold & G & _ & _ & _).
  cbv zeta in F, Hnew, Hold.
  assert (O : forall o, In o g.(gridBubbles) -> get (handleShoot g) o = get g o).
  { intros o Ho; apply Hold. destruct (Hg o Ho); lia. }
  split; [exact R|]. split; [|split].
  - intros b o Hb Ho Hne; rewrite G in Hb, Ho; rewrite (O b Hb), (O o Ho).
    exact (D b o Hb Ho Hne).
  - unfold gridLow in *; rewrite G; rewrite Forall_forall in L |- *.
    intros b Hb; rewrite (O b Hb); exact (L b Hb).
  - unfold flightInv; rewrite F; cbv zeta. rewrite Hnew.
    cbn [x y vx vy radius set_vx set_vy newBubble].
    unfold cannonCenterX, cannonCenterY, CANNON_HEIGHT, CANVAS_WIDTH, CANVAS_HEIGHT,
      BUBBLE_RADIUS, SHOOT_SPEED.
    pose proof (COS_bound (cannonAngle g)). pose proof (SIN_bound (cannonAngle g)).
    pose proof (sin2_cos2 (cannonAngle g)) as SC; unfold Rsqr in SC.
    split; [nra|]. split; [lra|].
    rewrite G, Forall_forall. intros o Ho. rewrite (O o Ho).
    apply far_not_colliding; [reflexivity | apply Hr|].
    unfold gridLow in L; rewrite Forall_forall in L. pose proof (L o Ho) as Lo.
    cbn [x y vx vy radius set_vx set_vy newBubble].
    unfold CANVAS_HEIGHT in Lo.
    assert (260 <= 600 - 40 / 2 + sin (cannonAngle g) * (40 / 2) - y (get g o)) by lra.
    assert (0 <= (x (get g o) - (400 / 2 + cos (cannonAngle g) * (40 / 2))) ^ 2) by apply pow2_ge_0.
    nra.
Qed.


Lemma cellX_next (r c : nat) : cellX r c < cellX r (S c).
Proof. unfold cellX; rewrite S_INR; unfold BUBBLE_DIAMETER, BUBBLE_RADIUS; lra. Qed.

Lemma cellY_next (r : nat) : cellY r < cellY (S r).
Proof.
  unfold cellY; rewrite S_INR. pose proof sqrt3_bounds.
  unfold BUBBLE_DIAMETER, BUBBLE_RADIUS; lra.
Qed.

Lemma generateCell_occ (r c : nat) (g : game) :
  gridInv g -> distinctPos g -> gridLow g -> genBefore r c g ->
  distinctPos (generateCell r c g) /\ gridLow (generateCell r c g) /\
  genBefore r (S c) (generateCell r c g).
Proof.
  intros [Hg _] D L B; unfold generateCell; cbv zeta.
  destruct (_ && _) eqn:Eg.
  2:{ split; [exact D|]. split; [exact L|].
      intros b Hb; destruct (B b Hb) as [H|[H1 H2]]; [left; exact H|right].
      split; [exact H1|]. pose proof (cellX_next r c); lra. }
  apply andb_true_iff in Eg as [_ Ey]. unfold Rltb in Ey.
  destruct (Rlt_dec _ _) as [Ey'|]; [clear Ey|discriminate].
  destruct (getRandomBubbleColor g) as [c0 g1] eqn:E.
  pose proof (getRandomBubbleColor_state g) as Hs; rewrite E in Hs; simpl in Hs; subst g1.
  match goal with |- context [alloc ?g1 ?bb] => destruct (alloc g1 bb) as [id g2] eqn:Ea end.
  destruct (alloc_spec _ _ _ _ Ea) as (Hid & Hn & Hgr & Hf & Hnew & Hold).
  change (next_obj (set_rnd_pos g _)) with (next_obj g) in Hid.
  assert (G : (pushBoth g2 id).(gridBubbles) = g.(gridBubbles) ++ [id])
    by (unfold pushBoth; cbn [gridBubbles set_gridBubbles]; rewrite Hgr; reflexivity).
  assert (Ni : ~ In id g.(gridBubbles)) by (intros Hi; destruct (Hg id Hi); lia).
  assert (O : forall b, In b g.(gridBubbles) -> get (pushBoth g2 id) b = get g b).
  { intros b Hb; change (get (pushBoth g2 id) b) with (get g2 b).
    rewrite Hold by (intros ->; exact (Ni Hb)); reflexivity. }
  assert (N : get (pushBoth g2 id) id = newBubble (cellX r c) (cellY r) c0 true)
    by (change (get (pushBoth g2 id) id) with (get g2 id); rewrite Hnew; reflexivity).
  split; [|split].
  - intros b o Hb Ho Hne; rewrite G in Hb, Ho.
    apply in_app_iff in Hb as [Hb | [<- | []]]; apply in_app_iff in Ho as [Ho | [<- | []]].
    + rewrite (O b Hb), (O o Ho). exact (D b o Hb Ho Hne).
    + rewrite (O b Hb), N; cbn [x y newBubble].
      destruct (B b Hb) as [H|[_ H]]; [right|left]; lra.
    + rewrite (O o Ho), N; cbn [x y newBubble].
      destruct (B o Ho) as [H|[_ H]]; [right|left]; lra.
    + contradiction.
  - unfold gridLow in *; rewrite G; apply Forall_app; split.
    + rewrite Forall_forall in L |- *; intros b Hb; rewrite (O b Hb); exact (L b Hb).
    + constructor; [|constructor]. rewrite N; cbn [y newBubble]. unfold cellY; lra.
  - intros b Hb; rewrite G in Hb. pose proof (cellX_next r c).
    apply in_app_iff in Hb as [Hb | [<- | []]].
    + rewrite (O b Hb). destruct (B b Hb) as [Hy|[H1 H2]]; [left; exact Hy|right; split; lra].
    + rewrite N; cbn [x y newBubble]. right; split; [reflexivity|lra].
Qed.

Lemma generateRows_occ (k r0 : nat) (g : game) :
  gridInv g -> distinctPos g -> gridLow g -> genBefore r0 0 g ->
  distinctPos (fold_left (fun g r => generateRow r g) (seq r0 k) g) /\
  gridLow (fold_left (fun g r => generateRow r g) (seq r0 k) g).
Proof.
  revert r0 g; induction k as [|k IH]; intros r0 g I D L B; simpl; [exact (conj D L)|].
  assert (Row : forall n c0 g, gridInv g -> distinctPos g -> gridLow g -> genBefore r0 c0 g ->
            gridInv (fold_left (fun g c => generateCell r0 c g) (seq c0 n) g) /\
            distinctPos (fold_left (fun g c => generateCell r0 c g) (seq c0 n) g) /\
            gridLow (fold_left (fun g c => generateCell r0 c g) (seq c0 n) g) /\
            genBefore r0 (c0 + n) (fold_left (fun g c => generateCell r0 c g) (seq c0 n) g)).
  { intros n; induction n as [|n IHn]; intros c0 h Ih Dh Lh Bh; simpl.
    - rewrite Nat.add_0_r; tauto.
    - destruct (generateCell_occ r0 c0 h Ih Dh Lh Bh) as (D1 & L1 & B1).
      rewrite <- Nat.add_succ_comm.
      exact (IHn (S c0) _ (generateCell_gridInv r0 c0 h Ih) D1 L1 B1). }
  unfold generateRow.
  destruct (Row (GRID_COLS - (if Nat.even r0 then 0 else 1))%nat 0%nat g I D L B) as (I1 & D1 & L1 & B1).
  apply IH; [exact I1 | exact D1 | exact L1|].
  intros b Hb. pose proof (cellY_next r0). left.
  destruct (B1 b Hb) as [Hy|[Hy _]]; lra.
Qed.

Lemma initGame_occInv (draws : nat -> Q) : occInv (initGame draws).
Proof.
  split; [apply initGame_runInv|].
  assert (H : distinctPos (generateInitialGrid
                 (mkGame (fun _ => emptyBubble) 0 0%Z 0 [] [] None 0 None 0 draws 0 [])) /\
              gridLow (generateInitialGrid
                 (mkGame (fun _ => emptyBubble) 0 0%Z 0 [] [] None 0 None 0 draws 0 []))).
  { apply generateRows_occ.
    - split; [intros b [] | intros f Hf; discriminate Hf].
    - intros b o [].
    - constructor.
    - intros b []. }
  destruct H as [D L]. split; [exact D|]. split; [exact L|].
  unfold flightInv; rewrite (proj1 (initGame_aim draws)); exact I.
Qed.




Lemma quiet_updateGame (g : game) : quietInv g -> quietInv (updateGame g).
Proof.
  intros (H0 & An & Al). split; [exact (occ_updateGame g H0)|].
  destruct (flyingBubble g) as [f|] eqn:Ef;
    [|unfold updateGame; rewrite Ef; exact (conj An Al)].
  destruct (move_free g f H0 Ef) as [D1 A1].
  destruct (updateGame_write_inv g f (proj1 H0) Ef) as (I1 & F1 & R1). cbv zeta in *.
  destruct H0 as (([Hg Hfl] & _) & _).
  destruct (Hfl f Ef) as [_ Hni].
  destruct An as (a & Ha & Ya).
  unfold updateGame; rewrite Ef.
  set (g1 := write g f _) in *.
  assert (Y1 : (get g1 a).(y) = (get g a).(y))
    by (unfold g1; rewrite write_other by (intros ->; exact (Hni Ha)); reflexivity).
  assert (An1 : anchored g1) by (exists a; split; [exact Ha | rewrite Y1; exact Ya]).
  destruct (_ || _).
  - destruct (settle_free g1 f I1 F1 R1 D1 A1) as (_ & _ & Q).
    destruct (Q An1) as [Q1 Q2]. split; [exact Q2 | rewrite Q1; exact Al].
  - split; [exact An1 | exact Al].
Qed.

Lemma drawFilter_alerts (l : list nat) (g : game) :
  (snd (drawFilter l g)).(alerts) = g.(alerts).
Proof.
  revert g; induction l as [|z l IH]; intros g; simpl; [reflexivity|].
  destruct (isPopping (get g z)).
  - set (g1 := write g z _). pose proof (IH g1) as H1.
    destruct (drawFilter l g1) as [rest g2]; exact H1.
  - pose proof (IH g) as H1. destruct (drawFilter l g) as [rest g2]; exact H1.
Qed.

Lemma quiet_drawGame (g : game) : quietInv g -> quietInv (drawGame g).
Proof.
  intros (H0 & (a & Ha & Ya) & Al). split; [exact (occ_drawGame g H0)|].
  destruct (drawGame_frame g) as (_ & G & _). split.
  - exists a; split; [rewrite G; exact Ha|]. rewrite drawGame_body; exact Ya.
  - unfold drawGame, drawBubbles. pose proof (drawFilter_alerts (bubbles g) g) as H.
    destruct (drawFilter _ g) as [l g1]; simpl in *; rewrite H; exact Al.
Qed.

Lemma quiet_gameLoop (g : game) : quietInv g -> quietInv (gameLoop g).
Proof. intros H; exact (quiet_drawGame _ (quiet_updateGame _ H)). Qed.

Lemma quiet_handleAim (g : game) (ex ey : R) : quietInv g -> quietInv (handleAim g ex ey).
Proof.
  intros (H0 & An & Al). pose proof (occ_handleAim g ex ey H0) as O.
  revert O; unfold handleAim.
  destruct (flyingBubble g); [intros O; exact (conj O (conj An Al))|]. cbv zeta.
  destruct (Rltb _ _); intros O; exact (conj O (conj An Al)).
Qed.

Lemma quiet_handleShoot (g : game) : quietInv g -> quietInv (handleShoot g).
Proof.
  intros (H0 & (a & Ha & Ya) & Al). split; [exact (occ_handleShoot g H0)|].
  destruct (flyingBubble g) as [f|] eqn:Ef.
  { unfold handleShoot; rewrite Ef. exact (conj (ex_intro _ a (conj Ha Ya)) Al). }
  destruct H0 as (([Hg _] & _) & _).
  destruct (handleShoot_spec g Ef) as (_ & _ & _ & Hold & G & _ & _ & _).
  split.
  - exists a; split; [rewrite G; exact Ha|].
    rewrite Hold; [exact Ya|]. destruct (Hg a Ha); lia.
  - unfold handleShoot, getRandomBubbleColor, Math_random, alloc; rewrite Ef; cbv zeta.
    destruct (Nat.ltb _ _); exact Al.
Qed.

Lemma quiet_step (g : game) (e : event) : quietInv g -> quietInv (step g e).
Proof.
  intros H; destruct e as [|ex ey|]; simpl.
  - unfold runFrame; destruct (pending_frame g); [|exact H].
    apply quiet_gameLoop; exact H.
  - apply quiet_handleAim, H.
  - apply quiet_handleShoot, H.
Qed.

Lemma generateCell_quiet (r c : nat) (g : game) :
  gridInv g ->
  (anchored g \/ (cellX r c < CANVAS_WIDTH - BUBBLE_RADIUS /\ cellY r <= BUBBLE_RADIUS * 2)) ->
  anchored (generateCell r c g) /\ (generateCell r c g).(alerts) = g.(alerts).
Proof.
  intros [Hg _] A; unfold generateCell; cbv zeta.
  destruct (_ && _) eqn:Eg.
  2:{ split; [|reflexivity]. destruct A as [A|[A1 A2]]; [exact A|exfalso].
      apply andb_false_iff in Eg as [E|E]; unfold Rltb in E;
        destruct (Rlt_dec _ _); try discriminate.
      - unfold cellX in A1; contradiction.
      - unfold cellY, BUBBLE_RADIUS, CANVAS_HEIGHT in *; lra. }
  destruct (getRandomBubbleColor g) as [c0 g1] eqn:E.
  pose proof (getRandomBubbleColor_state g) as Hs; rewrite E in Hs; simpl in Hs; subst g1.
  match goal with |- context [alloc ?g1 ?bb] => destruct (alloc g1 bb) as [id g2] eqn:Ea end.
  pose proof (alloc_spec _ _ _ _ Ea) as (Hid & Hn & Hgr & Hf & Hnew & Hold).
  change (next_obj (set_rnd_pos g _)) with (next_obj g) in Hid.
  split.
  - destruct A as [(a & Ha & Ya)|[_ A2]].
    + exists a; split.
      * unfold pushBoth; cbn [gridBubbles set_gridBubbles]; rewrite Hgr.
        apply in_or_app; left; exact Ha.
      * change (get (pushBoth g2 id) a) with (get g2 a).
        rewrite Hold by (intros ->; destruct (Hg _ Ha); lia). exact Ya.
    + exists id; split.
      * unfold pushBoth; cbn [gridBubbles set_gridBubbles].
        apply in_or_app; right; left; reflexivity.
      * change (get (pushBoth g2 id) id) with (get g2 id); rewrite Hnew; exact A2.
  - unfold alloc in Ea; injection Ea as _ <-; reflexivity.
Qed.

Lemma generateCells_quiet (r : nat) (l : list nat) (g : game) :
  gridInv g -> anchored g ->
  gridInv (fold_left (fun g c => generateCell r c g) l g) /\
  anchored (fold_left (fun g c => generateCell r c g) l g) /\
  (fold_left (fun g c => generateCell r c g) l g).(alerts) = g.(alerts).
Proof.
  revert g; induction l as [|c l IH]; intros g I A; simpl; [tauto|].
  destruct (generateCell_quiet r c g I (or_introl A)) as [A1 L1].
  destruct (IH _ (generateCell_gridInv r c g I) A1) as (I2 & A2 & L2).
  rewrite L2, L1; tauto.
Qed.

Lemma generateRows_quiet (l : list nat) (g : game) :
  gridInv g -> anchored g ->
  anchored (fold_left (fun g r => generateRow r g) l g) /\
  (fold_left (fun g r => generateRow r g) l g).(alerts) = g.(alerts).
Proof.
  revert g; induction l as [|r l IH]; intros g I A; simpl; [tauto|].
  assert (H : gridInv (generateRow r g) /\ anchored (generateRow r g) /\
              (generateRow r g).(alerts) = g.(alerts))
    by exact (generateCells_quiet r _ g I A).
  destruct H as (I1 & A1 & L1).
  destruct (IH _ I1 A1) as [A2 L2]. rewrite L2, L1; tauto.
Qed.

Lemma fold_left_cons_eq {A B} (f : A -> B -> A) (a : B) (l : list B) (i : A) :
  fold_left f (a :: l) i = fold_left f l (f i a).
Proof. reflexivity. Qed.

Lemma initGame_quietInv (draws : nat -> Q) : quietInv (initGame draws).
Proof.
  split; [apply initGame_occInv|].
  set (g0 := mkGame (fun _ => emptyBubble) 0 0%Z 0 [] [] None 0 None 0 draws 0 []).
  change (anchored (generateInitialGrid g0) /\ (generateInitialGrid g0).(alerts) = []).
  assert (I0 : gridInv g0) by (split; [intros b [] | intros f Hf; discriminate Hf]).
  assert (R0 : gridInv (generateRow 0 g0) /\ anchored (generateRow 0 g0) /\
               (generateRow 0 g0).(alerts) = g0.(alerts)).
  { unfold generateRow.
    replace (seq 0 (GRID_COLS - (if Nat.even 0 then 0 else 1))) with (0%nat :: seq 1 9)
      by reflexivity.
    rewrite fold_left_cons_eq; cbv beta.
    destruct (generateCell_quiet 0 0 g0 I0) as [A1 L1].
    { right. unfold cellX, cellY, CANVAS_WIDTH, BUBBLE_DIAMETER, BUBBLE_RADIUS; simpl; lra. }
    destruct (generateCells_quiet 0 (seq 1 9) _ (generateCell_gridInv 0 0 g0 I0) A1)
      as (I2 & A2 & L2).
    rewrite L2, L1; tauto. }
  destruct R0 as (I1 & A1 & L1).
  unfold generateInitialGrid.
  replace (seq 0 INITIAL_GRID_ROWS) with (0%nat :: seq 1 4) by reflexivity.
  rewrite fold_left_cons_eq; cbv beta.
  destruct (generateRows_quiet (seq 1 4) _ I1 A1) as [A3 L3].
  split; [exact A3|]. rewrite L3, L1; reflexivity.
Qed.

Lemma run_quietInv (draws : nat -> Q) (es : list event) : quietInv (run draws es).
Proof.
  unfold run; generalize (initGame_quietInv draws); generalize (initGame draws).
  induction es as [|e es IH]; intros g Hg; simpl; [exact Hg|].
  apply IH, quiet_step, Hg.
Qed.

(** X20 (runs, checkGameOver): in every state reached from initGame by ticks, aim and shoot events no game-over or win alert has been raised: every settle leaves only bubbles within 40 px of the ceiling, so the loss line is never crossed, and a ceiling bubble of the initial grid always remains, so the grid is never empty. *)
Theorem run_no_alerts (draws : nat -> Q) (es : list event) :
  (run draws es).(alerts) = [].
Proof. exact (proj2 (proj2 (run_quietInv draws es))). Qed.
